(** * persistent_set.h: a persistent ordered set on a path-copying binary search tree

    The C++ header keeps every version of the set as a graph of immutable,
    reference-counted nodes.  Reference equality of nodes, sharing between
    versions and the raw pointers held by iterators all matter for what the
    container promises, so the embedding keeps an explicit store of nodes:
    a pointer is an address into the store, [make_shared] appends a node to
    it, and every function of the header becomes a function that reads (and,
    for the two mutators, extends) the store.

    Loops and recursions over the store take a [fuel] argument; undefined
    behaviour (a null or wild pointer dereference, reading the element of the
    valueless anchor) and allocation failure are explicit outcomes.

    The element type [T] of the template is instantiated at [Z] with its
    usual order: the header only ever compares elements with [<] and [>]. *)

From Stdlib Require Import ZArith Lia.
From stdpp Require Import base option list sorting.

Local Open Scope Z_scope.

(** ** Outcomes of running a piece of the header *)

Inductive res (A : Type) : Type :=
| Ok (a : A)         (* ran to completion *)
| Fault              (* undefined behaviour *)
| BadAlloc           (* make_shared threw std::bad_alloc *)
| OutOfFuel.         (* the model ran out of fuel *)

Arguments Ok {A} a.
Arguments Fault {A}.
Arguments BadAlloc {A}.
Arguments OutOfFuel {A}.

#[global] Instance res_ret : MRet res := fun A a => Ok a.

(** Sequencing: the first outcome that is not [Ok] ends the run. *)
#[global] Instance res_bind : MBind res := fun A B k m =>
  match m with
  | Ok a => k a
  | Fault => Fault
  | BadAlloc => BadAlloc
  | OutOfFuel => OutOfFuel
  end.

(** ** The store of nodes *)

Definition loc := nat.

(** [std::shared_ptr<bNode>] and [bNode *] alike; [None] is [nullptr]. *)
Definition ptr := option loc.

(** [struct bNode] with the field of its one subclass [node]: the anchor is a
    plain [bNode] and has no [value]. *)
Record bNode : Type := mkNode {
  left : ptr;
  right : ptr;
  value : option Z
}.

Abbreviation heap := (list bNode).

(** Pointers and [size_t] are taken to be 64 bits wide.  [nullptr] is one of
    the addresses, so fewer than [2 ^ 64] nodes fit; past that [make_shared]
    fails.  The model never reclaims a node (no property stated below is
    about deallocation), so the length of the store counts every allocation
    made so far. *)
Definition max_nodes : Z := 2 ^ 64 - 1.

Definition alloc (h : heap) (n : bNode) : res (loc * heap) :=
  if Z.of_nat (length h) <? max_nodes then Ok (length h, h ++ [n])
  else BadAlloc.

Definition deref (h : heap) (p : ptr) : res bNode :=
  match p with
  | None => Fault
  | Some a => match h !! a with
              | Some n => Ok n
              | None => Fault
              end
  end.

(** [bNode::get_value]: a [static_cast] to [node]; on the anchor there is no
    such member to read. *)
Definition get_value (h : heap) (p : ptr) : res Z :=
  n ← deref h p;
  match value n with
  | Some v => Ok v
  | None => Fault
  end.

(** [p->left = q] for an existing node [p]. *)
Definition set_left (h : heap) (p : ptr) (q : ptr) : res heap :=
  n ← deref h p;
  match p with
  | Some a => Ok (<[a := mkNode q (right n) (value n)]> h)
  | None => Fault
  end.

Definition ptr_eqb (p q : ptr) : bool :=
  match p, q with
  | None, None => true
  | Some a, Some b => Nat.eqb a b
  | _, _ => false
  end.

(** [bNode::bNode()] *)
Definition new_bNode : bNode := mkNode None None None.

(** [node::node(value)] and [node::node(left, right, value)] *)
Definition new_leaf (v : Z) : bNode := mkNode None None (Some v).
Definition new_node (l r : ptr) (v : Z) : bNode := mkNode l r (Some v).

(** ** Handles and iterators *)

Record persistent_set : Type := mkSet {
  tree : ptr;
  _size : Z           (* size_t *)
}.

(** [_size++] and [_size--] on a [size_t]. *)
Definition size_t_modulus : Z := 2 ^ 64.
Definition size_incr (n : Z) : Z := (n + 1) mod size_t_modulus.
Definition size_decr (n : Z) : Z := (n - 1) mod size_t_modulus.

Record iterator : Type := mkIter {
  _node : ptr;
  root : ptr
}.

(** [operator==] and [operator!=] compare [_node] only. *)
Definition iter_eqb (a b : iterator) : bool := ptr_eqb (_node a) (_node b).
Definition iter_neqb (a b : iterator) : bool := negb (iter_eqb a b).

(** ** bNode::min, bNode::max *)

Fixpoint min (fuel : nat) (h : heap) (cur : ptr) : res ptr :=
  match fuel with
  | O => OutOfFuel
  | S fuel' =>
      n ← deref h cur;
      match left n with
      | Some _ => min fuel' h (left n)
      | None => Ok cur
      end
  end.

Fixpoint max (fuel : nat) (h : heap) (cur : ptr) : res ptr :=
  match fuel with
  | O => OutOfFuel
  | S fuel' =>
      n ← deref h cur;
      match right n with
      | Some _ => max fuel' h (right n)
      | None => Ok cur
      end
  end.

(** ** bNode::next, bNode::prev *)

Fixpoint next_loop (fuel : nat) (h : heap) (this : ptr) (cur result : ptr)
  : res ptr :=
  match fuel with
  | O => OutOfFuel
  | S fuel' =>
      cv ← get_value h cur;
      tv ← get_value h this;
      if cv <? tv then
        n ← deref h cur; next_loop fuel' h this (right n) result
      else if cv >? tv then
        n ← deref h cur; next_loop fuel' h this (left n) cur
      else Ok result
  end.

Definition next (fuel : nat) (h : heap) (this : ptr) (root : ptr) : res ptr :=
  n ← deref h this;
  match right n with
  | Some _ => min fuel h (right n)
  | None =>
      r ← deref h root;
      next_loop fuel h this (left r) root
  end.

Fixpoint prev_loop (fuel : nat) (h : heap) (this : ptr) (cur result : ptr)
  : res ptr :=
  match fuel with
  | O => OutOfFuel
  | S fuel' =>
      cv ← get_value h cur;
      tv ← get_value h this;
      if cv <? tv then
        n ← deref h cur; prev_loop fuel' h this (right n) cur
      else if cv >? tv then
        n ← deref h cur; prev_loop fuel' h this (left n) result
      else Ok result
  end.

Definition prev (fuel : nat) (h : heap) (this : ptr) (root : ptr) : res ptr :=
  n ← deref h this;
  match left n with
  | Some _ => max fuel h (left n)
  | None =>
      r ← deref h root;
      prev_loop fuel h this (left r) root
  end.

(** ** iterator: ++, --, * *)

Definition iter_incr (fuel : nat) (h : heap) (it : iterator) : res iterator :=
  p ← next fuel h (_node it) (root it);
  Ok (mkIter p (root it)).

Definition iter_decr (fuel : nat) (h : heap) (it : iterator) : res iterator :=
  p ← prev fuel h (_node it) (root it);
  Ok (mkIter p (root it)).

Definition iter_get (h : heap) (it : iterator) : res Z :=
  get_value h (_node it).

(** ** persistent_set: end, begin, empty, find *)

Definition end_ (s : persistent_set) : iterator :=
  mkIter (tree s) (tree s).

Definition begin (fuel : nat) (h : heap) (s : persistent_set) : res iterator :=
  match tree s with
  | None => Ok (end_ s)
  | Some _ =>
      a ← deref h (tree s);
      match left a with
      | None => Ok (end_ s)
      | Some _ =>
          m ← min fuel h (tree s);
          Ok (mkIter m (tree s))
      end
  end.

Definition empty (s : persistent_set) : bool := _size s =? 0.

Fixpoint find_loop (fuel : nat) (h : heap) (s : persistent_set) (cur : ptr)
    (v : Z) : res iterator :=
  match fuel with
  | O => OutOfFuel
  | S fuel' =>
      match cur with
      | None => Ok (end_ s)
      | Some _ =>
          cv ← get_value h cur;
          if cv >? v then
            n ← deref h cur; find_loop fuel' h s (left n) v
          else if cv <? v then
            n ← deref h cur; find_loop fuel' h s (right n) v
          else Ok (mkIter cur (tree s))
      end
  end.

Definition find (fuel : nat) (h : heap) (s : persistent_set) (v : Z)
  : res iterator :=
  match tree s with
  | None => Ok (end_ s)
  | Some _ =>
      a ← deref h (tree s);
      find_loop fuel h s (left a) v
  end.

(** ** insert_impl, erase_impl

    The arguments of [make_shared] are evaluated before the node is
    allocated, so the recursive call allocates first and the copy of [pos]
    last.  [pos->left], [pos->right] and [pos->get_value()] are read from a
    node that is never written again, so reading them once, before the
    recursive call, is the same as reading them after it. *)

Fixpoint insert_impl (fuel : nat) (h : heap) (pos : ptr) (v : Z) (result : ptr)
  : res (ptr * ptr * heap) :=
  match fuel with
  | O => OutOfFuel
  | S fuel' =>
      match pos with
      | None =>
          '(a, h1) ← alloc h (new_leaf v);
          Ok (Some a, Some a, h1)
      | Some _ =>
          pv ← get_value h pos;
          n ← deref h pos;
          if pv <? v then
            '(r, result1, h1) ← insert_impl fuel' h (right n) v result;
            '(a, h2) ← alloc h1 (new_node (left n) r pv);
            Ok (Some a, result1, h2)
          else
            '(l, result1, h1) ← insert_impl fuel' h (left n) v result;
            '(a, h2) ← alloc h1 (new_node l (right n) pv);
            Ok (Some a, result1, h2)
      end
  end.

Fixpoint erase_impl (fuel : nat) (h : heap) (pos pos2 : ptr)
  : res (ptr * heap) :=
  match fuel with
  | O => OutOfFuel
  | S fuel' =>
      if ptr_eqb pos pos2 then
        n2 ← deref h pos2;
        match right n2 with
        | None => Ok (left n2, h)
        | Some _ =>
            match left n2 with
            | None => Ok (right n2, h)
            | Some _ =>
                n ← deref h pos;
                minimum ← min fuel' h (right n);
                '(r, h1) ← erase_impl fuel' h (right n) minimum;
                mv ← get_value h1 minimum;
                '(a, h2) ← alloc h1 (new_node (left n) r mv);
                Ok (Some a, h2)
            end
        end
      else
        pv ← get_value h pos;
        pv2 ← get_value h pos2;
        n ← deref h pos;
        if pv <? pv2 then
          '(r, h1) ← erase_impl fuel' h (right n) pos2;
          '(a, h2) ← alloc h1 (new_node (left n) r pv);
          Ok (Some a, h2)
        else
          '(l, h1) ← erase_impl fuel' h (left n) pos2;
          '(a, h2) ← alloc h1 (new_node l (right n) pv);
          Ok (Some a, h2)
  end.

(** ** persistent_set: constructors, tree_, insert, erase, clear, swap *)

(** [persistent_set()] *)
Definition new_set : persistent_set := mkSet None 0.

(** [persistent_set(persistent_set const &)] *)
Definition copy_set (other : persistent_set) : persistent_set :=
  mkSet (tree other) (_size other).

(** The copy assignment the compiler supplies (the header leaves its own
    [operator=] commented out): member by member. *)
Definition assign_set (s other : persistent_set) : persistent_set :=
  mkSet (tree other) (_size other).

Definition tree_ (h : heap) (s : persistent_set) : res (heap * persistent_set) :=
  match tree s with
  | Some _ => Ok (h, s)
  | None =>
      '(a, h1) ← alloc h new_bNode;
      Ok (h1, mkSet (Some a) (_size s))
  end.

Definition insert (fuel : nat) (h : heap) (s : persistent_set) (v : Z)
  : res (iterator * bool * heap * persistent_set) :=
  '(h0, s0) ← tree_ h s;
  res_ ← find fuel h0 s0 v;
  if iter_neqb res_ (end_ s0) then
    Ok (res_, false, h0, s0)
  else
    '(tmp_tree, h1) ← alloc h0 new_bNode;
    a ← deref h1 (tree s0);
    '(new_root, result, h2) ← insert_impl fuel h1 (left a) v None;
    h3 ← set_left h2 (Some tmp_tree) new_root;
    let s1 := mkSet (Some tmp_tree) (size_incr (_size s0)) in
    Ok (mkIter result (tree s1), true, h3, s1).

Definition erase (fuel : nat) (h : heap) (s : persistent_set) (it : iterator)
  : res (heap * persistent_set) :=
  match tree s with
  | None => Ok (h, s)
  | Some _ =>
      a ← deref h (tree s);
      match left a with
      | None => Ok (h, s)
      | Some _ =>
          '(tmp_tree, h1) ← alloc h new_bNode;
          '(new_root, h2) ← erase_impl fuel h1 (left a) (_node it);
          h3 ← set_left h2 (Some tmp_tree) new_root;
          Ok (h3, mkSet (Some tmp_tree) (size_decr (_size s)))
      end
  end.

Definition clear (s : persistent_set) : persistent_set := mkSet None 0.

Definition swap (s other : persistent_set) : persistent_set * persistent_set :=
  (mkSet (tree other) (_size other), mkSet (tree s) (_size s)).

(** ** Walking a handle from [begin()] to [end()]

    The loop a caller writes: start at [s.begin()], and while the iterator
    differs from [s.end()] read the element it points at and increment it. *)

Fixpoint walk (fuel : nat) (h : heap) (it e : iterator) : res (list Z) :=
  match fuel with
  | O => OutOfFuel
  | S fuel' =>
      if iter_neqb it e then
        v ← iter_get h it;
        it1 ← iter_incr fuel h it;
        vs ← walk fuel' h it1 e;
        Ok (v :: vs)
      else Ok []
  end.

Definition traverse (fuel : nat) (h : heap) (s : persistent_set)
  : res (list Z) :=
  b ← begin fuel h s;
  walk fuel h b (end_ s).

(** ** A program state: one store, any number of handles *)

Record world : Type := mkWorld {
  store : heap;
  handles : list persistent_set
}.

(** What a caller can do with the handles it holds: construct, copy, assign,
    [clear], [swap], [insert] and [erase].  ([find], [begin], [end] and the
    iterator operations change neither the store nor a handle.)  Handles are
    named by their position in [handles]. *)
Inductive op : Type :=
| OpNew
| OpCopy (i : nat)
| OpAssign (i j : nat)
| OpClear (i : nat)
| OpSwap (i j : nat)
| OpInsert (i : nat) (v : Z)
| OpErase (i : nat) (it : iterator).

(** One operation that ran to completion: a run that ends in undefined
    behaviour or in [std::bad_alloc] is no step. *)
Inductive step : world -> op -> world -> Prop :=
| step_new w :
    step w OpNew (mkWorld (store w) (handles w ++ [new_set]))
| step_copy w i s :
    handles w !! i = Some s ->
    step w (OpCopy i) (mkWorld (store w) (handles w ++ [copy_set s]))
| step_assign w i j s1 s2 :
    handles w !! i = Some s1 ->
    handles w !! j = Some s2 ->
    step w (OpAssign i j)
      (mkWorld (store w) (<[i := assign_set s1 s2]> (handles w)))
| step_clear w i s :
    handles w !! i = Some s ->
    step w (OpClear i) (mkWorld (store w) (<[i := clear s]> (handles w)))
| step_swap w i j s1 s2 :
    handles w !! i = Some s1 ->
    handles w !! j = Some s2 ->
    step w (OpSwap i j)
      (mkWorld (store w)
         (<[j := snd (swap s1 s2)]> (<[i := fst (swap s1 s2)]> (handles w))))
| step_insert w i s v fuel it b h1 s1 :
    handles w !! i = Some s ->
    insert fuel (store w) s v = Ok (it, b, h1, s1) ->
    step w (OpInsert i v) (mkWorld h1 (<[i := s1]> (handles w)))
| step_erase w i s it fuel h1 s1 :
    handles w !! i = Some s ->
    erase fuel (store w) s it = Ok (h1, s1) ->
    step w (OpErase i it) (mkWorld h1 (<[i := s1]> (handles w))).

Definition initial : world := mkWorld [] [].

Inductive reachable : world -> Prop :=
| reach_init : reachable initial
| reach_step w o w1 : reachable w -> step w o w1 -> reachable w1.

(** ** Trees as the store holds them

    A [shape] is a finite binary tree that records, for every node, the
    address of the node object as well as its element.  Two shapes with a
    common sub-shape therefore share the very same node objects. *)

Inductive shape : Type :=
| Nil
| Bin (a : loc) (l : shape) (v : Z) (r : shape).

Definition root_of (t : shape) : ptr :=
  match t with
  | Nil => None
  | Bin a _ _ _ => Some a
  end.

(** The store [h] holds the tree [t]: every node of [t] is a value-bearing
    node of [h] whose child pointers are the roots of its sub-shapes. *)
Fixpoint repr (h : heap) (t : shape) : Prop :=
  match t with
  | Nil => True
  | Bin a l v r =>
      h !! a = Some (mkNode (root_of l) (root_of r) (Some v))
      /\ repr h l /\ repr h r
  end.

(** Nodes in order: left subtree, node, right subtree. *)
Fixpoint nodes (t : shape) : list (loc * Z) :=
  match t with
  | Nil => []
  | Bin a l v r => nodes l ++ (a, v) :: nodes r
  end.

Definition locs (t : shape) : list loc := (nodes t).*1.
Definition elements (t : shape) : list Z := (nodes t).*2.

Fixpoint height (t : shape) : nat :=
  match t with
  | Nil => O
  | Bin _ l _ r => S (Nat.max (height l) (height r))
  end.

(** The ordering invariant of the data model, node by node. *)
Fixpoint bst (t : shape) : Prop :=
  match t with
  | Nil => True
  | Bin _ l v r =>
      Forall (fun x => x < v) (elements l)
      /\ Forall (fun x => v < x) (elements r)
      /\ bst l /\ bst r
  end.

Fixpoint leftmost (t : shape) : option (loc * Z) :=
  match t with
  | Nil => None
  | Bin a l v _ =>
      match l with
      | Nil => Some (a, v)
      | Bin _ _ _ _ => leftmost l
      end
  end.

Fixpoint rightmost (t : shape) : option (loc * Z) :=
  match t with
  | Nil => None
  | Bin a _ v r =>
      match r with
      | Nil => Some (a, v)
      | Bin _ _ _ _ => rightmost r
      end
  end.

(** The sub-shape whose root holds [x], found by comparing elements on the
    way down; [Nil] when the descent falls off the tree. *)
Fixpoint subtree_of (t : shape) (x : Z) : shape :=
  match t with
  | Nil => Nil
  | Bin _ l v r =>
      if v >? x then subtree_of l x
      else if v <? x then subtree_of r x
      else t
  end.

(** The nodes visited by that descent, root first. *)
Fixpoint path (t : shape) (x : Z) : list loc :=
  match t with
  | Nil => []
  | Bin a l v r =>
      if v >? x then a :: path l x
      else if v <? x then a :: path r x
      else [a]
  end.

(** [s] occurs in [t], with the same node objects. *)
Fixpoint occurs (s t : shape) : Prop :=
  s = t \/
  match t with
  | Nil => False
  | Bin _ l _ r => occurs s l \/ occurs s r
  end.

(** The descent of [bNode::next] from the real root: [c] is the candidate
    recorded so far. *)
Fixpoint last_left_turn (t : shape) (x : Z) (c : ptr) : ptr :=
  match t with
  | Nil => c
  | Bin a l v r =>
      if v <? x then last_left_turn r x c
      else if v >? x then last_left_turn l x (Some a)
      else c
  end.

(** Its mirror image in [bNode::prev]. *)
Fixpoint last_right_turn (t : shape) (x : Z) (c : ptr) : ptr :=
  match t with
  | Nil => c
  | Bin a l v r =>
      if v <? x then last_right_turn r x (Some a)
      else if v >? x then last_right_turn l x c
      else c
  end.

(** The node holding the least element above [x], else [c]; the node holding
    the greatest element below [x], else [c]. *)
Definition node_above (t : shape) (x : Z) (c : ptr) : ptr :=
  match filter (fun n => x < n.2) (nodes t) with
  | [] => c
  | n :: _ => Some n.1
  end.

Definition node_below (t : shape) (x : Z) (c : ptr) : ptr :=
  match last (filter (fun n => n.2 < x) (nodes t)) with
  | None => c
  | Some n => Some n.1
  end.

(** ** Path copying, on shapes (sections 4.2 and 4.3 of the specification)

    [n] is the first free address; the result carries the first free address
    afterwards.  Untouched subtrees are reused as they are. *)

Fixpoint shape_insert (x : Z) (n : loc) (t : shape) : shape * loc :=
  match t with
  | Nil => (Bin n Nil x Nil, S n)
  | Bin _ l v r =>
      if v <? x then
        let '(r1, n1) := shape_insert x n r in (Bin n1 l v r1, S n1)
      else
        let '(l1, n1) := shape_insert x n l in (Bin n1 l1 v r, S n1)
  end.

Fixpoint shape_erase (p : loc) (pv : Z) (n : loc) (t : shape)
  : option (shape * loc) :=
  match t with
  | Nil => None
  | Bin a l v r =>
      if Nat.eqb a p then
        match r with
        | Nil => Some (l, n)
        | Bin _ _ _ _ =>
            match l with
            | Nil => Some (r, n)
            | Bin _ _ _ _ =>
                '(m, mv) ← leftmost r;
                '(r1, n1) ← shape_erase m mv n r;
                Some (Bin n1 l mv r1, S n1)
            end
        end
      else if v <? pv then
        '(r1, n1) ← shape_erase p pv n r;
        Some (Bin n1 l v r1, S n1)
      else
        '(l1, n1) ← shape_erase p pv n l;
        Some (Bin n1 l1 v r, S n1)
  end.

(** Putting [x] at its place in an ascending list. *)
Fixpoint sorted_insert (x : Z) (l : list Z) : list Z :=
  match l with
  | [] => [x]
  | y :: l1 => if x <? y then x :: l else y :: sorted_insert x l1
  end.

(** ** Well-formed handles and program states *)

(** Handle [s] stands for the tree [t]: no anchor yet and no element, or an
    anchor whose left child is the real root and whose right child is unused.
    A handle stands for at most one tree ([models_unique]). *)
Definition models (h : heap) (s : persistent_set) (t : shape) : Prop :=
  match tree s with
  | None => t = Nil
  | Some a => h !! a = Some (mkNode (root_of t) None None) /\ repr h t
  end.

Definition wf_heap (h : heap) : Prop := Z.of_nat (length h) <= max_nodes.

(** A well-formed handle: its tree is a search tree and its counter is the
    number of elements.  Every handle of a reachable program state is well
    formed ([reachable_wf]). *)
Record wf_set (h : heap) (s : persistent_set) (t : shape) : Prop := mk_wf_set {
  wf_models : models h s t;
  wf_bst : bst t;
  wf_size : _size s = Z.of_nat (length (elements t))
}.

Definition wf_world (w : world) : Prop :=
  wf_heap (store w)
  /\ forall s, s ∈ handles w -> exists t, wf_set (store w) s t.

(** The store once [tree_] has run on handle [s]. *)
Definition anchored (h : heap) (s : persistent_set) : heap :=
  match tree s with
  | None => h ++ [new_bNode]
  | Some _ => h
  end.

(** The iterator [find] hands back for the outcome [p] of its descent. *)
Definition found (s : persistent_set) (p : ptr) : iterator :=
  match p with
  | Some _ => mkIter p (tree s)
  | None => end_ s
  end.

(** ** Running a sequence of insertions *)

Definition insert_all (fuel : nat) (vs : list Z) (st : heap * persistent_set)
  : res (heap * persistent_set) :=
  foldl (fun acc v =>
           '(h, s) ← acc;
           '(_, _, h1, s1) ← insert fuel h s v;
           Ok (h1, s1))
        (Ok st) vs.

(** ** A small concrete state

    The set {1, 3, 5}: 3 at the root, 1 and 5 its children, built bottom-up,
    the anchor allocated last. *)

Definition sample_store : heap :=
  [ new_leaf 1; new_leaf 5; new_node (Some 0%nat) (Some 1%nat) 3;
    mkNode (Some 2%nat) None None ].

Definition sample_shape : shape :=
  Bin 2%nat (Bin 0%nat Nil 1 Nil) 3 (Bin 1%nat Nil 5 Nil).

Definition sample_set : persistent_set := mkSet (Some 3%nat) 3.

(** The state after [persistent_set a; a.insert(3); a.insert(1);
    persistent_set b(a);] *)
Definition sample_world : world :=
  mkWorld
    [ new_bNode; mkNode (Some 2%nat) None None; new_leaf 3;
      mkNode (Some 5%nat) None None; new_leaf 1;
      new_node (Some 4%nat) None 3 ]
    [ mkSet (Some 3%nat) 2; mkSet (Some 3%nat) 2 ].

(** ** Reverse iteration: rbegin, rend and std::reverse_iterator<iterator>

    A reverse iterator wraps a base iterator [current].  The standard library
    defines its [operator*] as [tmp = current; --tmp; return *tmp], its
    [operator++] as [--current] and its comparison as the comparison of the
    bases. *)

Record reverse_iterator : Type := mkRev { current : iterator }.

Definition rbegin (s : persistent_set) : reverse_iterator := mkRev (end_ s).

Definition rend (fuel : nat) (h : heap) (s : persistent_set)
  : res reverse_iterator :=
  b ← begin fuel h s;
  Ok (mkRev b).

Definition rev_get (fuel : nat) (h : heap) (r : reverse_iterator) : res Z :=
  tmp ← iter_decr fuel h (current r);
  iter_get h tmp.

Definition rev_incr (fuel : nat) (h : heap) (r : reverse_iterator)
  : res reverse_iterator :=
  c ← iter_decr fuel h (current r);
  Ok (mkRev c).

Definition rev_neqb (a b : reverse_iterator) : bool :=
  iter_neqb (current a) (current b).

(** The loop from [s.rbegin()] to [s.rend()]. *)
Fixpoint rev_walk (fuel : nat) (h : heap) (r e : reverse_iterator)
  : res (list Z) :=
  match fuel with
  | O => OutOfFuel
  | S fuel' =>
      if rev_neqb r e then
        v ← rev_get fuel h r;
        r1 ← rev_incr fuel h r;
        vs ← rev_walk fuel' h r1 e;
        Ok (v :: vs)
      else Ok []
  end.

Definition rev_traverse (fuel : nat) (h : heap) (s : persistent_set)
  : res (list Z) :=
  e ← rend fuel h s;
  rev_walk fuel h (rbegin s) e.

(** ** The set a sequence of insertions builds: each new value at its place
    in the ascending list, a repeated value ignored. *)

Definition set_add (acc : list Z) (v : Z) : list Z :=
  if decide (v ∈ acc) then acc else sorted_insert v acc.

Definition set_of (vs : list Z) : list Z := foldl set_add [] vs.

(** A tree without left children: what ascending insertions build. *)
Fixpoint right_chain (t : shape) : Prop :=
  match t with
  | Nil => True
  | Bin _ l _ r => l = Nil /\ right_chain r
  end.

(** * Proofs *)

(** ** Running the outcome monad *)

#[global] Arguments deref : simpl never.
#[global] Arguments get_value : simpl never.
#[global] Arguments alloc : simpl never.
#[global] Arguments set_left : simpl never.

Lemma bind_Ok {A B : Type} (m : res A) (k : A -> res B) (b : B) :
  m ≫= k = Ok b -> exists a, m = Ok a /\ k a = Ok b.
Proof. destruct m; simpl; try discriminate. eauto. Qed.

(** Split a hypothesis [x ← m; k = Ok r] into its two runs. *)
Ltac bind_inv H :=
  let a := fresh "a" in
  let Ha := fresh "Hrun" in
  apply bind_Ok in H; destruct H as (a & Ha & H).

Lemma alloc_Ok h n a h1 :
  alloc h n = Ok (a, h1) ->
  a = length h /\ h1 = h ++ [n] /\ Z.of_nat (length h) < max_nodes.
Proof.
  unfold alloc. destruct (Z.ltb_spec (Z.of_nat (length h)) max_nodes);
    intros [= <- <-]; auto.
Qed.

Lemma alloc_run h n :
  Z.of_nat (length h) < max_nodes -> alloc h n = Ok (length h, h ++ [n]).
Proof.
  intros H. unfold alloc.
  destruct (Z.ltb_spec (Z.of_nat (length h)) max_nodes); [reflexivity | lia].
Qed.

Lemma deref_Some h a n : h !! a = Some n -> deref h (Some a) = Ok n.
Proof. intros H. unfold deref. rewrite H. reflexivity. Qed.

Lemma deref_Ok h p n : deref h p = Ok n -> exists a, p = Some a /\ h !! a = Some n.
Proof.
  unfold deref. destruct p as [a|]; [|discriminate].
  destruct (h !! a) eqn:E; [|discriminate]. intros [= ->]. eauto.
Qed.

Lemma get_value_Some h a n v :
  h !! a = Some n -> value n = Some v -> get_value h (Some a) = Ok v.
Proof. intros H Hv. unfold get_value. rewrite (deref_Some _ _ _ H). simpl. rewrite Hv. reflexivity. Qed.

Lemma get_value_Ok h p v :
  get_value h p = Ok v ->
  exists a n, p = Some a /\ h !! a = Some n /\ value n = Some v.
Proof.
  unfold get_value. intros H. bind_inv H.
  apply deref_Ok in Hrun as (b & -> & Hb).
  destruct (value a) eqn:E; [|discriminate]. injection H as ->. eauto.
Qed.

Lemma ptr_eqb_eq p q : ptr_eqb p q = true <-> p = q.
Proof.
  destruct p as [a|], q as [b|]; simpl; try (split; congruence).
  rewrite Nat.eqb_eq. split; congruence.
Qed.

Lemma ptr_eqb_refl p : ptr_eqb p p = true.
Proof. apply ptr_eqb_eq. reflexivity. Qed.

Lemma ptr_eqb_neq p q : ptr_eqb p q = false <-> p <> q.
Proof.
  rewrite <- ptr_eqb_eq. destruct (ptr_eqb p q); split; congruence.
Qed.

(** ** Shapes: elements, nodes, order *)

Lemma nodes_Bin a l v r : nodes (Bin a l v r) = nodes l ++ (a, v) :: nodes r.
Proof. reflexivity. Qed.

Lemma elements_Bin a l v r :
  elements (Bin a l v r) = elements l ++ v :: elements r.
Proof. unfold elements. simpl. rewrite fmap_app. reflexivity. Qed.

Lemma locs_Bin a l v r : locs (Bin a l v r) = locs l ++ a :: locs r.
Proof. unfold locs. simpl. rewrite fmap_app. reflexivity. Qed.

Lemma length_elements_locs t : length (elements t) = length (locs t).
Proof. unfold elements, locs. rewrite !length_fmap. reflexivity. Qed.

Lemma elem_of_nodes_elements a v t : (a, v) ∈ nodes t -> v ∈ elements t.
Proof. intros H. unfold elements. apply list_elem_of_fmap. exists (a, v). auto. Qed.

Lemma elem_of_elements_nodes v t : v ∈ elements t -> exists a, (a, v) ∈ nodes t.
Proof.
  unfold elements. intros H. apply list_elem_of_fmap in H as ([a w] & -> & H).
  eauto.
Qed.

Lemma elem_of_locs_nodes a t : a ∈ locs t -> exists v, (a, v) ∈ nodes t.
Proof.
  unfold locs. intros H. apply list_elem_of_fmap in H as ([b w] & -> & H).
  eauto.
Qed.

Lemma elem_of_nodes_Bin b w a l v r :
  (b, w) ∈ nodes (Bin a l v r) <->
  (b, w) ∈ nodes l \/ (b = a /\ w = v) \/ (b, w) ∈ nodes r.
Proof.
  rewrite nodes_Bin, elem_of_app, elem_of_cons.
  split; intros [H|[H|H]]; auto.
  - injection H as -> ->. auto.
  - destruct H as [-> ->]. auto.
Qed.

Lemma bst_sorted t : bst t -> StronglySorted Z.lt (elements t).
Proof.
  induction t as [|a l IHl v r IHr]; simpl.
  - intros _. constructor.
  - intros (Hl & Hr & Bl & Br). rewrite elements_Bin.
    apply StronglySorted_app_2; [ | auto | constructor; auto].
    intros x y Hx Hy. rewrite Forall_forall in Hl, Hr.
    apply elem_of_cons in Hy as [->|Hy]; [auto|].
    specialize (Hl _ Hx). specialize (Hr _ Hy). lia.
Qed.

Lemma sorted_lt_NoDup (l : list Z) : StronglySorted Z.lt l -> NoDup l.
Proof.
  induction 1 as [|x l Hs IH Hx]; constructor; auto.
  intros Hin. rewrite Forall_forall in Hx. specialize (Hx _ Hin). lia.
Qed.

Lemma bst_NoDup t : bst t -> NoDup (elements t).
Proof. intros H. apply sorted_lt_NoDup, bst_sorted, H. Qed.

Lemma filter_none {A} (P : A -> Prop) `{forall x, Decision (P x)} (l : list A) :
  Forall (fun x => ~ P x) l -> filter P l = [].
Proof.
  induction 1 as [|x l Hx Hl IH]; [reflexivity|].
  rewrite filter_cons_False; auto.
Qed.

Lemma filter_all {A} (P : A -> Prop) `{forall x, Decision (P x)} (l : list A) :
  Forall P l -> filter P l = l.
Proof.
  induction 1 as [|x l Hx Hl IH]; [reflexivity|].
  rewrite filter_cons_True; auto. congruence.
Qed.

Lemma Forall_nodes_elements (P : Z -> Prop) t :
  Forall P (elements t) <-> Forall (fun n => P n.2) (nodes t).
Proof. unfold elements. rewrite Forall_fmap. reflexivity. Qed.

(** ** What the store says about a shape it holds *)

Lemma repr_prefix h h1 t : h `prefix_of` h1 -> repr h t -> repr h1 t.
Proof.
  intros Hp. induction t as [|a l IHl v r IHr]; simpl; [auto|].
  intros (Ha & Hl & Hr). split; [|auto].
  eapply prefix_lookup_Some; eauto.
Qed.

Lemma repr_lookup h t a v :
  repr h t -> (a, v) ∈ nodes t ->
  exists pl pr, h !! a = Some (mkNode pl pr (Some v)).
Proof.
  induction t as [|b l IHl w r IHr]; simpl.
  - intros _ H. inversion H.
  - intros (Hb & Hl & Hr) H.
    apply elem_of_app in H as [H|H]; [auto|].
    apply elem_of_cons in H as [H|H]; [|auto].
    injection H as -> ->. eauto.
Qed.

Lemma repr_locs_lt h t a : repr h t -> a ∈ locs t -> (a < length h)%nat.
Proof.
  intros Hr Ha. apply elem_of_locs_nodes in Ha as (v & Ha).
  destruct (repr_lookup _ _ _ _ Hr Ha) as (pl & pr & E).
  eapply lookup_lt_Some, E.
Qed.

Lemma repr_update h t a n : repr h t -> a ∉ locs t -> repr (<[a := n]> h) t.
Proof.
  induction t as [|b l IHl w r IHr]; simpl; [auto|].
  intros (Hb & Hl & Hr) Hn. rewrite locs_Bin in Hn.
  rewrite not_elem_of_app, not_elem_of_cons in Hn. destruct Hn as (Hnl & Hne & Hnr).
  split; [|auto]. rewrite list_lookup_insert_ne; auto.
Qed.

Lemma repr_NoDup_locs h t : repr h t -> bst t -> NoDup (locs t).
Proof.
  intros Hr Hb. unfold locs. apply NoDup_fmap_fst.
  - intros a v1 v2 H1 H2.
    destruct (repr_lookup _ _ _ _ Hr H1) as (? & ? & E1).
    destruct (repr_lookup _ _ _ _ Hr H2) as (? & ? & E2).
    congruence.
  - apply (NoDup_fmap_1 snd). apply bst_NoDup, Hb.
Qed.

(** The store holds at most one shape below a given pointer. *)
Lemma repr_unique h t t1 :
  repr h t -> repr h t1 -> root_of t = root_of t1 -> t = t1.
Proof.
  revert t1. induction t as [|a l IHl v r IHr]; intros t1 Hr Hr1 E.
  - destruct t1; [reflexivity|discriminate].
  - destruct t1 as [|a1 l1 v1 r1]; [discriminate|].
    injection E as <-. destruct Hr as (Ha & Hl & Hr). destruct Hr1 as (Ha1 & Hl1 & Hr1).
    rewrite Ha in Ha1. injection Ha1 as El Er <-.
    f_equal; auto.
Qed.

(** A search tree held by the store has no more elements than the store has
    nodes. *)
Lemma repr_length_le h t :
  repr h t -> bst t -> (length (elements t) <= length h)%nat.
Proof.
  intros Hr Hb. rewrite length_elements_locs.
  assert (length (locs t) <= length (seq 0 (length h)))%nat as Hle.
  { apply submseteq_length, NoDup_submseteq.
    - eapply repr_NoDup_locs; eauto.
    - intros a Ha. apply elem_of_seq.
      pose proof (repr_locs_lt _ _ _ Hr Ha). lia. }
  rewrite length_seq in Hle. exact Hle.
Qed.

(** ** The sub-shape that holds a given element *)

Lemma subtree_of_occurs t x : occurs (subtree_of t x) t.
Proof.
  induction t as [|a l IHl v r IHr]; simpl; [auto|].
  destruct (v >? x); [auto|]. destruct (v <? x); auto.
Qed.

Lemma repr_occurs h s t : occurs s t -> repr h t -> repr h s.
Proof.
  induction t as [|a l IHl v r IHr]; simpl.
  - intros [->|[]]. auto.
  - intros [->|[H|H]] (Ha & Hl & Hr); simpl; auto.
Qed.

Lemma bst_occurs s t : occurs s t -> bst t -> bst s.
Proof.
  induction t as [|a l IHl v r IHr]; simpl.
  - intros [->|[]]. auto.
  - intros [->|[H|H]] (Fl & Fr & Bl & Br); simpl; auto.
Qed.

Lemma subtree_of_absent t x : x ∉ elements t -> subtree_of t x = Nil.
Proof.
  induction t as [|a l IHl v r IHr]; simpl; [auto|].
  rewrite elements_Bin, not_elem_of_app, not_elem_of_cons.
  intros (Hl & Hne & Hr).
  destruct (Z.gtb_spec v x); [auto|].
  destruct (Z.ltb_spec v x); [auto|]. lia.
Qed.

Lemma subtree_of_present t a x :
  bst t -> (a, x) ∈ nodes t -> exists l r, subtree_of t x = Bin a l x r.
Proof.
  induction t as [|b l IHl v r IHr]; simpl.
  - intros _ H. inversion H.
  - intros (Fl & Fr & Bl & Br) H.
    rewrite Forall_forall in Fl, Fr.
    apply elem_of_app in H as [H|H]; [|apply elem_of_cons in H as [H|H]].
    + pose proof (Fl _ (elem_of_nodes_elements _ _ _ H)).
      destruct (Z.gtb_spec v x); [auto|lia].
    + injection H as -> ->.
      destruct (Z.gtb_spec v v); [lia|].
      destruct (Z.ltb_spec v v); [lia|]. eauto.
    + pose proof (Fr _ (elem_of_nodes_elements _ _ _ H)).
      destruct (Z.gtb_spec v x); [lia|].
      destruct (Z.ltb_spec v x); [auto|lia].
Qed.

Lemma subtree_of_elem t a l x r :
  subtree_of t x = Bin a l x r -> (a, x) ∈ nodes t.
Proof.
  induction t as [|b tl IHl v tr IHr]; simpl; [discriminate|].
  rewrite elem_of_app, elem_of_cons.
  destruct (v >? x); [auto|]. destruct (v <? x); [auto|].
  intros [= -> -> -> ->]. auto.
Qed.

Lemma path_length t x : (length (path t x) <= height t)%nat.
Proof.
  induction t as [|a l IHl v r IHr]; simpl; [lia|].
  destruct (v >? x); simpl; [lia|]. destruct (v <? x); simpl; lia.
Qed.

(** ** bNode::min and bNode::max on a held shape *)

Lemma leftmost_head t : leftmost t = head (nodes t).
Proof.
  induction t as [|a l IHl v r IHr]; [reflexivity|].
  simpl. destruct l as [|b l1 w l2]; [reflexivity|].
  rewrite IHl. simpl. destruct (nodes l1 ++ (b, w) :: nodes l2) eqn:E; [|reflexivity].
  destruct (nodes l1); discriminate.
Qed.

Lemma rightmost_last t : rightmost t = last (nodes t).
Proof.
  induction t as [|a l IHl v r IHr]; [reflexivity|].
  simpl. rewrite last_app_cons.
  destruct r as [|b r1 w r2]; [reflexivity|].
  rewrite IHr. simpl. destruct (nodes r1 ++ (b, w) :: nodes r2) eqn:E; [|reflexivity].
  destruct (nodes r1); discriminate.
Qed.

Lemma leftmost_Bin a l v r : exists m, leftmost (Bin a l v r) = Some m.
Proof.
  revert a v r. induction l as [|b l1 IH1 w l2 IH2]; intros a v r.
  - simpl. eauto.
  - change (leftmost (Bin a (Bin b l1 w l2) v r)) with (leftmost (Bin b l1 w l2)).
    apply IH1.
Qed.

Lemma rightmost_Bin a l v r : exists m, rightmost (Bin a l v r) = Some m.
Proof.
  revert a v l. induction r as [|b r1 IH1 w r2 IH2]; intros a v l.
  - simpl. eauto.
  - change (rightmost (Bin a l v (Bin b r1 w r2))) with (rightmost (Bin b r1 w r2)).
    apply IH2.
Qed.

Lemma min_run h t m fuel :
  repr h t -> leftmost t = Some m -> (height t <= fuel)%nat ->
  min fuel h (root_of t) = Ok (Some m.1).
Proof.
  revert fuel. induction t as [|a l IHl v r IHr]; intros fuel Hr Hm Hf.
  - discriminate.
  - destruct fuel as [|fuel]; [simpl in Hf; lia|].
    destruct Hr as (Ha & Hl & Hr). simpl in Hf.
    cbn [min root_of]. rewrite (deref_Some _ _ _ Ha). cbn.
    destruct l as [|b l1 w l2].
    + cbn in *. injection Hm as <-. reflexivity.
    + apply IHl; auto. lia.
Qed.

Lemma max_run h t m fuel :
  repr h t -> rightmost t = Some m -> (height t <= fuel)%nat ->
  max fuel h (root_of t) = Ok (Some m.1).
Proof.
  revert fuel. induction t as [|a l IHl v r IHr]; intros fuel Hr Hm Hf.
  - discriminate.
  - destruct fuel as [|fuel]; [simpl in Hf; lia|].
    destruct Hr as (Ha & Hl & Hr). simpl in Hf.
    cbn [max root_of]. rewrite (deref_Some _ _ _ Ha). cbn.
    destruct r as [|b r1 w r2].
    + cbn in *. injection Hm as <-. reflexivity.
    + apply IHr; auto. lia.
Qed.

(** ** find *)

Lemma find_loop_run h s t x fuel :
  repr h t -> (height t < fuel)%nat ->
  find_loop fuel h s (root_of t) x = Ok (found s (root_of (subtree_of t x))).
Proof.
  revert fuel. induction t as [|a l IHl v r IHr]; intros fuel Hr Hf.
  - destruct fuel; [lia|]. reflexivity.
  - destruct fuel as [|fuel]; [lia|].
    destruct Hr as (Ha & Hl & Hr). simpl in Hf.
    cbn [find_loop root_of subtree_of].
    rewrite (get_value_Some _ _ _ _ Ha eq_refl). cbn.
    rewrite (deref_Some _ _ _ Ha). cbn.
    destruct (v >? x); [apply IHl; auto; lia|].
    destruct (v <? x); [apply IHr; auto; lia|]. reflexivity.
Qed.

Lemma find_run h s t x fuel :
  models h s t -> (height t < fuel)%nat ->
  find fuel h s x = Ok (found s (root_of (subtree_of t x))).
Proof.
  unfold models, find. destruct (tree s) as [a|] eqn:E.
  - intros (Ha & Hr) Hf. rewrite (deref_Some _ _ _ Ha). cbn.
    apply find_loop_run; auto.
  - intros -> _. reflexivity.
Qed.

(** ** The neighbours of an element in a search tree *)

Lemma bst_Bin_nodes b tl v tr :
  bst (Bin b tl v tr) ->
  Forall (fun n : loc * Z => n.2 < v) (nodes tl)
  /\ Forall (fun n : loc * Z => v < n.2) (nodes tr).
Proof.
  intros (Fl & Fr & _). split.
  - apply (Forall_nodes_elements (fun y => y < v)), Fl.
  - apply (Forall_nodes_elements (fun y => v < y)), Fr.
Qed.

Section neighbours.
Context (b : loc) (tl : shape) (v : Z) (tr : shape).
Hypothesis Hbst : bst (Bin b tl v tr).

Local Lemma left_nodes_below : Forall (fun n : loc * Z => n.2 < v) (nodes tl).
Proof. apply (bst_Bin_nodes _ _ _ _ Hbst). Qed.
Local Lemma right_nodes_above : Forall (fun n : loc * Z => v < n.2) (nodes tr).
Proof. apply (bst_Bin_nodes _ _ _ _ Hbst). Qed.

Lemma node_above_right x c :
  v <= x -> node_above (Bin b tl v tr) x c = node_above tr x c.
Proof.
  intros Hx. unfold node_above. rewrite nodes_Bin, filter_app.
  rewrite filter_none, filter_cons_False; [reflexivity|simpl; lia|].
  eapply Forall_impl; [exact left_nodes_below|]. simpl. intros; lia.
Qed.

Lemma node_above_left x c :
  x < v -> node_above (Bin b tl v tr) x c = node_above tl x (Some b).
Proof.
  intros Hx. unfold node_above. rewrite nodes_Bin, filter_app.
  rewrite filter_cons_True by (simpl; lia).
  destruct (filter _ (nodes tl)); reflexivity.
Qed.

Lemma node_above_here c :
  node_above tr v c = match leftmost tr with Some m => Some m.1 | None => c end.
Proof.
  unfold node_above. rewrite filter_all by exact right_nodes_above.
  rewrite leftmost_head. destruct (nodes tr); reflexivity.
Qed.

Lemma node_below_left x c :
  x <= v -> node_below (Bin b tl v tr) x c = node_below tl x c.
Proof.
  intros Hx. unfold node_below. rewrite nodes_Bin, filter_app.
  rewrite filter_cons_False by (simpl; lia).
  rewrite (filter_none _ (nodes tr)), app_nil_r; [reflexivity|].
  eapply Forall_impl; [exact right_nodes_above|]. simpl. intros; lia.
Qed.

Lemma node_below_right x c :
  v < x -> node_below (Bin b tl v tr) x c = node_below tr x (Some b).
Proof.
  intros Hx. unfold node_below. rewrite nodes_Bin, filter_app.
  rewrite filter_cons_True by (simpl; lia).
  rewrite last_app_cons. destruct (filter _ (nodes tr)) as [|n k] eqn:E.
  - reflexivity.
  - change (last ((b, v) :: n :: k)) with (last (n :: k)).
    destruct (last (n :: k)) eqn:E2; [reflexivity|].
    apply last_None in E2. discriminate.
Qed.

Lemma node_below_here c :
  node_below tl v c = match rightmost tl with Some m => Some m.1 | None => c end.
Proof.
  unfold node_below. rewrite filter_all by exact left_nodes_below.
  rewrite rightmost_last. reflexivity.
Qed.
End neighbours.

(** The two cases of [bNode::next], read off the shape: the leftmost node of
    the right subtree when there is one, else the last left turn of the
    descent from the root.  Either way it is the node just above [x]. *)
Lemma node_above_cases t x a l r c :
  bst t -> subtree_of t x = Bin a l x r ->
  node_above t x c =
  match leftmost r with
  | Some m => Some m.1
  | None => last_left_turn t x c
  end.
Proof.
  revert c. induction t as [|b tl IHl v tr IHr]; intros c Hb Hs; [discriminate|].
  pose proof Hb as (_ & _ & Bl & Br). simpl in Hs. simpl last_left_turn.
  destruct (Z.gtb_spec v x) as [Hgt|Hgt].
  - rewrite node_above_left by lia.
    destruct (Z.ltb_spec v x); [lia|]. auto.
  - rewrite (node_above_right _ _ _ _ Hb) by lia.
    destruct (Z.ltb_spec v x) as [Hlt|Hlt]; [auto|].
    injection Hs as -> -> -> ->.
    rewrite (node_above_here _ _ _ _ Hb).
    destruct r as [|ra r1 rv r2]; [reflexivity|].
    destruct (leftmost_Bin ra r1 rv r2) as (m & ->). reflexivity.
Qed.

Lemma node_below_cases t x a l r c :
  bst t -> subtree_of t x = Bin a l x r ->
  node_below t x c =
  match rightmost l with
  | Some m => Some m.1
  | None => last_right_turn t x c
  end.
Proof.
  revert c. induction t as [|b tl IHl v tr IHr]; intros c Hb Hs; [discriminate|].
  pose proof Hb as (_ & _ & Bl & Br). simpl in Hs. simpl last_right_turn.
  destruct (Z.gtb_spec v x) as [Hgt|Hgt].
  - rewrite (node_below_left _ _ _ _ Hb) by lia.
    destruct (Z.ltb_spec v x); [lia|]. auto.
  - destruct (Z.ltb_spec v x) as [Hlt|Hlt].
    + rewrite node_below_right by lia. auto.
    + injection Hs as -> -> -> ->.
      rewrite (node_below_left _ _ _ _ Hb) by lia.
      rewrite (node_below_here _ _ _ _ Hb).
      destruct l as [|la l1 lv l2]; [reflexivity|].
      destruct (rightmost_Bin la l1 lv l2) as (m & ->). reflexivity.
Qed.

Lemma height_occurs s t : occurs s t -> (height s <= height t)%nat.
Proof.
  induction t as [|a l IHl v r IHr]; simpl.
  - intros [->|[]]. simpl. lia.
  - intros [->|[H|H]]; simpl; [lia| |].
    + specialize (IHl H). lia.
    + specialize (IHr H). lia.
Qed.

(** ** bNode::next and bNode::prev on a held search tree *)

Lemma next_loop_run h t this x c fuel :
  repr h t -> bst t -> get_value h this = Ok x -> x ∈ elements t ->
  (height t <= fuel)%nat ->
  next_loop fuel h this (root_of t) c = Ok (last_left_turn t x c).
Proof.
  intros Hr Hb Hx. revert c fuel Hr Hb.
  induction t as [|a l IHl v r IHr]; intros c fuel Hr Hb Hin Hf.
  - inversion Hin.
  - destruct fuel as [|fuel]; [simpl in Hf; lia|].
    destruct Hr as (Ha & Hl & Hr). destruct Hb as (Fl & Fr & Bl & Br).
    simpl in Hf. cbn [next_loop root_of last_left_turn].
    rewrite (get_value_Some _ _ _ _ Ha eq_refl), Hx. cbn.
    rewrite (deref_Some _ _ _ Ha). cbn.
    rewrite elements_Bin, elem_of_app, elem_of_cons in Hin.
    rewrite Forall_forall in Fl, Fr.
    destruct (Z.ltb_spec v x) as [Hlt|Hlt].
    + apply IHr; auto; [|lia].
      destruct Hin as [Hin|[->|Hin]]; [specialize (Fl _ Hin)|..]; auto; lia.
    + destruct (Z.gtb_spec v x) as [Hgt|Hgt]; [|reflexivity].
      apply IHl; auto; [|lia].
      destruct Hin as [Hin|[->|Hin]]; [| |specialize (Fr _ Hin)]; auto; lia.
Qed.

Lemma prev_loop_run h t this x c fuel :
  repr h t -> bst t -> get_value h this = Ok x -> x ∈ elements t ->
  (height t <= fuel)%nat ->
  prev_loop fuel h this (root_of t) c = Ok (last_right_turn t x c).
Proof.
  intros Hr Hb Hx. revert c fuel Hr Hb.
  induction t as [|a l IHl v r IHr]; intros c fuel Hr Hb Hin Hf.
  - inversion Hin.
  - destruct fuel as [|fuel]; [simpl in Hf; lia|].
    destruct Hr as (Ha & Hl & Hr). destruct Hb as (Fl & Fr & Bl & Br).
    simpl in Hf. cbn [prev_loop root_of last_right_turn].
    rewrite (get_value_Some _ _ _ _ Ha eq_refl), Hx. cbn.
    rewrite (deref_Some _ _ _ Ha). cbn.
    rewrite elements_Bin, elem_of_app, elem_of_cons in Hin.
    rewrite Forall_forall in Fl, Fr.
    destruct (Z.ltb_spec v x) as [Hlt|Hlt].
    + apply IHr; auto; [|lia].
      destruct Hin as [Hin|[->|Hin]]; [specialize (Fl _ Hin)|..]; auto; lia.
    + destruct (Z.gtb_spec v x) as [Hgt|Hgt]; [|reflexivity].
      apply IHl; auto; [|lia].
      destruct Hin as [Hin|[->|Hin]]; [| |specialize (Fr _ Hin)]; auto; lia.
Qed.

Lemma repr_subtree_node h t a l x r :
  repr h t -> subtree_of t x = Bin a l x r ->
  h !! a = Some (mkNode (root_of l) (root_of r) (Some x))
  /\ repr h l /\ repr h r
  /\ (height l < height t)%nat /\ (height r < height t)%nat.
Proof.
  intros Hr Hs. pose proof (subtree_of_occurs t x) as Ho. rewrite Hs in Ho.
  pose proof (repr_occurs _ _ _ Ho Hr) as (Ha & Hl & Hr1).
  pose proof (height_occurs _ _ Ho) as Hh. simpl in Hh.
  repeat split; auto; lia.
Qed.

Lemma next_run h t a x anchor fuel :
  repr h t -> bst t -> h !! anchor = Some (mkNode (root_of t) None None) ->
  (a, x) ∈ nodes t -> (height t <= fuel)%nat ->
  next fuel h (Some a) (Some anchor) = Ok (node_above t x (Some anchor)).
Proof.
  intros Hr Hb Hanc Hin Hf.
  destruct (subtree_of_present _ _ _ Hb Hin) as (l & r & Hs).
  destruct (repr_subtree_node _ _ _ _ _ _ Hr Hs) as (Ha & Hl & Hr1 & Hhl & Hhr).
  rewrite (node_above_cases _ _ _ _ _ _ Hb Hs).
  unfold next. rewrite (deref_Some _ _ _ Ha). cbn.
  destruct r as [|ra r1 rv r2].
  - cbn. rewrite (deref_Some _ _ _ Hanc). cbn.
    apply next_loop_run; auto.
    + eapply get_value_Some; eauto.
    + eapply elem_of_nodes_elements; eauto.
  - cbn [root_of]. destruct (leftmost_Bin ra r1 rv r2) as (m & Hm). rewrite Hm.
    apply (min_run h (Bin ra r1 rv r2)); auto. lia.
Qed.

Lemma prev_run h t a x anchor fuel :
  repr h t -> bst t -> h !! anchor = Some (mkNode (root_of t) None None) ->
  (a, x) ∈ nodes t -> (height t <= fuel)%nat ->
  prev fuel h (Some a) (Some anchor) = Ok (node_below t x (Some anchor)).
Proof.
  intros Hr Hb Hanc Hin Hf.
  destruct (subtree_of_present _ _ _ Hb Hin) as (l & r & Hs).
  destruct (repr_subtree_node _ _ _ _ _ _ Hr Hs) as (Ha & Hl & Hr1 & Hhl & Hhr).
  rewrite (node_below_cases _ _ _ _ _ _ Hb Hs).
  unfold prev. rewrite (deref_Some _ _ _ Ha). cbn.
  destruct l as [|la l1 lv l2].
  - cbn. rewrite (deref_Some _ _ _ Hanc). cbn.
    apply prev_loop_run; auto.
    + eapply get_value_Some; eauto.
    + eapply elem_of_nodes_elements; eauto.
  - cbn [root_of]. destruct (rightmost_Bin la l1 lv l2) as (m & Hm). rewrite Hm.
    apply (max_run h (Bin la l1 lv l2)); auto. lia.
Qed.

(** Stepping back from the end position: the anchor's left child is the real
    root, so [prev] takes its first branch. *)
Lemma prev_end_run h t anchor m fuel :
  repr h t -> h !! anchor = Some (mkNode (root_of t) None None) ->
  rightmost t = Some m -> (height t <= fuel)%nat ->
  prev fuel h (Some anchor) (Some anchor) = Ok (Some m.1).
Proof.
  intros Hr Hanc Hm Hf. unfold prev. rewrite (deref_Some _ _ _ Hanc). cbn.
  destruct t as [|a l v r]; [discriminate|]. cbn [root_of].
  apply (max_run h (Bin a l v r)); auto.
Qed.

(** ** Path-copying insertion: the shape function *)

Lemma shape_insert_next x n t :
  (n < (shape_insert x n t).2 <= n + height t + 1)%nat.
Proof.
  induction t as [|a l IHl v r IHr]; simpl; [lia|].
  destruct (v <? x).
  - destruct (shape_insert x n r) as [r1 n1]. simpl in *. lia.
  - destruct (shape_insert x n l) as [l1 n1]. simpl in *. lia.
Qed.

Lemma sorted_insert_above x k1 k2 :
  Forall (fun y => y < x) k1 ->
  sorted_insert x (k1 ++ k2) = k1 ++ sorted_insert x k2.
Proof.
  induction 1 as [|y k1 Hy Hk IH]; [reflexivity|].
  simpl. destruct (Z.ltb_spec x y); [lia|]. rewrite IH. reflexivity.
Qed.

Lemma sorted_insert_below x y k1 k2 :
  x < y -> sorted_insert x (k1 ++ y :: k2) = sorted_insert x k1 ++ y :: k2.
Proof.
  intros Hxy. induction k1 as [|z k1 IH]; simpl.
  - destruct (Z.ltb_spec x y); [reflexivity|lia].
  - destruct (x <? z); [reflexivity|]. rewrite IH. reflexivity.
Qed.

Lemma sorted_insert_elem x y k : y ∈ sorted_insert x k <-> y = x \/ y ∈ k.
Proof.
  induction k as [|z k IH]; simpl.
  - rewrite list_elem_of_singleton. rewrite elem_of_nil. tauto.
  - destruct (x <? z); rewrite !elem_of_cons; [tauto|]. rewrite IH. tauto.
Qed.

Lemma sorted_insert_length x k : length (sorted_insert x k) = S (length k).
Proof.
  induction k as [|z k IH]; simpl; [reflexivity|].
  destruct (x <? z); simpl; [reflexivity|]. rewrite IH. reflexivity.
Qed.

Lemma shape_insert_elements x n t :
  bst t -> x ∉ elements t ->
  elements (shape_insert x n t).1 = sorted_insert x (elements t).
Proof.
  induction t as [|a l IHl v r IHr]; simpl; [reflexivity|].
  intros (Fl & Fr & Bl & Br). rewrite !elements_Bin.
  rewrite not_elem_of_app, not_elem_of_cons. intros (Hl & Hne & Hr).
  destruct (Z.ltb_spec v x).
  - specialize (IHr Br Hr).
    destruct (shape_insert x n r) as [r1 n1]. simpl in *.
    rewrite elements_Bin, IHr.
    rewrite sorted_insert_above.
    + simpl. destruct (Z.ltb_spec x v); [lia|]. reflexivity.
    + eapply Forall_impl; [exact Fl|]. simpl. intros; lia.
  - specialize (IHl Bl Hl).
    destruct (shape_insert x n l) as [l1 n1]. simpl in *.
    rewrite elements_Bin, IHl. rewrite sorted_insert_below by lia. reflexivity.
Qed.

Lemma shape_insert_bst x n t :
  bst t -> x ∉ elements t -> bst (shape_insert x n t).1.
Proof.
  induction t as [|a l IHl v r IHr]; simpl.
  - intros _ _. repeat split; constructor.
  - intros (Fl & Fr & Bl & Br). rewrite elements_Bin.
    rewrite not_elem_of_app, not_elem_of_cons. intros (Hl & Hne & Hr).
    destruct (Z.ltb_spec v x).
    + specialize (IHr Br Hr).
      pose proof (shape_insert_elements x n r Br Hr) as He.
      destruct (shape_insert x n r) as [r1 n1]. simpl in *.
      repeat split; auto. rewrite He. apply Forall_forall. intros y Hy.
      apply sorted_insert_elem in Hy as [->|Hy]; [lia|].
      rewrite Forall_forall in Fr. auto.
    + specialize (IHl Bl Hl).
      pose proof (shape_insert_elements x n l Bl Hl) as He.
      destruct (shape_insert x n l) as [l1 n1]. simpl in *.
      repeat split; auto. rewrite He. apply Forall_forall. intros y Hy.
      apply sorted_insert_elem in Hy as [->|Hy]; [lia|].
      rewrite Forall_forall in Fl. auto.
Qed.

(** The search path of the new element is made of the nodes just allocated,
    the leaf first allocated and the root last. *)
Lemma shape_insert_path x n t :
  x ∉ elements t ->
  path (shape_insert x n t).1 x
  = rev (seq n ((shape_insert x n t).2 - n)).
Proof.
  induction t as [|a l IHl v r IHr]; simpl.
  - intros _. destruct (Z.gtb_spec x x); [lia|].
    destruct (Z.ltb_spec x x); [lia|].
    replace (S n - n)%nat with 1%nat by lia. reflexivity.
  - rewrite elements_Bin, not_elem_of_app, not_elem_of_cons.
    intros (Hl & Hne & Hr).
    destruct (Z.ltb_spec v x).
    + specialize (IHr Hr). pose proof (shape_insert_next x n r) as Hn.
      destruct (shape_insert x n r) as [r1 n1]. simpl in *.
      destruct (Z.gtb_spec v x); [lia|]. destruct (Z.ltb_spec v x); [|lia].
      rewrite IHr. replace (S n1 - n)%nat with (S (n1 - n)) by lia.
      rewrite seq_S, rev_app_distr. simpl. f_equal. f_equal. lia.
    + specialize (IHl Hl). pose proof (shape_insert_next x n l) as Hn.
      destruct (shape_insert x n l) as [l1 n1]. simpl in *.
      destruct (Z.gtb_spec v x); [|lia].
      rewrite IHl. replace (S n1 - n)%nat with (S (n1 - n)) by lia.
      rewrite seq_S, rev_app_distr. simpl. f_equal. f_equal. lia.
Qed.

Lemma shape_insert_locs x n t a :
  a ∈ locs (shape_insert x n t).1 ->
  a ∈ locs t \/ (n <= a < (shape_insert x n t).2)%nat.
Proof.
  induction t as [|b l IHl v r IHr]; simpl.
  - unfold locs. simpl. rewrite list_elem_of_singleton. intros ->. right. lia.
  - destruct (v <? x).
    + pose proof (shape_insert_next x n r) as Hn.
      destruct (shape_insert x n r) as [r1 n1]. simpl in *.
      rewrite !locs_Bin, !elem_of_app, !elem_of_cons.
      intros [H|[->|H]]; [auto|right; lia|].
      destruct (IHr H) as [H1|H1]; [auto|right; lia].
    + pose proof (shape_insert_next x n l) as Hn.
      destruct (shape_insert x n l) as [l1 n1]. simpl in *.
      rewrite !locs_Bin, !elem_of_app, !elem_of_cons.
      intros [H|[->|H]]; [|right; lia|auto].
      destruct (IHl H) as [H1|H1]; [auto|right; lia].
Qed.

Lemma shape_insert_leaf x n t :
  x ∉ elements t -> subtree_of (shape_insert x n t).1 x = Bin n Nil x Nil.
Proof.
  induction t as [|a l IHl v r IHr]; simpl.
  - intros _. destruct (Z.gtb_spec x x); [lia|].
    destruct (Z.ltb_spec x x); [lia|]. reflexivity.
  - rewrite elements_Bin, not_elem_of_app, not_elem_of_cons.
    intros (Hl & Hne & Hr).
    destruct (Z.ltb_spec v x).
    + specialize (IHr Hr). destruct (shape_insert x n r) as [r1 n1]. simpl in *.
      destruct (Z.gtb_spec v x); [lia|]. destruct (Z.ltb_spec v x); [auto|lia].
    + specialize (IHl Hl). destruct (shape_insert x n l) as [l1 n1]. simpl in *.
      destruct (Z.gtb_spec v x); [auto|lia].
Qed.

(** ** insert_impl computes the shape function *)

Lemma lookup_snoc_new (h : heap) n : (h ++ [n]) !! length h = Some n.
Proof. apply list_lookup_middle. reflexivity. Qed.

Lemma prefix_snoc (h : heap) n : h `prefix_of` h ++ [n].
Proof. apply prefix_app_r. reflexivity. Qed.

Lemma insert_impl_sound fuel h t x res q r h1 :
  repr h t ->
  insert_impl fuel h (root_of t) x res = Ok (q, r, h1) ->
  q = root_of (shape_insert x (length h) t).1
  /\ r = Some (length h)
  /\ length h1 = (shape_insert x (length h) t).2
  /\ h `prefix_of` h1
  /\ repr h1 (shape_insert x (length h) t).1
  /\ wf_heap h1.
Proof.
  revert t q r h1. induction fuel as [|fuel IH]; intros t q r h1 Hr Hrun.
  - discriminate.
  - destruct t as [|a tl v tr].
    + cbn in Hrun. bind_inv Hrun. destruct a as [a h2].
      apply alloc_Ok in Hrun0 as (-> & -> & Hlt). injection Hrun as <- <- <-.
      simpl. rewrite length_app. simpl.
      repeat split; auto using prefix_snoc, lookup_snoc_new.
      * lia.
      * unfold wf_heap. rewrite length_app. simpl. lia.
    + destruct Hr as (Ha & Hl & Hr).
      cbn [insert_impl root_of] in Hrun.
      rewrite (get_value_Some _ _ _ _ Ha eq_refl) in Hrun. cbn in Hrun.
      rewrite (deref_Some _ _ _ Ha) in Hrun. cbn in Hrun.
      cbn [shape_insert]. destruct (v <? x).
      * bind_inv Hrun. destruct a0 as [[q1 res1] h2].
        destruct (IH _ _ _ _ Hr Hrun0) as (-> & -> & Hlen & Hpre & Hrep & Hwf).
        bind_inv Hrun. destruct a0 as [b h3].
        apply alloc_Ok in Hrun1 as (-> & -> & Hlt). injection Hrun as <- <- <-.
        destruct (shape_insert x (length h) tr) as [r1 n1]. simpl in *. subst n1.
        rewrite length_app. simpl.
        repeat split; auto.
        -- lia.
        -- etransitivity; [exact Hpre|apply prefix_snoc].
        -- apply lookup_snoc_new.
        -- eapply repr_prefix; [|exact Hl].
           etransitivity; [exact Hpre|apply prefix_snoc].
        -- eapply repr_prefix; [apply prefix_snoc|exact Hrep].
        -- unfold wf_heap. rewrite length_app. simpl. lia.
      * bind_inv Hrun. destruct a0 as [[q1 res1] h2].
        destruct (IH _ _ _ _ Hl Hrun0) as (-> & -> & Hlen & Hpre & Hrep & Hwf).
        bind_inv Hrun. destruct a0 as [b h3].
        apply alloc_Ok in Hrun1 as (-> & -> & Hlt). injection Hrun as <- <- <-.
        destruct (shape_insert x (length h) tl) as [l1 n1]. simpl in *. subst n1.
        rewrite length_app. simpl.
        repeat split; auto.
        -- lia.
        -- etransitivity; [exact Hpre|apply prefix_snoc].
        -- apply lookup_snoc_new.
        -- eapply repr_prefix; [apply prefix_snoc|exact Hrep].
        -- eapply repr_prefix; [|exact Hr].
           etransitivity; [exact Hpre|apply prefix_snoc].
        -- unfold wf_heap. rewrite length_app. simpl. lia.
Qed.

Lemma insert_impl_run fuel h t x res :
  repr h t -> (height t < fuel)%nat ->
  Z.of_nat (length h) + Z.of_nat (height t) < max_nodes ->
  exists q r h1, insert_impl fuel h (root_of t) x res = Ok (q, r, h1).
Proof.
  revert t. induction fuel as [|fuel IH]; intros t Hr Hf Hm; [lia|].
  destruct t as [|a tl v tr].
  - cbn. rewrite alloc_run by (simpl in Hm; lia). cbn. eauto.
  - destruct Hr as (Ha & Hl & Hr). simpl in Hf, Hm.
    cbn [insert_impl root_of].
    rewrite (get_value_Some _ _ _ _ Ha eq_refl). cbn.
    rewrite (deref_Some _ _ _ Ha). cbn.
    destruct (v <? x).
    + destruct (IH tr Hr) as (q & r & h1 & E); [lia|lia|].
      rewrite E. cbn.
      destruct (insert_impl_sound _ _ _ _ _ _ _ _ Hr E) as (_ & _ & Hlen & _).
      pose proof (shape_insert_next x (length h) tr).
      rewrite alloc_run by lia. cbn. eauto.
    + destruct (IH tl Hl) as (q & r & h1 & E); [lia|lia|].
      rewrite E. cbn.
      destruct (insert_impl_sound _ _ _ _ _ _ _ _ Hl E) as (_ & _ & Hlen & _).
      pose proof (shape_insert_next x (length h) tl).
      rewrite alloc_run by lia. cbn. eauto.
Qed.

Lemma find_loop_sound fuel h s t x it :
  repr h t -> find_loop fuel h s (root_of t) x = Ok it ->
  it = found s (root_of (subtree_of t x)).
Proof.
  revert t. induction fuel as [|fuel IH]; intros t Hr Hrun; [discriminate|].
  destruct t as [|a l v r].
  - cbn in Hrun. injection Hrun as <-. reflexivity.
  - destruct Hr as (Ha & Hl & Hr).
    cbn [find_loop root_of] in Hrun.
    rewrite (get_value_Some _ _ _ _ Ha eq_refl) in Hrun. cbn in Hrun.
    rewrite (deref_Some _ _ _ Ha) in Hrun. cbn in Hrun.
    cbn [subtree_of].
    destruct (v >? x); [auto|]. destruct (v <? x); [auto|].
    injection Hrun as <-. reflexivity.
Qed.

Lemma find_sound fuel h s t x it :
  models h s t -> find fuel h s x = Ok it ->
  it = found s (root_of (subtree_of t x)).
Proof.
  unfold models, find. destruct (tree s) as [a|] eqn:E.
  - intros (Ha & Hr) Hrun. rewrite (deref_Some _ _ _ Ha) in Hrun. cbn in Hrun.
    eapply find_loop_sound; eauto.
  - intros -> [= <-]. reflexivity.
Qed.

(** A value-bearing node is never the anchor, so [find]'s hit differs from
    [end()]; its miss is [end()]. *)
Lemma found_neq_end h s t x :
  models h s t -> bst t -> x ∈ elements t ->
  iter_neqb (found s (root_of (subtree_of t x))) (end_ s) = true.
Proof.
  intros Hm Hb Hx. apply elem_of_elements_nodes in Hx as (a & Hx).
  destruct (subtree_of_present _ _ _ Hb Hx) as (l & r & E).
  rewrite E. unfold iter_neqb, iter_eqb, end_, found, root_of, _node.
  apply negb_true_iff, ptr_eqb_neq.
  unfold models in Hm. destruct (tree s) as [anchor|]; [|subst t; discriminate].
  destruct Hm as (Hanc & Hr). intros [= <-].
  destruct (repr_lookup _ _ _ _ Hr Hx) as (? & ? & E2). congruence.
Qed.

Lemma found_absent s t x :
  x ∉ elements t -> found s (root_of (subtree_of t x)) = end_ s.
Proof. intros Hx. rewrite subtree_of_absent by exact Hx. reflexivity. Qed.

Lemma iter_neqb_refl it : iter_neqb it it = false.
Proof. unfold iter_neqb, iter_eqb. rewrite ptr_eqb_refl. reflexivity. Qed.

(** ** Handles across a growing store *)

Lemma models_prefix h h1 s t : h `prefix_of` h1 -> models h s t -> models h1 s t.
Proof.
  unfold models. intros Hp. destruct (tree s) as [a|]; [|auto].
  intros (Ha & Hr). split.
  - eapply prefix_lookup_Some; eauto.
  - eapply repr_prefix; eauto.
Qed.

Lemma models_unique h s t t1 : models h s t -> models h s t1 -> t = t1.
Proof.
  unfold models. destruct (tree s) as [a|]; [|congruence].
  intros (Ha & Hr) (Ha1 & Hr1). rewrite Ha in Ha1. injection Ha1 as E.
  eapply repr_unique; eauto.
Qed.

Lemma wf_set_prefix h h1 s t : h `prefix_of` h1 -> wf_set h s t -> wf_set h1 s t.
Proof. intros Hp [Hm Hb Hs]. split; auto. eapply models_prefix; eauto. Qed.

Lemma prefix_update (h h2 : heap) i n :
  h `prefix_of` h2 -> (length h <= i)%nat -> h `prefix_of` <[i := n]> h2.
Proof.
  intros [k ->] Hi. rewrite insert_app_r_alt by exact Hi.
  apply prefix_app_r. reflexivity.
Qed.

Lemma size_incr_small n : 0 <= n -> n + 1 < size_t_modulus -> size_incr n = n + 1.
Proof. intros. unfold size_incr. apply Z.mod_small. lia. Qed.

Lemma size_decr_small n : 0 < n < size_t_modulus -> size_decr n = n - 1.
Proof. intros. unfold size_decr. apply Z.mod_small. lia. Qed.

Lemma max_nodes_lt : max_nodes < size_t_modulus.
Proof. unfold max_nodes, size_t_modulus. lia. Qed.

(** The counter of a well-formed handle in a store within capacity. *)
Lemma elements_lt_modulus h t :
  wf_heap h -> repr h t -> bst t ->
  Z.of_nat (length (elements t)) < size_t_modulus.
Proof.
  intros Hw Hr Hb. pose proof (repr_length_le _ _ Hr Hb).
  pose proof max_nodes_lt. unfold wf_heap in Hw. lia.
Qed.

Lemma tree__sound h s t h0 s0 :
  wf_set h s t -> tree_ h s = Ok (h0, s0) ->
  exists a0, tree s0 = Some a0 /\ wf_set h0 s0 t /\ h `prefix_of` h0
    /\ _size s0 = _size s
    /\ h0 = anchored h s.
Proof.
  intros [Hm Hb Hs]. unfold anchored, tree_, models in *.
  destruct (tree s) as [a|] eqn:E.
  - intros [= <- <-]. exists a. repeat split; auto. unfold models. rewrite E. auto.
  - intros Hrun. bind_inv Hrun. destruct a as [a h1].
    apply alloc_Ok in Hrun0 as (-> & -> & Hlt). injection Hrun as <- <-.
    subst t. exists (length h). cbn.
    split; [reflexivity|]. split; [|auto using prefix_snoc].
    split; auto. unfold models. cbn. split; [apply lookup_snoc_new|exact I].
Qed.

(** ** insert *)

Lemma insert_present_sound fuel h s t x out :
  wf_set h s t -> x ∈ elements t -> insert fuel h s x = Ok out ->
  out = (mkIter (root_of (subtree_of t x)) (tree s), false, h, s).
Proof.
  intros Hwf Hx Hrun. pose proof Hwf as [Hm Hb Hs].
  assert (exists a, tree s = Some a) as (a & Ha).
  { unfold models in Hm. destruct (tree s); [eauto|]. subst t. inversion Hx. }
  unfold insert, tree_ in Hrun. rewrite Ha in Hrun. cbn in Hrun.
  bind_inv Hrun. apply (find_sound _ _ _ _ _ _ Hm) in Hrun0. subst a0.
  rewrite (found_neq_end _ _ _ _ Hm Hb Hx) in Hrun. injection Hrun as <-.
  apply elem_of_elements_nodes in Hx as (b & Hx).
  destruct (subtree_of_present _ _ _ Hb Hx) as (l & r & ->). reflexivity.
Qed.

Lemma insert_absent_sound fuel h s t x it b h3 s1 :
  wf_set h s t -> x ∉ elements t ->
  insert fuel h s x = Ok (it, b, h3, s1) ->
  b = true
  /\ it = mkIter (Some (S (length (anchored h s)))) (tree s1)
  /\ s1 = mkSet (Some (length (anchored h s))) (_size s + 1)
  /\ wf_set h3 s1 (shape_insert x (S (length (anchored h s))) t).1
  /\ h `prefix_of` h3
  /\ wf_heap h3
  /\ length h3 = (shape_insert x (S (length (anchored h s))) t).2.
Proof.
  intros Hwf Hx Hrun. unfold insert in Hrun.
  bind_inv Hrun. destruct a as [h0 s0].
  destruct (tree__sound _ _ _ _ _ Hwf Hrun0) as (a0 & Ha0 & Hwf0 & Hp0 & Hs0 & Eh0).
  rewrite <- Eh0. clear Eh0 Hrun0.
  pose proof Hwf0 as [Hm0 Hb Hsz].
  bind_inv Hrun. apply (find_sound _ _ _ _ _ _ Hm0) in Hrun0. subst a.
  rewrite (found_absent _ _ _ Hx), iter_neqb_refl in Hrun.
  bind_inv Hrun. destruct a as [tmp h1].
  apply alloc_Ok in Hrun0 as (-> & -> & Hlt).
  unfold models in Hm0. rewrite Ha0 in Hm0. destruct Hm0 as (Hanc & Hr).
  rewrite Ha0 in Hrun.
  rewrite (deref_Some _ _ _ (prefix_lookup_Some _ _ _ _ Hanc (prefix_snoc h0 _))) in Hrun.
  cbn [left mbind res_bind] in Hrun.
  bind_inv Hrun. destruct a as [[new_root result] h2].
  pose proof (repr_prefix _ _ _ (prefix_snoc h0 new_bNode) Hr) as Hr1.
  destruct (insert_impl_sound _ _ _ _ _ _ _ _ Hr1 Hrun0)
    as (-> & -> & Hlen & Hp2 & Hr2 & Hwf2).
  rewrite length_app in Hlen, Hrun, Hr2. cbn [length] in Hlen, Hrun, Hr2.
  rewrite Nat.add_1_r in Hlen, Hrun, Hr2.
  bind_inv Hrun. unfold set_left in Hrun1.
  assert (h2 !! length h0 = Some new_bNode) as Htmp.
  { eapply prefix_lookup_Some; [apply lookup_snoc_new|exact Hp2]. }
  rewrite (deref_Some _ _ _ Htmp) in Hrun1. cbn in Hrun1.
  injection Hrun1 as <-. injection Hrun as <- <- <- <-.
  pose proof (shape_insert_next x (S (length h0)) t) as Hnext.
  set (t1 := (shape_insert x (S (length h0)) t).1) in *.
  assert (repr (<[length h0 := mkNode (root_of t1) None None]> h2) t1) as Hr3.
  { apply repr_update; [exact Hr2|]. intros Hin.
    apply shape_insert_locs in Hin as [Hin|Hin]; [|lia].
    pose proof (repr_locs_lt _ _ _ Hr Hin). lia. }
  assert (wf_heap (<[length h0 := mkNode (root_of t1) None None]> h2)) as Hwf3.
  { unfold wf_heap in *. rewrite length_insert. exact Hwf2. }
  assert (bst t1) as Hb1 by (apply shape_insert_bst; auto).
  assert (length (elements t1) = S (length (elements t))) as Hlen1.
  { unfold t1. rewrite shape_insert_elements by auto. apply sorted_insert_length. }
  assert (size_incr (_size s0) = _size s + 1) as Hsize.
  { rewrite Hs0. apply size_incr_small; [rewrite <- Hs0, Hsz; lia|].
    pose proof (elements_lt_modulus _ _ Hwf3 Hr3 Hb1). rewrite <- Hs0, Hsz. lia. }
  rewrite Hsize.
  split; [reflexivity|]. split; [reflexivity|]. split; [reflexivity|].
  split; [|split; [|split]].
  - split; [|exact Hb1|cbn; rewrite Hlen1; rewrite <- Hs0, Hsz; lia].
    unfold models. cbn. split; [|exact Hr3].
    apply list_lookup_insert_eq. rewrite Hlen. lia.
  - etransitivity; [exact Hp0|]. apply prefix_update; [|lia].
    etransitivity; [apply prefix_snoc|exact Hp2].
  - exact Hwf3.
  - rewrite length_insert. exact Hlen.
Qed.

Lemma insert_run fuel h s t x :
  wf_set h s t -> (height t < fuel)%nat ->
  Z.of_nat (length h) + Z.of_nat (height t) + 3 <= max_nodes ->
  exists out, insert fuel h s x = Ok out.
Proof.
  intros Hwf Hf Hmem. unfold insert.
  assert (exists h0 s0, tree_ h s = Ok (h0, s0)) as (h0 & s0 & Et).
  { unfold tree_. destruct (tree s); [eauto|].
    rewrite alloc_run by lia. cbn. eauto. }
  rewrite Et. cbn.
  destruct (tree__sound _ _ _ _ _ Hwf Et) as (a0 & Ha0 & Hwf0 & Hp0 & Hs0 & Eh0).
  pose proof Hwf0 as [Hm0 Hb Hsz].
  rewrite (find_run _ _ _ x _ Hm0 Hf). cbn.
  destruct (decide (x ∈ elements t)) as [Hx|Hx].
  - rewrite (found_neq_end _ _ _ _ Hm0 Hb Hx). eauto.
  - rewrite (found_absent _ _ _ Hx), iter_neqb_refl.
    assert (length h0 <= S (length h))%nat as Hlen0.
    { subst h0. unfold anchored. destruct (tree s); [lia|].
      rewrite length_app. simpl. lia. }
    rewrite alloc_run by lia. cbn.
    unfold models in Hm0. rewrite Ha0 in Hm0. destruct Hm0 as (Hanc & Hr).
    rewrite Ha0.
    rewrite (deref_Some _ _ _ (prefix_lookup_Some _ _ _ _ Hanc (prefix_snoc h0 _))).
    cbn [left mbind res_bind].
    pose proof (repr_prefix _ _ _ (prefix_snoc h0 new_bNode) Hr) as Hr1.
    destruct (insert_impl_run fuel _ t x None Hr1 Hf) as (q & r & h2 & E).
    { rewrite length_app. simpl. lia. }
    rewrite E. cbn.
    destruct (insert_impl_sound _ _ _ _ _ _ _ _ Hr1 E) as (_ & _ & _ & Hp2 & _).
    unfold set_left.
    rewrite (deref_Some _ _ new_bNode
               (prefix_lookup_Some _ _ _ _ (lookup_snoc_new h0 _) Hp2)).
    cbn. eauto.
Qed.

(** ** Path-copying deletion: the shape function *)

Lemma leftmost_nodes t m : leftmost t = Some m -> exists k, nodes t = m :: k.
Proof.
  rewrite leftmost_head. destruct (nodes t) as [|n k]; [discriminate|].
  intros [= ->]. eauto.
Qed.

Lemma bst_head_least t m k :
  bst t -> nodes t = m :: k -> Forall (fun n : loc * Z => m.2 < n.2) k.
Proof.
  intros Hb E. apply bst_sorted in Hb. unfold elements in Hb. rewrite E in Hb.
  rewrite fmap_cons in Hb. apply StronglySorted_inv in Hb as (_ & Hb).
  rewrite Forall_fmap in Hb. exact Hb.
Qed.

Lemma filter_ne_absent (x : Z) (k : list Z) :
  x ∉ k -> filter (fun y => y <> x) k = k.
Proof.
  intros Hx. apply filter_all. apply Forall_forall. intros y Hy ->. auto.
Qed.

Lemma filter_ne_below (x v : Z) (k : list Z) :
  Forall (fun y => y < v) k -> v <= x -> filter (fun y => y <> x) k = k.
Proof.
  intros Hk Hx. apply filter_ne_absent. intros Hin.
  rewrite Forall_forall in Hk. specialize (Hk _ Hin). lia.
Qed.

Lemma filter_ne_above (x v : Z) (k : list Z) :
  Forall (fun y => v < y) k -> x <= v -> filter (fun y => y <> x) k = k.
Proof.
  intros Hk Hx. apply filter_ne_absent. intros Hin.
  rewrite Forall_forall in Hk. specialize (Hk _ Hin). lia.
Qed.

Lemma shape_erase_next p pv n t t1 n1 :
  shape_erase p pv n t = Some (t1, n1) -> (n <= n1 < n + height t)%nat.
Proof.
  revert p pv t1 n1. induction t as [|a l IHl v r IHr]; intros p pv t1 n1.
  - discriminate.
  - cbn [shape_erase height]. destruct (a =? p)%nat.
    + destruct r as [|ra r1 rv r2]; [intros [= <- <-]; lia|].
      destruct l as [|la l1 lv l2]; [intros [= <- <-]; lia|].
      destruct (leftmost (Bin ra r1 rv r2)) as [[m mv]|]; [|discriminate].
      cbn [mbind option_bind].
      destruct (shape_erase m mv n (Bin ra r1 rv r2)) as [[r3 n3]|] eqn:E;
        [|discriminate].
      cbn [mbind option_bind]. intros [= <- <-]. apply IHr in E. lia.
    + destruct (v <? pv).
      * destruct (shape_erase p pv n r) as [[r3 n3]|] eqn:E; [|discriminate].
        cbn [mbind option_bind]. intros [= <- <-]. apply IHr in E. lia.
      * destruct (shape_erase p pv n l) as [[l3 n3]|] eqn:E; [|discriminate].
        cbn [mbind option_bind]. intros [= <- <-]. apply IHl in E. lia.
Qed.

(** The five ways [shape_erase] leaves a node, as in [erase_impl]. *)
Lemma shape_erase_Bin p pv n a l v r t1 n1 :
  shape_erase p pv n (Bin a l v r) = Some (t1, n1) ->
  (a = p /\ r = Nil /\ t1 = l /\ n1 = n)
  \/ (a = p /\ r <> Nil /\ l = Nil /\ t1 = r /\ n1 = n)
  \/ (a = p /\ r <> Nil /\ l <> Nil /\
      exists m mv r1 k, leftmost r = Some (m, mv)
        /\ shape_erase m mv n r = Some (r1, k)
        /\ t1 = Bin k l mv r1 /\ n1 = S k)
  \/ (a <> p /\ v < pv /\
      exists r1 k, shape_erase p pv n r = Some (r1, k)
        /\ t1 = Bin k l v r1 /\ n1 = S k)
  \/ (a <> p /\ pv <= v /\
      exists l1 k, shape_erase p pv n l = Some (l1, k)
        /\ t1 = Bin k l1 v r /\ n1 = S k).
Proof.
  cbn [shape_erase]. destruct (Nat.eqb_spec a p) as [->|Hne].
  - destruct r as [|ra r1 rv r2]; [intros [= <- <-]; auto|].
    destruct l as [|la l1 lv l2].
    { intros [= <- <-]. right. left. repeat split; auto; discriminate. }
    destruct (leftmost (Bin ra r1 rv r2)) as [[m mv]|]; [|discriminate].
    cbn [mbind option_bind].
    destruct (shape_erase m mv n (Bin ra r1 rv r2)) as [[r3 n3]|] eqn:E;
      [|discriminate].
    cbn [mbind option_bind]. intros [= <- <-].
    right. right. left. repeat split; try discriminate. eauto 10.
  - destruct (Z.ltb_spec v pv).
    + destruct (shape_erase p pv n r) as [[r3 n3]|] eqn:E; [|discriminate].
      cbn [mbind option_bind]. intros [= <- <-].
      right. right. right. left. eauto 10.
    + destruct (shape_erase p pv n l) as [[l3 n3]|] eqn:E; [|discriminate].
      cbn [mbind option_bind]. intros [= <- <-].
      right. right. right. right. eauto 10.
Qed.

Lemma shape_erase_length p pv n t t1 n1 :
  shape_erase p pv n t = Some (t1, n1) ->
  length (elements t) = S (length (elements t1)).
Proof.
  revert p pv t1 n1. induction t as [|a l IHl v r IHr]; intros p pv t1 n1 E.
  - discriminate.
  - rewrite elements_Bin, length_app. cbn [length].
    apply shape_erase_Bin in E
      as [(-> & -> & -> & ->)|[(-> & Hr & -> & -> & ->)|[(-> & Hr & Hl & m & mv & r1 & k & Hm & E & -> & ->)
         |[(Hne & Hlt & r1 & k & E & -> & ->)|(Hne & Hlt & l1 & k & E & -> & ->)]]]].
    + cbn. lia.
    + cbn. lia.
    + apply IHr in E. rewrite elements_Bin, length_app. cbn [length]. lia.
    + apply IHr in E. rewrite elements_Bin, length_app. cbn [length]. lia.
    + apply IHl in E. rewrite elements_Bin, length_app. cbn [length]. lia.
Qed.

Lemma shape_erase_locs p pv n t t1 n1 a :
  shape_erase p pv n t = Some (t1, n1) ->
  a ∈ locs t1 -> a ∈ locs t \/ (n <= a < n1)%nat.
Proof.
  revert p pv t1 n1. induction t as [|b l IHl v r IHr]; intros p pv t1 n1 E.
  - discriminate.
  - rewrite locs_Bin, elem_of_app, elem_of_cons.
    pose proof E as E0.
    apply shape_erase_Bin in E
      as [(-> & -> & -> & ->)|[(-> & Hr & -> & -> & ->)|[(-> & Hr & Hl & m & mv & r1 & k & Hm & E & -> & ->)
         |[(Hne & Hlt & r1 & k & E & -> & ->)|(Hne & Hlt & l1 & k & E & -> & ->)]]]].
    + auto.
    + auto.
    + pose proof (shape_erase_next _ _ _ _ _ _ E).
      rewrite locs_Bin, elem_of_app, elem_of_cons. intros [H1|[->|H1]]; [auto|right; lia|].
      destruct (IHr _ _ _ _ E H1); [auto|right; lia].
    + pose proof (shape_erase_next _ _ _ _ _ _ E).
      rewrite locs_Bin, elem_of_app, elem_of_cons. intros [H1|[->|H1]]; [auto|right; lia|].
      destruct (IHr _ _ _ _ E H1); [auto|right; lia].
    + pose proof (shape_erase_next _ _ _ _ _ _ E).
      rewrite locs_Bin, elem_of_app, elem_of_cons. intros [H1|[->|H1]]; [|right; lia|auto].
      destruct (IHl _ _ _ _ E H1); [auto|right; lia].
Qed.

Lemma leftmost_elem t m : leftmost t = Some m -> m ∈ nodes t.
Proof. intros H. apply leftmost_nodes in H as (k & ->). apply elem_of_cons. auto. Qed.

(** Where an element of a search tree sits relative to the root. *)
Lemma bst_side a l v r p pv :
  bst (Bin a l v r) -> (p, pv) ∈ nodes (Bin a l v r) ->
  ((p, pv) ∈ nodes l /\ pv < v) \/ (p = a /\ pv = v) \/ ((p, pv) ∈ nodes r /\ v < pv).
Proof.
  intros (Fl & Fr & _) H. rewrite Forall_forall in Fl, Fr.
  apply elem_of_nodes_Bin in H as [H|[H|H]]; auto.
  - left. split; [auto|]. apply Fl. eapply elem_of_nodes_elements; eauto.
  - right. right. split; [auto|]. apply Fr. eapply elem_of_nodes_elements; eauto.
Qed.

Lemma shape_erase_elements h p pv n t t1 n1 :
  repr h t -> bst t -> (p, pv) ∈ nodes t ->
  shape_erase p pv n t = Some (t1, n1) ->
  elements t1 = filter (fun y => y <> pv) (elements t) /\ bst t1.
Proof.
  revert p pv t1 n1. induction t as [|a l IHl v r IHr];
    intros p pv t1 n1 Hr Hb Hin E; [discriminate|].
  pose proof Hb as (Fl & Fr & Bl & Br). pose proof Hr as (Ha & Hrl & Hrr).
  rewrite elements_Bin, filter_app, filter_cons.
  pose proof (bst_side _ _ _ _ _ _ Hb Hin) as Hside.
  apply shape_erase_Bin in E
    as [(-> & -> & -> & ->)|[(-> & Hrn & -> & -> & ->)|[(-> & Hrn & Hln & m & mv & r1 & k & Hm & E & -> & ->)
       |[(Hne & Hlt & r1 & k & E & -> & ->)|(Hne & Hlt & l1 & k & E & -> & ->)]]]].
  - assert (pv = v) as -> by (destruct Hside as [(H1 & _)|[(_ & H1)|(H1 & _)]];
      [destruct (repr_lookup _ _ _ _ Hr Hin) as (? & ? & E1); congruence|auto|inversion H1]).
    rewrite (filter_ne_below v v (elements l)) by (auto; lia).
    destruct (decide (v <> v)); [congruence|]. cbn. rewrite app_nil_r. auto.
  - assert (pv = v) as -> by (destruct Hside as [(H1 & _)|[(_ & H1)|(H1 & _)]];
      [inversion H1|auto|destruct (repr_lookup _ _ _ _ Hr Hin) as (? & ? & E1); congruence]).
    destruct (decide (v <> v)); [congruence|].
    rewrite (filter_ne_above v v (elements r)) by (auto; lia). cbn. auto.
  - assert (pv = v) as ->.
    { destruct (repr_lookup _ _ _ _ Hr Hin) as (? & ? & E1). congruence. }
    destruct (decide (v <> v)); [congruence|].
    rewrite (filter_ne_below v v (elements l)) by (auto; lia).
    rewrite (filter_ne_above v v (elements r)) by (auto; lia).
    destruct (IHr _ _ _ _ Hrr Br (leftmost_elem _ _ Hm) E) as (He & Hb1).
    destruct (leftmost_nodes _ _ Hm) as (rest & Hn).
    pose proof (bst_head_least _ _ _ Br Hn) as Hleast. cbn in Hleast.
    assert (elements r = mv :: rest.*2) as Her by (unfold elements; rewrite Hn; reflexivity).
    assert (Forall (fun y => mv < y) rest.*2) as Hrest by (rewrite Forall_fmap; exact Hleast).
    assert (elements r1 = rest.*2) as Her1.
    { rewrite He, Her, filter_cons. destruct (decide (mv <> mv)); [congruence|].
      apply (filter_ne_above mv mv); [exact Hrest|lia]. }
    assert (v < mv) as Hvm.
    { rewrite Forall_forall in Fr. apply Fr. rewrite Her. apply elem_of_cons. auto. }
    split.
    + rewrite elements_Bin, Her1, Her. reflexivity.
    + cbn. repeat split; auto.
      * eapply Forall_impl; [exact Fl|]. cbn. intros; lia.
      * rewrite Her1. exact Hrest.
  - assert ((p, pv) ∈ nodes r) as Hinr.
    { destruct Hside as [(_ & H1)|[(H1 & _)|(H1 & _)]]; [lia|congruence|auto]. }
    destruct (IHr _ _ _ _ Hrr Br Hinr E) as (He & Hb1).
    destruct (decide (v <> pv)); [|lia].
    rewrite (filter_ne_below pv v (elements l)) by (auto; lia).
    split; [rewrite elements_Bin, He; reflexivity|].
    cbn. repeat split; auto. rewrite He. apply Forall_forall. intros y Hy.
    apply list_elem_of_filter in Hy as (_ & Hy). rewrite Forall_forall in Fr. auto.
  - assert ((p, pv) ∈ nodes l /\ pv < v) as (Hinl & Hpv).
    { destruct Hside as [H1|[(H1 & _)|(_ & H1)]]; [auto|congruence|lia]. }
    destruct (IHl _ _ _ _ Hrl Bl Hinl E) as (He & Hb1).
    destruct (decide (v <> pv)); [|lia].
    rewrite (filter_ne_above pv v (elements r)) by (auto; lia).
    split; [rewrite elements_Bin, He; reflexivity|].
    cbn. repeat split; auto. rewrite He. apply Forall_forall. intros y Hy.
    apply list_elem_of_filter in Hy as (_ & Hy). rewrite Forall_forall in Fl. auto.
Qed.

(** ** erase_impl computes the shape function *)

Lemma min_sound fuel h t p :
  repr h t -> min fuel h (root_of t) = Ok p ->
  exists m, leftmost t = Some m /\ p = Some m.1.
Proof.
  revert t. induction fuel as [|fuel IH]; intros t Hr Hrun; [discriminate|].
  destruct t as [|a l v r]; [discriminate|].
  destruct Hr as (Ha & Hl & Hr).
  cbn [min root_of] in Hrun. rewrite (deref_Some _ _ _ Ha) in Hrun. cbn in Hrun.
  destruct l as [|la l1 lv l2].
  - cbn in Hrun. injection Hrun as <-. cbn. eauto.
  - apply (IH (Bin la l1 lv l2)) in Hrun; auto.
Qed.

Lemma repr_snoc_Bin h l v r :
  repr h l -> repr h r ->
  repr (h ++ [new_node (root_of l) (root_of r) v]) (Bin (length h) l v r).
Proof.
  intros Hl Hr. cbn. split; [apply lookup_snoc_new|].
  split; eapply repr_prefix; eauto using prefix_snoc.
Qed.

Lemma wf_heap_snoc (h : heap) n :
  Z.of_nat (length h) < max_nodes -> wf_heap (h ++ [n]).
Proof. unfold wf_heap. rewrite length_app. cbn. lia. Qed.

Lemma repr_value h t p pv w :
  repr h t -> (p, pv) ∈ nodes t -> get_value h (Some p) = Ok w -> w = pv.
Proof.
  intros Hr Hin Hg. destruct (repr_lookup _ _ _ _ Hr Hin) as (pl & pr & E).
  rewrite (get_value_Some _ _ _ _ E eq_refl) in Hg. congruence.
Qed.

Lemma erase_impl_sound fuel h t pos2 q h1 :
  wf_heap h -> repr h t ->
  erase_impl fuel h (root_of t) pos2 = Ok (q, h1) ->
  exists p pv t1,
    pos2 = Some p /\ (p, pv) ∈ nodes t
    /\ shape_erase p pv (length h) t = Some (t1, length h1)
    /\ q = root_of t1 /\ repr h1 t1 /\ h `prefix_of` h1 /\ wf_heap h1.
Proof.
  intros Hwf. revert t pos2 q h1.
  induction fuel as [|fuel IH]; intros t pos2 q h1 Hr Hrun; [discriminate|].
  destruct t as [|a l v r].
  - exfalso. cbn in Hrun. destruct pos2; cbn in Hrun; discriminate.
  - pose proof Hr as (Ha & Hl & Hrr).
    cbn [erase_impl root_of] in Hrun.
    destruct (ptr_eqb (Some a) pos2) eqn:Eq.
    + apply ptr_eqb_eq in Eq. subst pos2.
      rewrite (deref_Some _ _ _ Ha) in Hrun. cbn [mbind res_bind right left] in Hrun.
      exists a, v.
      assert ((a, v) ∈ nodes (Bin a l v r)) as Hin
        by (apply elem_of_nodes_Bin; auto).
      cbn [shape_erase]. rewrite Nat.eqb_refl.
      destruct r as [|ra r1 rv r2].
      { cbn in Hrun. injection Hrun as <- <-. exists l.
        split_and!; auto. }
      cbn [root_of] in Hrun.
      destruct l as [|la l1 lv l2].
      { cbn in Hrun. injection Hrun as <- <-. exists (Bin ra r1 rv r2).
        split_and!; auto. }
      cbn [root_of] in Hrun.
      bind_inv Hrun. apply (min_sound _ _ (Bin ra r1 rv r2)) in Hrun0 as (m & Hm & ->);
        [|exact Hrr].
      bind_inv Hrun. destruct a0 as [q1 h2].
      apply (IH (Bin ra r1 rv r2)) in Hrun0
        as (p & pv & r3 & [= <-] & Hin1 & Hse & -> & Hr3 & Hp & Hwf2); [|exact Hrr].
      bind_inv Hrun.
      pose proof (leftmost_elem _ _ Hm) as Hmin. destruct m as [m mv].
      cbn [fst] in *.
      apply (repr_value _ (Bin ra r1 rv r2) _ mv) in Hrun0;
        [|eapply repr_prefix; eauto|exact Hmin]. subst a0.
      assert (pv = mv) as ->.
      { destruct (repr_lookup _ _ _ _ Hrr Hin1) as (? & ? & E1).
        destruct (repr_lookup _ _ _ _ Hrr Hmin) as (? & ? & E2). congruence. }
      bind_inv Hrun. destruct a0 as [b h3].
      apply alloc_Ok in Hrun0 as (-> & -> & Hlt). injection Hrun as <- <-.
      exists (Bin (length h2) (Bin la l1 lv l2) mv r3).
      rewrite Hm. cbn [mbind option_bind]. rewrite Hse. cbn [mbind option_bind].
      rewrite length_app. cbn [length]. rewrite Nat.add_1_r.
      split_and!; auto.
      * apply (repr_snoc_Bin h2 (Bin la l1 lv l2) mv r3); [|exact Hr3].
        eapply repr_prefix; [exact Hp|exact Hl].
      * etransitivity; [exact Hp|apply prefix_snoc].
      * apply wf_heap_snoc, Hlt.
    + apply ptr_eqb_neq in Eq.
      rewrite (get_value_Some _ _ _ _ Ha eq_refl) in Hrun. cbn [mbind res_bind] in Hrun.
      bind_inv Hrun. rename a0 into pv2.
      apply get_value_Ok in Hrun0 as (p & n2 & -> & Hp2 & Hv2).
      rewrite (deref_Some _ _ _ Ha) in Hrun. cbn [mbind res_bind right left] in Hrun.
      assert (a <> p) as Hne by congruence.
      exists p, pv2. cbn [shape_erase].
      destruct (Nat.eqb_spec a p) as [|_]; [congruence|].
      destruct (v <? pv2).
      * bind_inv Hrun. destruct a0 as [q1 h2].
        apply (IH r) in Hrun0
          as (p1 & pv & r3 & [= <-] & Hin1 & Hse & -> & Hr3 & Hp & Hwf2); [|exact Hrr].
        assert (pv = pv2) as ->.
        { destruct (repr_lookup _ _ _ _ Hrr Hin1) as (? & ? & E1).
          rewrite E1 in Hp2. injection Hp2 as <-. cbn in Hv2. congruence. }
        bind_inv Hrun. destruct a0 as [b h3].
        apply alloc_Ok in Hrun0 as (-> & -> & Hlt). injection Hrun as <- <-.
        exists (Bin (length h2) l v r3).
        rewrite Hse. cbn [mbind option_bind].
        rewrite length_app. cbn [length]. rewrite Nat.add_1_r.
        split_and!; auto.
        -- apply elem_of_nodes_Bin. auto.
        -- apply (repr_snoc_Bin h2 l v r3); [|exact Hr3].
           eapply repr_prefix; [exact Hp|exact Hl].
        -- etransitivity; [exact Hp|apply prefix_snoc].
        -- apply wf_heap_snoc, Hlt.
      * bind_inv Hrun. destruct a0 as [q1 h2].
        apply (IH l) in Hrun0
          as (p1 & pv & l3 & [= <-] & Hin1 & Hse & -> & Hr3 & Hp & Hwf2); [|exact Hl].
        assert (pv = pv2) as ->.
        { destruct (repr_lookup _ _ _ _ Hl Hin1) as (? & ? & E1).
          rewrite E1 in Hp2. injection Hp2 as <-. cbn in Hv2. congruence. }
        bind_inv Hrun. destruct a0 as [b h3].
        apply alloc_Ok in Hrun0 as (-> & -> & Hlt). injection Hrun as <- <-.
        exists (Bin (length h2) l3 v r).
        rewrite Hse. cbn [mbind option_bind].
        rewrite length_app. cbn [length]. rewrite Nat.add_1_r.
        split_and!; auto.
        -- apply elem_of_nodes_Bin. auto.
        -- apply (repr_snoc_Bin h2 l3 v r); [exact Hr3|].
           eapply repr_prefix; [exact Hp|exact Hrr].
        -- etransitivity; [exact Hp|apply prefix_snoc].
        -- apply wf_heap_snoc, Hlt.
Qed.

Lemma erase_impl_run fuel h t p pv :
  wf_heap h -> repr h t -> bst t -> (p, pv) ∈ nodes t ->
  (height t < fuel)%nat ->
  Z.of_nat (length h) + Z.of_nat (height t) <= max_nodes ->
  exists q h1, erase_impl fuel h (root_of t) (Some p) = Ok (q, h1).
Proof.
  intros Hwf. revert t p pv.
  induction fuel as [|fuel IH]; intros t p pv Hr Hb Hin Hf Hmem; [lia|].
  destruct t as [|a l v r]; [inversion Hin|].
  pose proof Hr as (Ha & Hl & Hrr). pose proof Hb as (Fl & Fr & Bl & Br).
  cbn [height] in Hf, Hmem. cbn [erase_impl root_of].
  destruct (bst_side _ _ _ _ _ _ Hb Hin) as [(Hinl & Hlt)|[(-> & ->)|(Hinr & Hlt)]].
  - assert (ptr_eqb (Some a) (Some p) = false) as ->.
    { apply ptr_eqb_neq. intros [= ->].
      destruct (repr_lookup _ _ _ _ Hl Hinl) as (? & ? & E). rewrite E in Ha.
      injection Ha as _ _ ->. lia. }
    rewrite (get_value_Some _ _ _ _ Ha eq_refl). cbn [mbind res_bind].
    destruct (repr_lookup _ _ _ _ Hl Hinl) as (? & ? & E).
    rewrite (get_value_Some _ _ _ _ E eq_refl). cbn [mbind res_bind].
    rewrite (deref_Some _ _ _ Ha). cbn [mbind res_bind left right].
    destruct (Z.ltb_spec v pv); [lia|].
    destruct (IH l p pv Hl Bl Hinl) as (q & h1 & Erun); [lia|lia|].
    rewrite Erun. cbn [mbind res_bind].
    destruct (erase_impl_sound _ _ _ _ _ _ Hwf Hl Erun)
      as (? & ? & ? & _ & _ & Hse & _).
    apply shape_erase_next in Hse.
    rewrite alloc_run by lia. cbn. eauto.
  - rewrite ptr_eqb_refl.
    rewrite (deref_Some _ _ _ Ha). cbn [mbind res_bind left right].
    destruct r as [|ra r1 rv r2]; [cbn; eauto|]. cbn [root_of].
    destruct l as [|la l1 lv l2]; [cbn; eauto|]. cbn [root_of].
    destruct (leftmost_Bin ra r1 rv r2) as ([m mv] & Hm).
    assert (min fuel h (Some ra) = Ok (Some m)) as ->
      by (apply (min_run h (Bin ra r1 rv r2) (m, mv)); auto; lia).
    cbn [mbind res_bind fst].
    pose proof (leftmost_elem _ _ Hm) as Hmin.
    destruct (IH (Bin ra r1 rv r2) m mv Hrr Br Hmin) as (q & h1 & Erun); [lia|lia|].
    cbn [root_of] in Erun. rewrite Erun. cbn [mbind res_bind].
    destruct (erase_impl_sound _ _ (Bin ra r1 rv r2) _ _ _ Hwf Hrr Erun)
      as (? & ? & ? & _ & _ & Hse & _ & _ & Hp & _).
    apply shape_erase_next in Hse.
    destruct (repr_lookup _ _ _ _ Hrr Hmin) as (? & ? & E).
    rewrite (get_value_Some _ _ _ _ (prefix_lookup_Some _ _ _ _ E Hp) eq_refl).
    cbn [mbind res_bind].
    rewrite alloc_run by lia. cbn. eauto.
  - assert (ptr_eqb (Some a) (Some p) = false) as ->.
    { apply ptr_eqb_neq. intros [= ->].
      destruct (repr_lookup _ _ _ _ Hrr Hinr) as (? & ? & E). rewrite E in Ha.
      injection Ha as _ _ ->. lia. }
    rewrite (get_value_Some _ _ _ _ Ha eq_refl). cbn [mbind res_bind].
    destruct (repr_lookup _ _ _ _ Hrr Hinr) as (? & ? & E).
    rewrite (get_value_Some _ _ _ _ E eq_refl). cbn [mbind res_bind].
    rewrite (deref_Some _ _ _ Ha). cbn [mbind res_bind left right].
    destruct (Z.ltb_spec v pv); [|lia].
    destruct (IH r p pv Hrr Br Hinr) as (q & h1 & Erun); [lia|lia|].
    rewrite Erun. cbn [mbind res_bind].
    destruct (erase_impl_sound _ _ _ _ _ _ Hwf Hrr Erun)
      as (? & ? & ? & _ & _ & Hse & _).
    apply shape_erase_next in Hse.
    rewrite alloc_run by lia. cbn. eauto.
Qed.

(** ** erase *)

Lemma erase_empty fuel h s it :
  models h s Nil -> erase fuel h s it = Ok (h, s).
Proof.
  unfold models, erase. destruct (tree s) as [a|]; [|reflexivity].
  intros (Ha & _). rewrite (deref_Some _ _ _ Ha). reflexivity.
Qed.

Lemma erase_sound fuel h s t it h3 s1 :
  wf_heap h -> wf_set h s t -> t <> Nil ->
  erase fuel h s it = Ok (h3, s1) ->
  exists p pv t1,
    _node it = Some p /\ (p, pv) ∈ nodes t
    /\ shape_erase p pv (S (length h)) t = Some (t1, length h3)
    /\ s1 = mkSet (Some (length h)) (_size s - 1)
    /\ wf_set h3 s1 t1 /\ h `prefix_of` h3 /\ wf_heap h3.
Proof.
  intros Hwf [Hm Hb Hsz] Hne Hrun. unfold models, erase in *.
  destruct (tree s) as [anchor|]; [|congruence].
  destruct Hm as (Hanc & Hr).
  rewrite (deref_Some _ _ _ Hanc) in Hrun. cbn [mbind res_bind left] in Hrun.
  destruct (root_of t) eqn:Eroot; [|destruct t; [congruence|discriminate]].
  rewrite <- Eroot in Hrun. clear Eroot.
  bind_inv Hrun. destruct a as [tmp h1].
  apply alloc_Ok in Hrun0 as (-> & -> & Hlt).
  bind_inv Hrun. destruct a as [new_root h2].
  pose proof (repr_prefix _ _ _ (prefix_snoc h new_bNode) Hr) as Hr1.
  destruct (erase_impl_sound _ _ _ _ _ _ (wf_heap_snoc _ _ Hlt) Hr1 Hrun0)
    as (p & pv & t1 & Hp & Hin & Hse & -> & Hr2 & Hpre & Hwf2).
  rewrite length_app in Hse. cbn [length] in Hse. rewrite Nat.add_1_r in Hse.
  bind_inv Hrun. unfold set_left in Hrun1.
  assert (h2 !! length h = Some new_bNode) as Htmp.
  { eapply prefix_lookup_Some; [apply lookup_snoc_new|exact Hpre]. }
  rewrite (deref_Some _ _ _ Htmp) in Hrun1. cbn in Hrun1.
  injection Hrun1 as <-. injection Hrun as <- <-.
  rewrite length_insert.
  destruct (shape_erase_elements _ _ _ _ _ _ _ Hr Hb Hin Hse) as (He & Hb1).
  pose proof (shape_erase_length _ _ _ _ _ _ Hse) as Hlen.
  pose proof (shape_erase_next _ _ _ _ _ _ Hse) as Hnext.
  assert (size_decr (_size s) = _size s - 1) as ->.
  { apply size_decr_small. pose proof (elements_lt_modulus _ _ Hwf Hr Hb). lia. }
  exists p, pv, t1. split_and!; auto.
  - split; [|exact Hb1|cbn; lia].
    unfold models. cbn [tree]. split.
    + apply list_lookup_insert_eq. lia.
    + apply repr_update; [exact Hr2|]. intros Hin1.
      apply (shape_erase_locs _ _ _ _ _ _ _ Hse) in Hin1 as [Hin1|Hin1]; [|lia].
      pose proof (repr_locs_lt _ _ _ Hr Hin1). lia.
  - apply prefix_update; [|lia]. etransitivity; [apply prefix_snoc|exact Hpre].
  - unfold wf_heap in *. rewrite length_insert. exact Hwf2.
Qed.

Lemma erase_run fuel h s t it p pv :
  wf_heap h -> wf_set h s t -> _node it = Some p -> (p, pv) ∈ nodes t ->
  (height t < fuel)%nat ->
  Z.of_nat (length h) + Z.of_nat (height t) + 1 <= max_nodes ->
  exists out, erase fuel h s it = Ok out.
Proof.
  intros Hwf [Hm Hb Hsz] Hit Hin Hf Hmem. unfold models, erase in *.
  destruct (tree s) as [anchor|]; [|eauto].
  destruct Hm as (Hanc & Hr).
  rewrite (deref_Some _ _ _ Hanc). cbn [mbind res_bind left].
  destruct (root_of t) eqn:Eroot; [|eauto].
  rewrite <- Eroot. clear Eroot.
  rewrite alloc_run by lia. cbn [mbind res_bind].
  pose proof (repr_prefix _ _ _ (prefix_snoc h new_bNode) Hr) as Hr1.
  assert (wf_heap (h ++ [new_bNode])) as Hwf1 by (apply wf_heap_snoc; lia).
  rewrite Hit.
  destruct (erase_impl_run fuel _ _ _ _ Hwf1 Hr1 Hb Hin Hf) as (q & h2 & Erun).
  { rewrite length_app. cbn [length]. lia. }
  rewrite Erun. cbn [mbind res_bind].
  destruct (erase_impl_sound _ _ _ _ _ _ Hwf1 Hr1 Erun)
    as (? & ? & ? & _ & _ & _ & _ & _ & Hpre & _).
  unfold set_left.
  rewrite (deref_Some _ _ new_bNode
             (prefix_lookup_Some _ _ _ _ (lookup_snoc_new h _) Hpre)).
  cbn. eauto.
Qed.

(** ** Walking a handle *)

Lemma nodes_sorted t :
  bst t -> StronglySorted (fun n m : loc * Z => n.2 < m.2) (nodes t).
Proof.
  intros Hb. apply bst_sorted in Hb. unfold elements in Hb.
  induction (nodes t) as [|n k IH]; [constructor|].
  rewrite fmap_cons in Hb. apply StronglySorted_inv in Hb as (Hk & Hn).
  constructor; [auto|]. rewrite Forall_fmap in Hn. exact Hn.
Qed.

(** In a search tree the node above [x] is the one that follows it in
    order. *)
Lemma node_above_split t k1 a x k2 c :
  bst t -> nodes t = k1 ++ (a, x) :: k2 ->
  node_above t x c = match k2 with [] => c | n :: _ => Some n.1 end.
Proof.
  intros Hb E. apply nodes_sorted in Hb. rewrite E in Hb.
  apply StronglySorted_app in Hb as (H12 & _ & H2).
  apply StronglySorted_inv in H2 as (_ & H2).
  unfold node_above. rewrite E, filter_app, filter_cons_False by (cbn; lia).
  rewrite filter_none, filter_all; [reflexivity|exact H2|].
  apply Forall_forall. intros n Hn.
  specialize (H12 n (a, x) Hn). cbn in H12.
  assert (n.2 < x) by (apply H12, elem_of_cons; auto). lia.
Qed.

Lemma begin_run fuel h s t :
  models h s t -> (height t < fuel)%nat ->
  begin fuel h s
  = Ok (match leftmost t with
        | Some m => mkIter (Some m.1) (tree s)
        | None => end_ s
        end).
Proof.
  unfold models, begin. destruct (tree s) as [anchor|] eqn:E.
  - intros (Hanc & Hr) Hf. rewrite (deref_Some _ _ _ Hanc). cbn [mbind res_bind left].
    destruct t as [|a l v r]; [reflexivity|]. cbn [root_of].
    destruct fuel as [|fuel]; [lia|].
    cbn [min]. rewrite (deref_Some _ _ _ Hanc). cbn [mbind res_bind left root_of].
    destruct (leftmost_Bin a l v r) as (m & Hm). rewrite Hm.
    assert (min fuel h (Some a) = Ok (Some m.1)) as ->
      by (apply (min_run h (Bin a l v r)); auto; lia).
    reflexivity.
  - intros -> _. reflexivity.
Qed.

Lemma walk_run h t anchor k1 k2 fuel :
  repr h t -> bst t -> h !! anchor = Some (mkNode (root_of t) None None) ->
  nodes t = k1 ++ k2 -> (length k2 + height t < fuel)%nat ->
  walk fuel h
    (mkIter (match k2 with [] => Some anchor | n :: _ => Some n.1 end) (Some anchor))
    (mkIter (Some anchor) (Some anchor))
  = Ok k2.*2.
Proof.
  intros Hr Hb Hanc. revert k1 fuel.
  induction k2 as [|[a x] k2 IH]; intros k1 fuel E Hf.
  - destruct fuel as [|fuel]; [lia|]. cbn [walk].
    rewrite iter_neqb_refl. reflexivity.
  - destruct fuel as [|fuel]; [cbn in Hf; lia|]. cbn [walk fst].
    assert ((a, x) ∈ nodes t) as Hin.
    { rewrite E. apply elem_of_app. right. apply elem_of_cons. auto. }
    destruct (repr_lookup _ _ _ _ Hr Hin) as (pl & pr & Ea).
    assert (iter_neqb (mkIter (Some a) (Some anchor))
              (mkIter (Some anchor) (Some anchor)) = true) as ->.
    { unfold iter_neqb, iter_eqb. cbn [_node].
      apply negb_true_iff, ptr_eqb_neq. congruence. }
    unfold iter_get, iter_incr. cbn [_node root].
    rewrite (get_value_Some _ _ _ _ Ea eq_refl). cbn [mbind res_bind].
    rewrite (next_run h t a x anchor (S fuel) Hr Hb Hanc Hin) by (cbn in Hf; lia).
    cbn [mbind res_bind].
    rewrite (node_above_split _ _ _ _ _ _ Hb E).
    rewrite (IH (k1 ++ [(a, x)]) fuel).
    + reflexivity.
    + rewrite <- app_assoc. exact E.
    + cbn in Hf. lia.
Qed.

Lemma traverse_run fuel h s t :
  wf_set h s t -> (length (elements t) + height t < fuel)%nat ->
  traverse fuel h s = Ok (elements t).
Proof.
  intros [Hm Hb _] Hf. unfold traverse.
  rewrite (begin_run _ _ _ _ Hm) by lia. cbn [mbind res_bind].
  unfold models in Hm. destruct (tree s) as [anchor|] eqn:E.
  - destruct Hm as (Hanc & Hr).
    pose proof (walk_run h t anchor [] (nodes t) fuel Hr Hb Hanc eq_refl) as Hw.
    unfold elements in *. rewrite length_fmap in Hf. specialize (Hw Hf).
    rewrite leftmost_head. unfold end_. rewrite E.
    destruct (nodes t) as [|n k]; exact Hw.
  - subst t. unfold end_. rewrite E. destruct fuel; [lia|]. reflexivity.
Qed.

(** ** Every reachable program state is well formed *)

Lemma elem_of_insert_inv {A} (l : list A) i x y :
  y ∈ <[i := x]> l -> y = x \/ y ∈ l.
Proof.
  intros H. apply list_elem_of_lookup in H as (j & Hj).
  apply list_lookup_insert_Some in Hj as [(_ & -> & _)|(_ & Hj)]; [auto|].
  right. eapply list_elem_of_lookup_2; eauto.
Qed.

Lemma wf_set_new h : wf_set h new_set Nil.
Proof. split; cbn; auto. Qed.

Lemma wf_set_copy h s t : wf_set h s t -> wf_set h (copy_set s) t.
Proof. intros [Hm Hb Hs]. split; auto. Qed.

Lemma wf_set_Nil_inv h s : wf_set h s Nil -> models h s Nil.
Proof. intros [Hm _ _]. exact Hm. Qed.

(** What [insert] does to a well-formed handle, whatever the fuel. *)
Lemma insert_wf fuel h s t x it b h1 s1 :
  wf_heap h -> wf_set h s t -> insert fuel h s x = Ok (it, b, h1, s1) ->
  h `prefix_of` h1 /\ wf_heap h1 /\ exists t1, wf_set h1 s1 t1.
Proof.
  intros Hwf Hs Hrun. destruct (decide (x ∈ elements t)) as [Hx|Hx].
  - apply (insert_present_sound _ _ _ _ _ _ Hs Hx) in Hrun.
    injection Hrun as _ _ <- <-. eauto.
  - apply (insert_absent_sound _ _ _ _ _ _ _ _ _ Hs Hx) in Hrun
      as (_ & _ & _ & Hs1 & Hp & Hwf1 & _). eauto.
Qed.

Lemma erase_wf fuel h s t it h1 s1 :
  wf_heap h -> wf_set h s t -> erase fuel h s it = Ok (h1, s1) ->
  h `prefix_of` h1 /\ wf_heap h1 /\ exists t1, wf_set h1 s1 t1.
Proof.
  intros Hwf Hs Hrun. destruct t as [|a l v r].
  - rewrite (erase_empty _ _ _ _ (wf_set_Nil_inv _ _ Hs)) in Hrun.
    injection Hrun as <- <-. eauto.
  - apply (erase_sound _ _ _ _ _ _ _ Hwf Hs) in Hrun
      as (p & pv & t1 & _ & _ & _ & _ & Hs1 & Hp & Hwf1); [eauto|discriminate].
Qed.

Lemma step_wf w o w1 : wf_world w -> step w o w1 -> wf_world w1.
Proof.
  intros (Hwf & Hall) Hstep.
  assert (forall i s, handles w !! i = Some s -> exists t, wf_set (store w) s t) as Hi.
  { intros i s H. apply Hall. eapply list_elem_of_lookup_2; eauto. }
  destruct Hstep; cbn in *.
  - split; [exact Hwf|]. intros s Hs.
    apply elem_of_app in Hs as [Hs|Hs]; [auto|].
    apply list_elem_of_singleton in Hs as ->. exists Nil. apply wf_set_new.
  - split; [exact Hwf|]. intros s0 Hs.
    apply elem_of_app in Hs as [Hs|Hs]; [auto|].
    apply list_elem_of_singleton in Hs as ->.
    destruct (Hi _ _ H) as (t & Ht). exists t. apply wf_set_copy, Ht.
  - split; [exact Hwf|]. intros s0 Hs.
    destruct (Hi _ _ H0) as (t2 & Ht2).
    apply elem_of_insert_inv in Hs as [->|Hs]; [|auto].
    exists t2. apply wf_set_copy, Ht2.
  - split; [exact Hwf|]. intros s0 Hs.
    apply elem_of_insert_inv in Hs as [->|Hs]; [|auto].
    exists Nil. apply wf_set_new.
  - split; [exact Hwf|]. intros s0 Hs.
    destruct (Hi _ _ H) as (t1 & Ht1). destruct (Hi _ _ H0) as (t2 & Ht2).
    apply elem_of_insert_inv in Hs as [->|Hs];
      [exists t1; apply wf_set_copy, Ht1|].
    apply elem_of_insert_inv in Hs as [->|Hs];
      [exists t2; apply wf_set_copy, Ht2|auto].
  - destruct (Hi _ _ H) as (t & Ht).
    destruct (insert_wf _ _ _ _ _ _ _ _ _ Hwf Ht H0) as (Hp & Hwf1 & t1 & Ht1).
    split; [exact Hwf1|]. intros s0 Hs.
    apply elem_of_insert_inv in Hs as [->|Hs]; [eauto|].
    destruct (Hall _ Hs) as (t0 & Ht0). exists t0. eapply wf_set_prefix; eauto.
  - destruct (Hi _ _ H) as (t & Ht).
    destruct (erase_wf _ _ _ _ _ _ _ Hwf Ht H0) as (Hp & Hwf1 & t1 & Ht1).
    split; [exact Hwf1|]. intros s0 Hs.
    apply elem_of_insert_inv in Hs as [->|Hs]; [eauto|].
    destruct (Hall _ Hs) as (t0 & Ht0). exists t0. eapply wf_set_prefix; eauto.
Qed.

Lemma reachable_wf w : reachable w -> wf_world w.
Proof.
  induction 1 as [|w o w1 Hr IH Hs].
  - split; [unfold wf_heap, max_nodes; cbn; lia|].
    intros s Hs. inversion Hs.
  - eapply step_wf; eauto.
Qed.

(** ** The concrete state is well formed *)

Lemma sample_wf_heap : wf_heap sample_store.
Proof. unfold wf_heap, max_nodes. cbn. lia. Qed.

Lemma sample_wf_set : wf_set sample_store sample_set sample_shape.
Proof.
  split.
  - cbn. repeat split.
  - cbn. repeat split; repeat constructor.
  - reflexivity.
Qed.

Lemma reachable_insert w i s v fuel it b h1 s1 w1 :
  reachable w -> handles w !! i = Some s ->
  insert fuel (store w) s v = Ok (it, b, h1, s1) ->
  w1 = mkWorld h1 (<[i := s1]> (handles w)) -> reachable w1.
Proof.
  intros Hr Hi Hrun ->. eapply reach_step; [exact Hr|].
  eapply step_insert; eauto.
Qed.

Lemma sample_reachable : reachable sample_world.
Proof.
  assert (reachable (mkWorld [] [new_set])) as H1.
  { apply (reach_step initial OpNew); [apply reach_init|apply step_new]. }
  assert (reachable (mkWorld [new_bNode; mkNode (Some 2%nat) None None; new_leaf 3]
                       [mkSet (Some 1%nat) 1])) as H2.
  { eapply (reachable_insert _ 0%nat new_set 3 5%nat); [exact H1| | |];
      reflexivity. }
  assert (reachable (mkWorld (store sample_world) [mkSet (Some 3%nat) 2])) as H3.
  { eapply (reachable_insert _ 0%nat (mkSet (Some 1%nat) 1) 1 5%nat);
      [exact H2| | |]; reflexivity. }
  apply (reach_step _ (OpCopy 0%nat) _ H3).
  exact (step_copy (mkWorld (store sample_world) [mkSet (Some 3%nat) 2])
           0%nat (mkSet (Some 3%nat) 2) eq_refl).
Qed.

(** ** The scenario of the specification, run on the model

    Starting empty, insert 5, 3, 8, 1, 4; then erase the node holding 5,
    which has two children.  A copy taken before the erasure still walks the
    five elements. *)

Example scenario_insert :
  ('(h, s) ← insert_all 8 [5; 3; 8; 1; 4] ([], new_set); traverse 8 h s)
  = Ok [1; 3; 4; 5; 8].
Proof. reflexivity. Qed.

Example scenario_erase :
  ('(h, s) ← insert_all 8 [5; 3; 8; 1; 4] ([], new_set);
   let old := copy_set s in
   it ← find 8 h s 5;
   '(h1, s1) ← erase 8 h s it;
   now ← traverse 8 h1 s1;
   before ← traverse 8 h1 old;
   Ok (now, _size s1, before, _size old))
  = Ok ([1; 3; 4; 8], 4, [1; 3; 4; 5; 8], 5).
Proof. reflexivity. Qed.

Example scenario_round_trip :
  ('(h, s) ← insert_all 8 [5; 3; 8] ([], new_set);
   '(it, fresh, h1, s1) ← insert 8 h s 4;
   '(h2, s2) ← erase 8 h1 s1 it;
   it2 ← find 8 h2 s2 4;
   Ok (fresh, _size s, _size s1, _size s2, iter_eqb it2 (end_ s2)))
  = Ok (true, 3, 4, 3, true).
Proof. reflexivity. Qed.

(** ** Further facts the claims rest on *)

Lemma node_above_least t x c :
  bst t ->
  (node_above t x c = c /\ Forall (fun y => y <= x) (elements t))
  \/ (exists b y, node_above t x c = Some b /\ (b, y) ∈ nodes t /\ x < y
        /\ Forall (fun z => x < z -> y <= z) (elements t)).
Proof.
  intros Hb. apply nodes_sorted in Hb. unfold node_above.
  destruct (filter (fun n : loc * Z => x < n.2) (nodes t)) as [|[b y] k] eqn:E.
  - left. split; [reflexivity|]. apply Forall_nodes_elements, Forall_forall.
    intros n Hn. destruct (Z.le_gt_cases n.2 x) as [|Hgt]; [auto|].
    assert (n ∈ filter (fun n : loc * Z => x < n.2) (nodes t)) as Hf
      by (apply list_elem_of_filter; split; [lia|auto]).
    rewrite E in Hf. inversion Hf.
  - right. exists b, y.
    assert (head (filter (fun n : loc * Z => x < n.2) (nodes t)) = Some (b, y)) as Hh
      by (rewrite E; reflexivity).
    apply head_filter_Some in Hh as (k1 & k2 & Hn & Hk1).
    assert ((b, y) ∈ filter (fun n : loc * Z => x < n.2) (nodes t)) as Hf
      by (rewrite E; apply elem_of_cons; auto).
    apply list_elem_of_filter in Hf as (Hxy & Hin). cbn in Hxy.
    split_and!; auto.
    rewrite Hn in Hb. apply StronglySorted_app in Hb as (_ & _ & H2).
    apply StronglySorted_inv in H2 as (_ & H2).
    apply Forall_nodes_elements. rewrite Hn. apply Forall_app. split.
    + eapply Forall_impl; [exact Hk1|]. cbn. intros; lia.
    + constructor; [cbn; lia|].
      eapply Forall_impl; [exact H2|]. cbn. intros; lia.
Qed.

Lemma node_below_greatest t x c :
  bst t ->
  (node_below t x c = c /\ Forall (fun y => x <= y) (elements t))
  \/ (exists b y, node_below t x c = Some b /\ (b, y) ∈ nodes t /\ y < x
        /\ Forall (fun z => z < x -> z <= y) (elements t)).
Proof.
  intros Hb. apply nodes_sorted in Hb. unfold node_below.
  destruct (last (filter (fun n : loc * Z => n.2 < x) (nodes t))) as [[b y]|] eqn:E.
  - right. exists b, y.
    pose proof E as Hh. apply last_filter_Some in Hh as (k1 & k2 & Hn & Hk2).
    assert ((b, y) ∈ filter (fun n : loc * Z => n.2 < x) (nodes t)) as Hf.
    { apply last_Some in E as (k & ->). apply elem_of_app. right.
      apply elem_of_cons. auto. }
    apply list_elem_of_filter in Hf as (Hxy & Hin). cbn in Hxy.
    split_and!; auto.
    rewrite Hn in Hb. apply StronglySorted_app in Hb as (H12 & _ & _).
    apply Forall_nodes_elements. rewrite Hn. apply Forall_app. split.
    + apply Forall_forall. intros n Hin1 _.
      specialize (H12 n (b, y) Hin1). cbn in H12.
      assert (n.2 < y) by (apply H12, elem_of_cons; auto). lia.
    + constructor; [cbn; lia|].
      eapply Forall_impl; [exact Hk2|]. cbn. intros; lia.
  - left. split; [reflexivity|]. apply Forall_nodes_elements, Forall_forall.
    intros n Hn. destruct (Z.le_gt_cases x n.2) as [|Hgt]; [auto|].
    assert (n ∈ filter (fun n : loc * Z => n.2 < x) (nodes t)) as Hf
      by (apply list_elem_of_filter; split; [lia|auto]).
    apply last_None in E. rewrite E in Hf. inversion Hf.
Qed.

Lemma leftmost_least t m :
  bst t -> leftmost t = Some m -> Forall (fun y => m.2 <= y) (elements t).
Proof.
  intros Hb Hm. destruct (leftmost_nodes _ _ Hm) as (k & Hn).
  pose proof (bst_head_least _ _ _ Hb Hn) as Hk.
  apply Forall_nodes_elements. rewrite Hn. constructor; [lia|].
  eapply Forall_impl; [exact Hk|]. cbn. intros; lia.
Qed.

Lemma rightmost_greatest t m :
  bst t -> rightmost t = Some m -> Forall (fun y => y <= m.2) (elements t).
Proof.
  intros Hb Hm. rewrite rightmost_last in Hm. apply last_Some in Hm as (k & Hn).
  apply nodes_sorted in Hb. rewrite Hn in Hb.
  apply StronglySorted_app in Hb as (H12 & _ & _).
  apply Forall_nodes_elements. rewrite Hn. apply Forall_app. split.
  - apply Forall_forall. intros n Hin. specialize (H12 n m Hin).
    assert (n.2 < m.2) by (apply H12, list_elem_of_singleton; auto). lia.
  - constructor; [lia|constructor].
Qed.

Lemma empty_iff_Nil h s t : wf_set h s t -> (empty s = true <-> t = Nil).
Proof.
  intros [_ _ Hs]. unfold empty. rewrite Z.eqb_eq, Hs.
  destruct t as [|a l v r]; [cbn; tauto|].
  rewrite elements_Bin, length_app. cbn [length]. split; [lia|discriminate].
Qed.

Lemma shape_insert_height x n t :
  (height (shape_insert x n t).1 <= S (height t))%nat.
Proof.
  induction t as [|a l IHl v r IHr]; simpl; [lia|].
  destruct (v <? x).
  - destruct (shape_insert x n r) as [r1 n1]. simpl in *. lia.
  - destruct (shape_insert x n l) as [l1 n1]. simpl in *. lia.
Qed.

Lemma insert_present_run fuel h s t x :
  wf_set h s t -> x ∈ elements t -> (height t < fuel)%nat ->
  insert fuel h s x
  = Ok (mkIter (root_of (subtree_of t x)) (tree s), false, h, s).
Proof.
  intros Hwf Hx Hf. pose proof Hwf as [Hm Hb _].
  assert (exists a, tree s = Some a) as (a & Ha).
  { unfold models in Hm. destruct (tree s); [eauto|]. subst t. inversion Hx. }
  assert (insert fuel h s x
          = Ok (found s (root_of (subtree_of t x)), false, h, s)) as ->.
  { unfold insert, tree_. rewrite Ha. cbn [mbind res_bind].
    rewrite (find_run _ _ _ x _ Hm Hf). cbn [mbind res_bind].
    rewrite (found_neq_end _ _ _ _ Hm Hb Hx). reflexivity. }
  apply elem_of_elements_nodes in Hx as (b & Hx).
  destruct (subtree_of_present _ _ _ Hb Hx) as (l & r & ->). reflexivity.
Qed.

Lemma occurs_nodes s t n : occurs s t -> n ∈ nodes s -> n ∈ nodes t.
Proof.
  induction t as [|a l IHl v r IHr]; simpl.
  - intros [->|[]]. auto.
  - intros [->|[H|H]] Hn; [auto| |]; rewrite elem_of_app, elem_of_cons; auto.
Qed.

(** The node that replaces an erased node with two children. *)
Lemma shape_erase_replacement h p v n t t1 n1 l r :
  repr h t -> bst t -> shape_erase p v n t = Some (t1, n1) ->
  subtree_of t v = Bin p l v r -> l <> Nil -> r <> Nil ->
  exists m mv r1 b,
    leftmost r = Some (m, mv) /\ shape_erase m mv n r = Some (r1, b)
    /\ subtree_of t1 mv = Bin b l mv r1 /\ (n <= b < n1)%nat.
Proof.
  revert t1 n1. induction t as [|a tl IHl w tr IHr];
    intros t1 n1 Hr Hb Hse Hs Hl Hrn; [discriminate|].
  pose proof Hr as (Ha & Hrl & Hrr). pose proof Hb as (Fl & Fr & Bl & Br).
  pose proof (subtree_of_elem _ _ _ _ _ Hs) as Hin.
  pose proof (bst_side _ _ _ _ _ _ Hb Hin) as Hside.
  rewrite Forall_forall in Fl, Fr.
  assert (forall m mv, leftmost r = Some (m, mv) ->
            (m, mv) ∈ nodes (Bin a tl w tr) /\ v < mv) as Hmv.
  { intros m mv Hm. pose proof (subtree_of_occurs (Bin a tl w tr) v) as Ho.
    rewrite Hs in Ho. pose proof (bst_occurs _ _ Ho Hb) as (_ & Frr & _).
    pose proof (leftmost_elem _ _ Hm) as Hmin. split.
    - apply (occurs_nodes _ _ _ Ho), elem_of_nodes_Bin. auto.
    - rewrite Forall_forall in Frr. apply Frr.
      eapply elem_of_nodes_elements; eauto. }
  cbn [subtree_of] in Hs.
  apply shape_erase_Bin in Hse
    as [(-> & -> & -> & ->)|[(-> & Hrn1 & -> & -> & ->)|[(-> & Hrn1 & Hln1 & m & mv & r1 & k & Hm & E & -> & ->)
       |[(Hne & Hlt & r1 & k & E & -> & ->)|(Hne & Hlt & l1 & k & E & -> & ->)]]]].
  - exfalso. destruct Hside as [(H1 & H2)|[(_ & ->)|(H1 & _)]]; [|  |inversion H1].
    + destruct (repr_lookup _ _ _ _ Hrl H1) as (? & ? & E1). rewrite E1 in Ha.
      injection Ha as _ _ ->. lia.
    + destruct (Z.gtb_spec w w); [lia|]. destruct (Z.ltb_spec w w); [lia|].
      injection Hs as <- <-. congruence.
  - exfalso. destruct Hside as [(H1 & H2)|[(_ & ->)|(H1 & H2)]]; [inversion H1| |].
    + destruct (Z.gtb_spec w w); [lia|]. destruct (Z.ltb_spec w w); [lia|].
      injection Hs as <- <-. congruence.
    + destruct (repr_lookup _ _ _ _ Hrr H1) as (? & ? & E1). rewrite E1 in Ha.
      injection Ha as _ _ ->. lia.
  - assert (v = w) as ->.
    { destruct (repr_lookup _ _ _ _ Hr Hin) as (? & ? & E1). rewrite E1 in Ha.
      injection Ha as _ _ ->. reflexivity. }
    destruct (Z.gtb_spec w w); [lia|]. destruct (Z.ltb_spec w w); [lia|].
    injection Hs as <- <-.
    exists m, mv, r1, k. pose proof (shape_erase_next _ _ _ _ _ _ E).
    split; [exact Hm|]. split; [exact E|]. split; [|lia]. cbn [subtree_of].
    destruct (Z.gtb_spec mv mv); [lia|]. destruct (Z.ltb_spec mv mv); [lia|].
    reflexivity.
  - assert (w < v) as Hwv.
    { destruct Hside as [(H1 & H2)|[(H1 & _)|(_ & H2)]]; [lia|congruence|lia]. }
    destruct (Z.gtb_spec w v); [lia|]. destruct (Z.ltb_spec w v); [|lia].
    destruct (IHr _ _ Hrr Br E Hs Hl Hrn) as (m & mv & r2 & b & Hm & E2 & Hs2 & Hb2).
    exists m, mv, r2, b. split; [exact Hm|]. split; [exact E2|]. split; [|lia].
    destruct (Hmv _ _ Hm) as (_ & Hvm). cbn [subtree_of].
    destruct (Z.gtb_spec w mv); [lia|]. destruct (Z.ltb_spec w mv); [auto|lia].
  - assert ((p, v) ∈ nodes tl /\ v < w) as (Hinl & Hvw).
    { destruct Hside as [H1|[(H1 & _)|(_ & H2)]]; [auto|congruence|lia]. }
    destruct (Z.gtb_spec w v); [|lia].
    destruct (IHl _ _ Hrl Bl E Hs Hl Hrn) as (m & mv & r2 & b & Hm & E2 & Hs2 & Hb2).
    exists m, mv, r2, b. split; [exact Hm|]. split; [exact E2|]. split; [|lia].
    assert (mv ∈ elements tl) as Hmtl.
    { pose proof (subtree_of_occurs tl v) as Ho. rewrite Hs in Ho.
      apply (elem_of_nodes_elements m). apply (occurs_nodes _ _ _ Ho).
      apply elem_of_nodes_Bin. right. right. apply leftmost_elem, Hm. }
    specialize (Fl _ Hmtl). cbn [subtree_of].
    destruct (Z.gtb_spec w mv); [auto|lia].
Qed.

Lemma elem_of_rev {A} (x : A) (l : list A) : x ∈ rev l <-> x ∈ l.
Proof. rewrite !list_elem_of_In. symmetry. apply in_rev. Qed.

Lemma shape_insert_shared x n t u a :
  x ∉ elements t -> occurs u (shape_insert x n t).1 -> root_of u = Some a ->
  a ∉ path (shape_insert x n t).1 x -> occurs u t.
Proof.
  induction t as [|b l IHl v r IHr]; simpl.
  - intros _ [->|[[->|[]]|[->|[]]]]; try discriminate.
    cbn. intros [= <-]. destruct (Z.gtb_spec x x); [lia|].
    destruct (Z.ltb_spec x x); [lia|]. rewrite list_elem_of_singleton. congruence.
  - rewrite elements_Bin, not_elem_of_app, not_elem_of_cons.
    intros (Hl & Hne & Hr).
    destruct (Z.ltb_spec v x).
    + destruct (shape_insert x n r) as [r1 n1]. simpl in *.
      destruct (Z.gtb_spec v x); [lia|]. destruct (Z.ltb_spec v x); [|lia].
      rewrite not_elem_of_cons.
      intros [->|[Ho|Ho]] Hu (Hn1 & Hp); [cbn in Hu; congruence|auto|].
      right. right. apply IHr; auto.
    + destruct (shape_insert x n l) as [l1 n1]. simpl in *.
      destruct (Z.gtb_spec v x); [|lia].
      rewrite not_elem_of_cons.
      intros [->|[Ho|Ho]] Hu (Hn1 & Hp); [cbn in Hu; congruence| |auto].
      right. left. apply IHl; auto.
Qed.

(** * The claims *)

(** C1. Persistence.  Let [B] be a copy of a well-formed handle [A] and [x]
    a value that is not an element.  After [A.insert(x)] (with fuel and room
    for it), [B.find(x)] is [B.end()], walking [B] from [begin()] to [end()]
    gives the same elements as before the insertion, and walking [A] gives
    those elements with [x] at its place in ascending order. *)
Theorem persistence (h : heap) (A : persistent_set) (t : shape) (x : Z)
    (fuel : nat) :
  wf_set h A t -> x ∉ elements t ->
  (length (elements t) + height t + 2 < fuel)%nat ->
  Z.of_nat (length h) + Z.of_nat (height t) + 3 <= max_nodes ->
  exists it h1 A1,
    insert fuel h A x = Ok (it, true, h1, A1)
    /\ find fuel h1 (copy_set A) x = Ok (end_ (copy_set A))
    /\ traverse fuel h (copy_set A) = Ok (elements t)
    /\ traverse fuel h1 (copy_set A) = Ok (elements t)
    /\ traverse fuel h1 A1 = Ok (sorted_insert x (elements t))
    /\ StronglySorted Z.lt (sorted_insert x (elements t)).
Proof.
  intros Hwf Hx Hf Hmem. pose proof Hwf as [Hm Hb Hsz].
  destruct (insert_run fuel h A t x Hwf) as ([[[it b] h1] A1] & Hrun); [lia|lia|].
  destruct (insert_absent_sound _ _ _ _ _ _ _ _ _ Hwf Hx Hrun)
    as (-> & _ & _ & Hwf1 & Hp & _ & _).
  set (t1 := (shape_insert x (S (length (anchored h A))) t).1) in *.
  pose proof (shape_insert_elements x (S (length (anchored h A))) t Hb Hx) as Hel.
  pose proof (shape_insert_height x (S (length (anchored h A))) t) as Hh.
  fold t1 in Hel, Hh.
  pose proof (wf_set_copy _ _ _ Hwf) as HwfB.
  pose proof (wf_set_prefix _ _ _ _ Hp HwfB) as HwfB1.
  exists it, h1, A1. split_and!.
  - exact Hrun.
  - rewrite (find_run _ _ _ x _ (wf_models _ _ _ HwfB1)) by lia.
    rewrite (found_absent _ _ _ Hx). reflexivity.
  - apply traverse_run; [exact HwfB|lia].
  - apply traverse_run; [exact HwfB1|lia].
  - rewrite <- Hel. apply traverse_run; [exact Hwf1|].
    rewrite Hel, sorted_insert_length. lia.
  - rewrite <- Hel. apply bst_sorted, Hwf1.
Qed.

Lemma persistence_witness :
  wf_set sample_store sample_set sample_shape
  /\ (4 ∉ elements sample_shape)
  /\ (length (elements sample_shape) + height sample_shape + 2 < 8)%nat
  /\ Z.of_nat (length sample_store) + Z.of_nat (height sample_shape) + 3
     <= max_nodes
  /\ exists it h1 A1,
       insert 8 sample_store sample_set 4 = Ok (it, true, h1, A1)
       /\ find 8 h1 (copy_set sample_set) 4 = Ok (end_ (copy_set sample_set))
       /\ traverse 8 sample_store (copy_set sample_set) = Ok (elements sample_shape)
       /\ traverse 8 h1 (copy_set sample_set) = Ok (elements sample_shape)
       /\ traverse 8 h1 A1 = Ok (sorted_insert 4 (elements sample_shape))
       /\ StronglySorted Z.lt (sorted_insert 4 (elements sample_shape)).
Proof.
  assert (4 ∉ elements sample_shape) as Hx.
  { cbn. intros H. repeat (apply elem_of_cons in H as [H|H]; [discriminate|]).
    inversion H. }
  assert (Z.of_nat (length sample_store) + Z.of_nat (height sample_shape) + 3
          <= max_nodes) as Hmem by (unfold max_nodes; cbn; lia).
  split; [exact sample_wf_set|]. split; [exact Hx|]. split; [cbn; lia|].
  split; [exact Hmem|].
  apply (persistence sample_store sample_set sample_shape 4 8
           sample_wf_set Hx (ltac:(cbn; lia)) Hmem).
Defined.

(** C2. [insert] on a well-formed handle, with fuel and room for the new
    nodes.  If [x] is an element already, the result is the iterator to the
    node holding it and [false], and neither the handle nor the store
    changes.  If [x] is not an element, the result is an iterator to a node
    that did not exist before and holds [x], and [true]; the elements of the
    new version are the old ones with [x] put in its place, and the counter
    has grown by exactly one.  In both cases an [insert] of [x] right after
    gives the iterator to that same node and [false], and changes nothing.
    A handle without an anchor (a new or cleared one) first gets one from
    [tree_]; a handle that has an anchor keeps it. *)
Theorem insert_correct (h : heap) (s : persistent_set) (t : shape) (x : Z)
    (fuel : nat) :
  wf_set h s t -> (S (height t) < fuel)%nat ->
  Z.of_nat (length h) + Z.of_nat (height t) + 3 <= max_nodes ->
  (x ∈ elements t ->
     exists a, (a, x) ∈ nodes t
       /\ insert fuel h s x = Ok (mkIter (Some a) (tree s), false, h, s))
  /\ (x ∉ elements t ->
      exists a h1 s1 t1,
        insert fuel h s x = Ok (mkIter (Some a) (tree s1), true, h1, s1)
        /\ (length h <= a)%nat
        /\ h1 !! a = Some (new_leaf x)
        /\ wf_set h1 s1 t1
        /\ (a, x) ∈ nodes t1
        /\ elements t1 = sorted_insert x (elements t)
        /\ (forall y, y ∈ elements t1 <-> y = x \/ y ∈ elements t)
        /\ length (elements t1) = S (length (elements t))
        /\ _size s1 = _size s + 1
        /\ insert fuel h1 s1 x = Ok (mkIter (Some a) (tree s1), false, h1, s1))
  /\ (tree s = None ->
      tree_ h s = Ok (h ++ [new_bNode], mkSet (Some (length h)) (_size s))
      /\ insert fuel h s x
         = insert fuel (h ++ [new_bNode]) (mkSet (Some (length h)) (_size s)) x)
  /\ (tree s <> None -> tree_ h s = Ok (h, s)).
Proof.
  intros Hwf Hf Hmem. pose proof Hwf as [Hm Hb Hsz]. split_and!.
  - intros Hx. rewrite (insert_present_run _ _ _ _ _ Hwf Hx) by lia.
    apply elem_of_elements_nodes in Hx as (a & Hx). exists a.
    destruct (subtree_of_present _ _ _ Hb Hx) as (l & r & ->). auto.
  - intros Hx.
    destruct (insert_run fuel h s t x Hwf) as ([[[it b] h1] s1] & Hrun); [lia|lia|].
    destruct (insert_absent_sound _ _ _ _ _ _ _ _ _ Hwf Hx Hrun)
      as (-> & -> & Es1 & Hwf1 & Hp & Hwfh & Hlen).
    set (a := S (length (anchored h s))) in *.
    set (t1 := (shape_insert x a t).1) in *.
    pose proof (shape_insert_leaf x a t Hx) as Hleaf. fold t1 in Hleaf.
    pose proof (shape_insert_elements x a t Hb Hx) as Hel. fold t1 in Hel.
    pose proof (shape_insert_height x a t) as Hh. fold t1 in Hh.
    pose proof Hwf1 as [Hm1 Hb1 Hsz1].
    assert (x ∈ elements t1) as Hx1
      by (eapply elem_of_nodes_elements, subtree_of_elem, Hleaf).
    exists a, h1, s1, t1. split_and!.
    + exact Hrun.
    + unfold a, anchored. destruct (tree s); [lia|].
      rewrite length_app. cbn. lia.
    + assert (repr h1 t1) as Hr1.
      { unfold models in Hm1. rewrite Es1 in Hm1. apply Hm1. }
      apply (repr_subtree_node _ _ _ _ _ _ Hr1 Hleaf).
    + exact Hwf1.
    + eapply subtree_of_elem, Hleaf.
    + exact Hel.
    + intros y. rewrite Hel. apply sorted_insert_elem.
    + rewrite Hel. apply sorted_insert_length.
    + rewrite Es1. reflexivity.
    + rewrite (insert_present_run _ _ _ _ _ Hwf1 Hx1) by lia.
      rewrite Hleaf. reflexivity.
  - intros Hnone. unfold insert, tree_. rewrite Hnone. cbn [tree].
    rewrite alloc_run by lia. cbn [mbind res_bind]. split; reflexivity.
  - intros Hsome. unfold tree_. destruct (tree s); [reflexivity|congruence].
Qed.

Lemma insert_correct_witness :
  wf_set sample_store sample_set sample_shape
  /\ (S (height sample_shape) < 4)%nat
  /\ Z.of_nat (length sample_store) + Z.of_nat (height sample_shape) + 3
     <= max_nodes
  /\ (3 ∈ elements sample_shape)
  /\ exists a, (a, 3) ∈ nodes sample_shape
       /\ insert 4 sample_store sample_set 3
          = Ok (mkIter (Some a) (tree sample_set), false, sample_store, sample_set).
Proof.
  assert (3 ∈ elements sample_shape) as Hx.
  { cbn. rewrite !elem_of_cons. auto. }
  assert (Z.of_nat (length sample_store) + Z.of_nat (height sample_shape) + 3
          <= max_nodes) as Hmem by (unfold max_nodes; cbn; lia).
  split; [exact sample_wf_set|]. split; [cbn; lia|]. split; [exact Hmem|].
  split; [exact Hx|].
  apply (insert_correct sample_store sample_set sample_shape 3 4
           sample_wf_set (ltac:(cbn; lia)) Hmem), Hx.
Defined.

(** C3. [erase] on a well-formed handle.  On an empty handle it does
    nothing, whatever the iterator.  Otherwise, for an iterator to a node
    [p] of the current tree holding [v], and with fuel and room for the
    copies, the elements of the new version are the old ones without [v] and
    the counter has dropped by exactly one.  When [p] has both children [l]
    and [r], the new tree has, in the place where a search for the least
    element [mv] of [r] ends, a fresh node holding [mv] whose left child is
    [l] itself and whose right child is [r] with the node holding [mv]
    erased. *)
Theorem erase_correct (h : heap) (s : persistent_set) (t : shape)
    (it : iterator) (fuel : nat) :
  wf_heap h -> wf_set h s t ->
  (empty s = true -> erase fuel h s it = Ok (h, s))
  /\ (forall p v,
        _node it = Some p -> (p, v) ∈ nodes t -> (height t < fuel)%nat ->
        Z.of_nat (length h) + Z.of_nat (height t) + 1 <= max_nodes ->
        exists h1 s1 t1,
          erase fuel h s it = Ok (h1, s1)
          /\ wf_set h1 s1 t1
          /\ elements t1 = filter (fun y => y <> v) (elements t)
          /\ (forall y, y ∈ elements t1 <-> y ∈ elements t /\ y <> v)
          /\ length (elements t) = S (length (elements t1))
          /\ _size s1 = _size s - 1
          /\ (forall l r,
                subtree_of t v = Bin p l v r -> l <> Nil -> r <> Nil ->
                exists m mv r1 b k,
                  leftmost r = Some (m, mv)
                  /\ Forall (fun y => mv <= y) (elements r)
                  /\ subtree_of t1 mv = Bin b l mv r1
                  /\ (length h < b)%nat
                  /\ h1 !! b = Some (new_node (root_of l) (root_of r1) mv)
                  /\ shape_erase m mv k r = Some (r1, b)
                  /\ elements r1 = filter (fun y => y <> mv) (elements r))).
Proof.
  intros Hwfh Hwf. pose proof Hwf as [Hm Hb Hsz]. split.
  - intros He. apply (empty_iff_Nil _ _ _ Hwf) in He. subst t.
    apply erase_empty, Hm.
  - intros p v Hp Hin Hf Hmem.
    destruct (erase_run fuel h s t it p v Hwfh Hwf Hp Hin Hf Hmem)
      as ([h1 s1] & Hrun).
    assert (t <> Nil) as Hne by (intros ->; inversion Hin).
    destruct (erase_sound _ _ _ _ _ _ _ Hwfh Hwf Hne Hrun)
      as (p1 & v1 & t1 & Hp1 & Hin1 & Hse & Es1 & Hwf1 & Hpre & Hwfh1).
    assert (p1 = p) as -> by congruence.
    assert (repr h t) as Hr.
    { unfold models in Hm. destruct (tree s); [apply Hm|congruence]. }
    assert (v1 = v) as ->.
    { destruct (repr_lookup _ _ _ _ Hr Hin) as (? & ? & E1).
      destruct (repr_lookup _ _ _ _ Hr Hin1) as (? & ? & E2). congruence. }
    destruct (shape_erase_elements _ _ _ _ _ _ _ Hr Hb Hin Hse) as (Hel & Hb1).
    exists h1, s1, t1. split_and!.
    + exact Hrun.
    + exact Hwf1.
    + exact Hel.
    + intros y. rewrite Hel, list_elem_of_filter. tauto.
    + apply (shape_erase_length _ _ _ _ _ _ Hse).
    + rewrite Es1. reflexivity.
    + intros l r Hs Hl Hrn.
      destruct (shape_erase_replacement _ _ _ _ _ _ _ _ _ Hr Hb Hse Hs Hl Hrn)
        as (m & mv & r1 & b & Hml & Hse2 & Hs2 & Hbn).
      pose proof (subtree_of_occurs t v) as Ho. rewrite Hs in Ho.
      pose proof (repr_occurs _ _ _ Ho Hr) as (_ & _ & Hrr).
      pose proof (bst_occurs _ _ Ho Hb) as (_ & _ & _ & Brr).
      assert (repr h1 t1) as Hr1.
      { destruct Hwf1 as [Hm1 _ _]. unfold models in Hm1. rewrite Es1 in Hm1.
        apply Hm1. }
      exists m, mv, r1, b, (S (length h)). split_and!.
      * exact Hml.
      * apply (leftmost_least r (m, mv)); auto.
      * exact Hs2.
      * lia.
      * apply (repr_subtree_node _ _ _ _ _ _ Hr1 Hs2).
      * exact Hse2.
      * apply (shape_erase_elements h m mv (S (length h)) r r1 b Hrr Brr
                 (leftmost_elem _ _ Hml) Hse2).
Qed.

Lemma erase_correct_witness :
  wf_heap sample_store
  /\ wf_set sample_store sample_set sample_shape
  /\ (2%nat, 3) ∈ nodes sample_shape
  /\ (height sample_shape < 3)%nat
  /\ Z.of_nat (length sample_store) + Z.of_nat (height sample_shape) + 1
     <= max_nodes
  /\ exists h1 s1 t1,
       erase 3 sample_store sample_set (mkIter (Some 2%nat) (Some 3%nat))
       = Ok (h1, s1)
       /\ wf_set h1 s1 t1
       /\ elements t1 = filter (fun y => y <> 3) (elements sample_shape).
Proof.
  assert ((2%nat, 3) ∈ nodes sample_shape) as Hin.
  { cbn. rewrite !elem_of_cons. auto. }
  assert (Z.of_nat (length sample_store) + Z.of_nat (height sample_shape) + 1
          <= max_nodes) as Hmem by (unfold max_nodes; cbn; lia).
  split; [exact sample_wf_heap|]. split; [exact sample_wf_set|].
  split; [exact Hin|]. split; [cbn; lia|]. split; [exact Hmem|].
  destruct (erase_correct sample_store sample_set sample_shape
              (mkIter (Some 2%nat) (Some 3%nat)) 3
              sample_wf_heap sample_wf_set) as (_ & H).
  destruct (H 2%nat 3 eq_refl Hin (ltac:(cbn; lia)) Hmem)
    as (h1 & s1 & t1 & H1 & H2 & H3 & _).
  exists h1, s1, t1. auto.
Defined.

(** C4. [find] starts at the real root (the anchor's left child), goes left
    at a node whose element is greater than [x] and right at one whose
    element is smaller, and stops at the node holding [x].  On a well-formed
    handle it returns an iterator to the node holding [x] when [x] is an
    element, and [end()] when it is not.  [find] takes the store and the
    handle and gives back an iterator only: it has nothing to write to. *)
Theorem find_correct (h : heap) (s : persistent_set) (t : shape) (x : Z)
    (fuel : nat) :
  wf_set h s t -> (height t < fuel)%nat ->
  (forall anchor n, tree s = Some anchor -> h !! anchor = Some n ->
     find fuel h s x = find_loop fuel h s (left n) x)
  /\ (forall f a pl pr v, h !! a = Some (mkNode pl pr (Some v)) ->
        find_loop (S f) h s (Some a) x
        = if v >? x then find_loop f h s pl x
          else if v <? x then find_loop f h s pr x
          else Ok (mkIter (Some a) (tree s)))
  /\ (forall f, find_loop (S f) h s None x = Ok (end_ s))
  /\ (x ∈ elements t ->
        exists a, (a, x) ∈ nodes t
          /\ find fuel h s x = Ok (mkIter (Some a) (tree s))
          /\ iter_get h (mkIter (Some a) (tree s)) = Ok x)
  /\ (x ∉ elements t -> find fuel h s x = Ok (end_ s)).
Proof.
  intros Hwf Hf. pose proof Hwf as [Hm Hb _]. split_and!.
  - intros anchor n Ht Hn. unfold find. rewrite Ht.
    rewrite (deref_Some _ _ _ Hn). reflexivity.
  - intros f a pl pr v Ha. cbn [find_loop].
    rewrite (get_value_Some _ _ _ _ Ha eq_refl). cbn [mbind res_bind].
    rewrite (deref_Some _ _ _ Ha). reflexivity.
  - reflexivity.
  - intros Hx. apply elem_of_elements_nodes in Hx as (a & Hx). exists a.
    destruct (subtree_of_present _ _ _ Hb Hx) as (l & r & Hs).
    rewrite (find_run _ _ _ x _ Hm Hf), Hs. split_and!; auto.
    unfold models in Hm. destruct (tree s) as [anchor|]; [|subst t; inversion Hx].
    destruct (repr_lookup _ _ _ _ (proj2 Hm) Hx) as (pl & pr & Ea).
    apply (get_value_Some _ _ _ _ Ea eq_refl).
  - intros Hx. rewrite (find_run _ _ _ x _ Hm Hf), (found_absent _ _ _ Hx).
    reflexivity.
Qed.

Lemma find_correct_witness :
  wf_set sample_store sample_set sample_shape
  /\ (height sample_shape < 3)%nat
  /\ (4 ∉ elements sample_shape)
  /\ find 3 sample_store sample_set 4 = Ok (end_ sample_set).
Proof.
  assert (4 ∉ elements sample_shape) as Hx.
  { cbn. intros H. repeat (apply elem_of_cons in H as [H|H]; [discriminate|]).
    inversion H. }
  split; [exact sample_wf_set|]. split; [cbn; lia|]. split; [exact Hx|].
  apply (find_correct sample_store sample_set sample_shape 4 3
           sample_wf_set (ltac:(cbn; lia))), Hx.
Defined.

(** C5. The ordering invariant.  Every handle of every program state reached
    by [insert], [erase], [clear], [swap] and copies stands for a tree in
    which, at every node, the elements of the left subtree are smaller and
    those of the right subtree are greater than the node's; no element occurs
    twice, and walking the handle from [begin()] to [end()] gives the
    elements in strictly ascending order. *)
Theorem ordering_invariant (w : world) (s : persistent_set) :
  reachable w -> s ∈ handles w ->
  exists t,
    models (store w) s t
    /\ bst t
    /\ (forall a l v r, occurs (Bin a l v r) t ->
          Forall (fun y => y < v) (elements l)
          /\ Forall (fun y => v < y) (elements r))
    /\ NoDup (elements t)
    /\ StronglySorted Z.lt (elements t)
    /\ (forall fuel, (length (elements t) + height t < fuel)%nat ->
          traverse fuel (store w) s = Ok (elements t)).
Proof.
  intros Hr Hs. destruct (reachable_wf _ Hr) as (Hwfh & Hall).
  destruct (Hall _ Hs) as (t & Hwf). pose proof Hwf as [Hm Hb Hsz].
  exists t. split_and!; auto.
  - intros a l v r Ho. pose proof (bst_occurs _ _ Ho Hb) as (Fl & Fr & _). auto.
  - apply bst_NoDup, Hb.
  - apply bst_sorted, Hb.
  - intros fuel Hf. apply traverse_run; auto.
Qed.

Lemma ordering_invariant_witness :
  reachable sample_world
  /\ mkSet (Some 3%nat) 2 ∈ handles sample_world
  /\ exists t, models (store sample_world) (mkSet (Some 3%nat) 2) t /\ bst t.
Proof.
  assert (mkSet (Some 3%nat) 2 ∈ handles sample_world) as Hs.
  { cbn. rewrite !elem_of_cons. auto. }
  split; [exact sample_reachable|]. split; [exact Hs|].
  destruct (ordering_invariant sample_world (mkSet (Some 3%nat) 2)
              sample_reachable Hs) as (t & H1 & H2 & _).
  exists t. auto.
Defined.

(** C6. Stepping an iterator that points at a node [a] of the tree, holding
    [x], with sub-shapes [l] and [r].  [++] yields the leftmost node of [r]
    when [r] is not empty, and otherwise the node recorded at the last left
    turn of the descent from the real root towards [x], the anchor when there
    was none.  Either way this is the node holding the least element greater
    than [x], or the anchor when no element is greater.  [--] mirrors it with
    the rightmost node of [l], the last right turn and the greatest element
    smaller than [x]. *)
Theorem step_correct (h : heap) (s : persistent_set) (t : shape)
    (a : loc) (l : shape) (x : Z) (r : shape) (fuel : nat) :
  wf_set h s t -> subtree_of t x = Bin a l x r -> (height t <= fuel)%nat ->
  (iter_incr fuel h (mkIter (Some a) (tree s))
   = Ok (mkIter (node_above t x (tree s)) (tree s))
   /\ node_above t x (tree s)
      = match leftmost r with
        | Some m => Some m.1
        | None => last_left_turn t x (tree s)
        end
   /\ (forall m, leftmost r = Some m ->
         m ∈ nodes r /\ Forall (fun y => m.2 <= y) (elements r))
   /\ ((node_above t x (tree s) = tree s
        /\ Forall (fun y => y <= x) (elements t))
       \/ (exists b y, node_above t x (tree s) = Some b /\ (b, y) ∈ nodes t
             /\ x < y /\ Forall (fun z => x < z -> y <= z) (elements t))))
  /\
  (iter_decr fuel h (mkIter (Some a) (tree s))
   = Ok (mkIter (node_below t x (tree s)) (tree s))
   /\ node_below t x (tree s)
      = match rightmost l with
        | Some m => Some m.1
        | None => last_right_turn t x (tree s)
        end
   /\ (forall m, rightmost l = Some m ->
         m ∈ nodes l /\ Forall (fun y => y <= m.2) (elements l))
   /\ ((node_below t x (tree s) = tree s
        /\ Forall (fun y => x <= y) (elements t))
       \/ (exists b y, node_below t x (tree s) = Some b /\ (b, y) ∈ nodes t
             /\ y < x /\ Forall (fun z => z < x -> z <= y) (elements t)))).
Proof.
  intros [Hm Hb _] Hs Hf.
  pose proof (subtree_of_elem _ _ _ _ _ Hs) as Hin.
  pose proof (subtree_of_occurs t x) as Ho. rewrite Hs in Ho.
  pose proof (bst_occurs _ _ Ho Hb) as (_ & _ & Bl & Br).
  unfold models in Hm. destruct (tree s) as [anchor|]; [|subst t; inversion Hin].
  destruct Hm as (Hanc & Hr). split; split_and!.
  - unfold iter_incr. cbn [_node root].
    rewrite (next_run _ _ _ _ _ _ Hr Hb Hanc Hin Hf). reflexivity.
  - apply (node_above_cases _ _ _ _ _ _ Hb Hs).
  - intros m Hml. split; [apply leftmost_elem, Hml|apply leftmost_least; auto].
  - apply node_above_least, Hb.
  - unfold iter_decr. cbn [_node root].
    rewrite (prev_run _ _ _ _ _ _ Hr Hb Hanc Hin Hf). reflexivity.
  - apply (node_below_cases _ _ _ _ _ _ Hb Hs).
  - intros m Hml. split; [|apply rightmost_greatest; auto].
    rewrite rightmost_last in Hml. apply last_Some in Hml as (k & ->).
    apply elem_of_app. right. apply list_elem_of_singleton. reflexivity.
  - apply node_below_greatest, Hb.
Qed.

Lemma step_correct_witness :
  wf_set sample_store sample_set sample_shape
  /\ subtree_of sample_shape 1 = Bin 0%nat Nil 1 Nil
  /\ (height sample_shape <= 2)%nat
  /\ iter_incr 2 sample_store (mkIter (Some 0%nat) (tree sample_set))
     = Ok (mkIter (node_above sample_shape 1 (tree sample_set)) (tree sample_set)).
Proof.
  split; [exact sample_wf_set|]. split; [reflexivity|]. split; [cbn; lia|].
  apply (step_correct sample_store sample_set sample_shape 0%nat Nil 1 Nil 2
           sample_wf_set eq_refl (ltac:(cbn; lia))).
Defined.

(** C7. [begin() == end()] exactly when [empty()].  On a non-empty handle,
    [--] applied to [end()] gives an iterator to the node holding the greatest
    element, and [++] applied to that iterator gives [end()]. *)
Theorem boundary (h : heap) (s : persistent_set) (t : shape) (fuel : nat) :
  wf_set h s t -> (height t < fuel)%nat ->
  (exists b, begin fuel h s = Ok b
     /\ (iter_eqb b (end_ s) = true <-> empty s = true))
  /\ (empty s = false ->
      exists m, rightmost t = Some m
        /\ Forall (fun y => y <= m.2) (elements t)
        /\ iter_decr fuel h (end_ s) = Ok (mkIter (Some m.1) (tree s))
        /\ iter_get h (mkIter (Some m.1) (tree s)) = Ok m.2
        /\ iter_incr fuel h (mkIter (Some m.1) (tree s)) = Ok (end_ s)).
Proof.
  intros Hwf Hf. pose proof Hwf as [Hm Hb Hsz].
  pose proof (empty_iff_Nil _ _ _ Hwf) as He. split.
  - rewrite (begin_run _ _ _ _ Hm Hf). eexists. split; [reflexivity|].
    rewrite He. destruct t as [|a l v r].
    + cbn [leftmost]. unfold iter_eqb. rewrite ptr_eqb_refl. tauto.
    + destruct (leftmost_Bin a l v r) as (m & Hml). rewrite Hml.
      split; [|discriminate]. intros Heq. exfalso.
      unfold iter_eqb, end_ in Heq. cbn [_node] in Heq.
      apply ptr_eqb_eq in Heq.
      unfold models in Hm. destruct (tree s) as [anchor|]; [|discriminate].
      destruct Hm as (Hanc & Hr).
      pose proof (leftmost_elem _ _ Hml) as Hin. destruct m as [m mv].
      cbn [fst] in Heq. injection Heq as ->.
      destruct (repr_lookup _ _ _ _ Hr Hin) as (? & ? & E). cbn in Hanc.
      congruence.
  - intros Hne. destruct t as [|a l v r].
    { assert (empty s = true) by (apply He; reflexivity). congruence. }
    destruct (rightmost_Bin a l v r) as ([m mv] & Hmr). exists (m, mv).
    unfold models in Hm. destruct (tree s) as [anchor|] eqn:Et; [|discriminate].
    destruct Hm as (Hanc & Hr).
    pose proof Hmr as Hlast. rewrite rightmost_last in Hlast.
    apply last_Some in Hlast as (k & Hn).
    assert ((m, mv) ∈ nodes (Bin a l v r)) as Hin.
    { rewrite Hn. apply elem_of_app. right. apply list_elem_of_singleton. auto. }
    destruct (repr_lookup _ _ _ _ Hr Hin) as (pl & pr & Ea).
    split_and!.
    + exact Hmr.
    + apply rightmost_greatest; auto.
    + unfold iter_decr, end_. rewrite Et. cbn [_node root].
      rewrite (prev_end_run _ _ _ _ _ Hr Hanc Hmr) by lia. reflexivity.
    + apply (get_value_Some _ _ _ _ Ea eq_refl).
    + unfold iter_incr, end_. rewrite Et. cbn [_node root fst].
      rewrite (next_run _ _ _ _ _ _ Hr Hb Hanc Hin) by lia.
      rewrite (node_above_split _ _ _ _ _ _ Hb Hn). reflexivity.
Qed.

Lemma boundary_witness :
  wf_set sample_store sample_set sample_shape
  /\ (height sample_shape < 3)%nat
  /\ exists b, begin 3 sample_store sample_set = Ok b
       /\ (iter_eqb b (end_ sample_set) = true <-> empty sample_set = true).
Proof.
  split; [exact sample_wf_set|]. split; [cbn; lia|].
  apply (boundary sample_store sample_set sample_shape 3
           sample_wf_set (ltac:(cbn; lia))).
Defined.

(** C8. Structural sharing.  After an insertion of a new element into a
    non-empty version, every node of the new tree that is not on the search
    path of the new element is a node of the old tree, at the same address
    and with unchanged contents, and the sub-shape below it is the very
    sub-shape of the old tree.  The addresses allocated by the insertion are
    those of the new anchor and of the nodes on that path, at most one more
    than the height of the old tree. *)
Theorem structural_sharing (h : heap) (s : persistent_set) (t : shape)
    (x : Z) (fuel : nat) :
  wf_set h s t -> t <> Nil -> x ∉ elements t -> (height t < fuel)%nat ->
  Z.of_nat (length h) + Z.of_nat (height t) + 3 <= max_nodes ->
  exists it h1 s1 t1 anchor1,
    insert fuel h s x = Ok (it, true, h1, s1)
    /\ wf_set h1 s1 t1 /\ tree s1 = Some anchor1
    /\ h `prefix_of` h1
    /\ last (path t1 x) = _node it
    /\ (forall a, a ∈ locs t1 -> a ∉ path t1 x ->
          a ∈ locs t /\ h1 !! a = h !! a)
    /\ (forall u a, occurs u t1 -> root_of u = Some a -> a ∉ path t1 x ->
          occurs u t)
    /\ (forall a, (length h <= a < length h1)%nat
                  <-> a = anchor1 \/ a ∈ path t1 x)
    /\ (length h1 = length h + 1 + length (path t1 x))%nat
    /\ (length (path t1 x) <= S (height t))%nat.
Proof.
  intros Hwf Hne Hx Hf Hmem. pose proof Hwf as [Hm Hb Hsz].
  destruct (insert_run fuel h s t x Hwf Hf Hmem) as ([[[it b] h1] s1] & Hrun).
  destruct (insert_absent_sound _ _ _ _ _ _ _ _ _ Hwf Hx Hrun)
    as (-> & -> & Es1 & Hwf1 & Hp & _ & Hlen).
  assert (anchored h s = h) as Ea.
  { unfold anchored, models in *. destruct (tree s); [reflexivity|congruence]. }
  assert (repr h t) as Hr.
  { unfold models in Hm. destruct (tree s); [apply Hm|congruence]. }
  rewrite Ea in *. clear Ea.
  pose proof (shape_insert_next x (S (length h)) t) as Hnext.
  pose proof (shape_insert_path x (S (length h)) t Hx) as Hpath.
  pose proof (shape_insert_height x (S (length h)) t) as Hh.
  pose proof (shape_insert_locs x (S (length h)) t) as Hlocs.
  pose proof (fun u a => shape_insert_shared x (S (length h)) t u a Hx) as Hshared.
  set (t1 := (shape_insert x (S (length h)) t).1) in *.
  rewrite <- Hlen in *. clearbody t1.
  assert (forall a, a ∈ path t1 x <-> (S (length h) <= a < length h1)%nat) as Hon.
  { intros a. rewrite Hpath, elem_of_rev, elem_of_seq. lia. }
  exists (mkIter (Some (S (length h))) (tree s1)), h1, s1, t1, (length h).
  split_and!.
  - exact Hrun.
  - exact Hwf1.
  - rewrite Es1. reflexivity.
  - exact Hp.
  - rewrite Hpath. cbn [_node].
    replace (length h1 - S (length h))%nat
      with (S (length h1 - S (S (length h)))) by lia.
    cbn [seq rev]. apply last_snoc.
  - intros a Ha Hoff.
    destruct (Hlocs a Ha) as [Hold|Hnew].
    + split; [exact Hold|]. symmetry. apply prefix_lookup_lt; [|exact Hp].
      eapply repr_locs_lt; eauto.
    + exfalso. apply Hoff, Hon. lia.
  - intros u a Hu Ha Hoff.
    apply (Hshared u a Hu Ha Hoff).
  - intros a. rewrite Hon. lia.
  - rewrite Hpath, length_rev, length_seq. lia.
  - pose proof (path_length t1 x). lia.
Qed.

Lemma structural_sharing_witness :
  wf_set sample_store sample_set sample_shape
  /\ sample_shape <> Nil
  /\ (4 ∉ elements sample_shape)
  /\ (height sample_shape < 3)%nat
  /\ Z.of_nat (length sample_store) + Z.of_nat (height sample_shape) + 3
     <= max_nodes
  /\ exists it h1 s1 t1 anchor1,
       insert 3 sample_store sample_set 4 = Ok (it, true, h1, s1)
       /\ wf_set h1 s1 t1 /\ tree s1 = Some anchor1
       /\ sample_store `prefix_of` h1.
Proof.
  assert (4 ∉ elements sample_shape) as Hx.
  { cbn. intros H. repeat (apply elem_of_cons in H as [H|H]; [discriminate|]).
    inversion H. }
  assert (Z.of_nat (length sample_store) + Z.of_nat (height sample_shape) + 3
          <= max_nodes) as Hmem by (unfold max_nodes; cbn; lia).
  split; [exact sample_wf_set|]. split; [discriminate|]. split; [exact Hx|].
  split; [cbn; lia|]. split; [exact Hmem|].
  destruct (structural_sharing sample_store sample_set sample_shape 4 3
              sample_wf_set (ltac:(discriminate)) Hx (ltac:(cbn; lia)) Hmem)
    as (it & h1 & s1 & t1 & anchor1 & H1 & H2 & H3 & H4 & _).
  exists it, h1, s1, t1, anchor1. auto.
Defined.

(** C9. The counter agrees with the tree.  In every reachable program state
    the counter of a handle is the number of value-bearing nodes below its
    anchor (they are pairwise distinct); it is zero exactly when the handle
    has no anchor or the anchor has no left child; so [empty()] holds exactly
    when the tree has no element. *)
Theorem size_consistency (w : world) (s : persistent_set) :
  reachable w -> s ∈ handles w ->
  exists t,
    models (store w) s t
    /\ NoDup (locs t)
    /\ _size s = Z.of_nat (length (locs t))
    /\ (_size s = 0 <->
        tree s = None
        \/ exists anchor n, tree s = Some anchor
             /\ store w !! anchor = Some n /\ left n = None)
    /\ (empty s = true <-> elements t = []).
Proof.
  intros Hr Hs. destruct (reachable_wf _ Hr) as (Hwfh & Hall).
  destruct (Hall _ Hs) as (t & Hwf). pose proof Hwf as [Hm Hb Hsz].
  pose proof (empty_iff_Nil _ _ _ Hwf) as He.
  unfold empty in He. rewrite Z.eqb_eq in He.
  exists t. split_and!.
  - exact Hm.
  - unfold models in Hm. destruct (tree s) as [anchor|].
    + eapply repr_NoDup_locs; [apply Hm|exact Hb].
    + subst t. constructor.
  - rewrite Hsz, length_elements_locs. reflexivity.
  - rewrite He. unfold models in Hm. destruct (tree s) as [anchor|].
    + destruct Hm as (Hanc & Hrep). split.
      * intros ->. right. exists anchor. eexists. split_and!; eauto.
      * intros [Hn|(a & n & [= <-] & Hn & Hl)]; [discriminate|].
        rewrite Hanc in Hn. injection Hn as <-. cbn in Hl.
        destruct t; [reflexivity|discriminate].
    + split; auto.
  - unfold empty. rewrite Z.eqb_eq, He.
    destruct t as [|a l v r]; [tauto|]. rewrite elements_Bin.
    split; [discriminate|]. intros E. destruct (elements l); discriminate.
Qed.

Lemma size_consistency_witness :
  reachable sample_world
  /\ mkSet (Some 3%nat) 2 ∈ handles sample_world
  /\ exists t, models (store sample_world) (mkSet (Some 3%nat) 2) t
       /\ _size (mkSet (Some 3%nat) 2) = Z.of_nat (length (locs t)).
Proof.
  assert (mkSet (Some 3%nat) 2 ∈ handles sample_world) as Hs.
  { cbn. rewrite !elem_of_cons. auto. }
  split; [exact sample_reachable|]. split; [exact Hs|].
  destruct (size_consistency sample_world (mkSet (Some 3%nat) 2)
              sample_reachable Hs) as (t & H1 & _ & H2 & _).
  exists t. auto.
Defined.


(** C10. The descent loops terminate.  On a store that holds a finite tree,
    fuel beyond the height of the tree always lets [find]'s loop finish; when
    the tree is a search tree and the element of the stepped node is in it,
    the same fuel lets the descents of [next] and [prev] finish.  The fuel
    each loop uses is bounded by the height of the subtree that remains
    below [cur]. *)
Theorem loops_terminate (h : heap) (t : shape) (fuel : nat) :
  repr h t -> (height t < fuel)%nat ->
  (forall s x, exists it, find_loop fuel h s (root_of t) x = Ok it)
  /\ (bst t ->
      forall this x c, get_value h this = Ok x -> x ∈ elements t ->
        (exists p, next_loop fuel h this (root_of t) c = Ok p)
        /\ (exists p, prev_loop fuel h this (root_of t) c = Ok p)).
Proof.
  intros Hr Hf. split.
  - intros s x. rewrite (find_loop_run _ _ _ _ _ Hr Hf). eauto.
  - intros Hb this x c Hv Hx. split.
    + rewrite (next_loop_run _ _ _ _ c _ Hr Hb Hv Hx) by lia. eauto.
    + rewrite (prev_loop_run _ _ _ _ c _ Hr Hb Hv Hx) by lia. eauto.
Qed.

Lemma loops_terminate_witness :
  repr sample_store sample_shape
  /\ (height sample_shape < 3)%nat
  /\ exists it, find_loop 3 sample_store sample_set (root_of sample_shape) 4 = Ok it.
Proof.
  assert (repr sample_store sample_shape) as Hr by (cbn; repeat split).
  split; [exact Hr|]. split; [cbn; lia|].
  apply (loops_terminate sample_store sample_shape 3 Hr (ltac:(cbn; lia))).
Defined.

(** * Beyond the claims *)

(** ** The ends of the range *)

Lemma node_below_split t k1 a x k2 c :
  bst t -> nodes t = k1 ++ (a, x) :: k2 ->
  node_below t x c = match last k1 with None => c | Some n => Some n.1 end.
Proof.
  intros Hb E. apply nodes_sorted in Hb. rewrite E in Hb.
  apply StronglySorted_app in Hb as (H12 & _ & H2).
  apply StronglySorted_inv in H2 as (_ & H2).
  unfold node_below. rewrite E, filter_app, filter_cons_False by (cbn; lia).
  rewrite (filter_none _ k2), app_nil_r, filter_all; [reflexivity| |].
  - apply Forall_forall. intros n Hn.
    specialize (H12 n (a, x) Hn). cbn in H12. apply H12, elem_of_cons; auto.
  - eapply Forall_impl; [exact H2|]. cbn. intros; lia.
Qed.

Lemma get_value_anchor h a l r :
  h !! a = Some (mkNode l r None) -> get_value h (Some a) = Fault.
Proof. intros H. unfold get_value. rewrite (deref_Some _ _ _ H). reflexivity. Qed.

Lemma get_value_cases h p :
  (exists v, get_value h p = Ok v) \/ get_value h p = Fault.
Proof.
  unfold get_value, deref. destruct p as [a|]; [|auto].
  destruct (h !! a) as [n|]; [|auto]. cbn.
  destruct (value n); eauto.
Qed.

(** X1. [end()] is not a position of the range: reading through it is
    undefined behaviour, and so is incrementing it; decrementing it is
    undefined behaviour when the handle is empty. *)
Theorem end_is_past_the_range (h : heap) (s : persistent_set) (t : shape)
    (fuel : nat) :
  wf_set h s t ->
  iter_get h (end_ s) = Fault
  /\ iter_incr (S fuel) h (end_ s) = Fault
  /\ (t = Nil -> iter_decr (S fuel) h (end_ s) = Fault).
Proof.
  intros [Hm _ _]. unfold models in Hm. unfold iter_get, iter_incr, iter_decr, end_.
  cbn [_node root]. destruct (tree s) as [anchor|].
  - destruct Hm as (Hanc & Hr). split_and!.
    + apply (get_value_anchor _ _ _ _ Hanc).
    + unfold next. rewrite (deref_Some _ _ _ Hanc).
      cbn [mbind res_bind right left next_loop].
      rewrite (get_value_anchor _ _ _ _ Hanc).
      destruct (get_value_cases h (root_of t)) as [(v & ->)| ->]; reflexivity.
    + intros ->. unfold prev. rewrite (deref_Some _ _ _ Hanc). reflexivity.
  - split_and!; reflexivity.
Qed.

Lemma end_is_past_the_range_witness :
  wf_set sample_store sample_set sample_shape
  /\ iter_incr 1 sample_store (end_ sample_set) = Fault.
Proof.
  split; [exact sample_wf_set|].
  apply (end_is_past_the_range sample_store sample_set sample_shape 0
           sample_wf_set).
Defined.

(** X2. On a non-empty handle [begin()] points at the least element. *)
Theorem begin_is_least (h : heap) (s : persistent_set) (t : shape)
    (fuel : nat) :
  wf_set h s t -> t <> Nil -> (height t < fuel)%nat ->
  exists b v,
    begin fuel h s = Ok b /\ iter_get h b = Ok v
    /\ v ∈ elements t /\ Forall (fun y => v <= y) (elements t).
Proof.
  intros [Hm Hb _] Hne Hf. rewrite (begin_run _ _ _ _ Hm Hf).
  destruct t as [|a l v r]; [congruence|].
  destruct (leftmost_Bin a l v r) as ([m mv] & Hml). rewrite Hml.
  pose proof (leftmost_elem _ _ Hml) as Hin.
  unfold models in Hm. destruct (tree s) as [anchor|]; [|discriminate].
  destruct (repr_lookup _ _ _ _ (proj2 Hm) Hin) as (pl & pr & E).
  exists (mkIter (Some m) (Some anchor)), mv. split_and!.
  - reflexivity.
  - apply (get_value_Some _ _ _ _ E eq_refl).
  - eapply elem_of_nodes_elements, Hin.
  - apply (leftmost_least _ (m, mv)); auto.
Qed.

Lemma begin_is_least_witness :
  wf_set sample_store sample_set sample_shape
  /\ sample_shape <> Nil
  /\ (height sample_shape < 3)%nat
  /\ exists b v,
       begin 3 sample_store sample_set = Ok b /\ iter_get sample_store b = Ok v
       /\ v ∈ elements sample_shape
       /\ Forall (fun y => v <= y) (elements sample_shape).
Proof.
  split; [exact sample_wf_set|]. split; [discriminate|]. split; [cbn; lia|].
  apply (begin_is_least sample_store sample_set sample_shape 3
           sample_wf_set (ltac:(discriminate)) (ltac:(cbn; lia))).
Defined.

(** X3. Decrementing [begin()] of a non-empty handle is not trapped: the
    descent of [prev] records no candidate and hands back the anchor, so the
    result compares equal to [end()]. *)
Theorem decrement_begin_is_end (h : heap) (s : persistent_set) (t : shape)
    (fuel : nat) :
  wf_set h s t -> t <> Nil -> (height t < fuel)%nat ->
  exists b,
    begin fuel h s = Ok b /\ iter_neqb b (end_ s) = true
    /\ iter_decr fuel h b = Ok (end_ s).
Proof.
  intros [Hm Hb _] Hne Hf. rewrite (begin_run _ _ _ _ Hm Hf).
  destruct t as [|a l v r]; [congruence|].
  destruct (leftmost_Bin a l v r) as ([m mv] & Hml). rewrite Hml.
  pose proof (leftmost_elem _ _ Hml) as Hin.
  destruct (leftmost_nodes _ _ Hml) as (k & Hk).
  unfold models in Hm. destruct (tree s) as [anchor|] eqn:Et; [|discriminate].
  destruct Hm as (Hanc & Hr).
  destruct (repr_lookup _ _ _ _ Hr Hin) as (pl & pr & E).
  eexists. split; [reflexivity|]. unfold end_. rewrite Et. cbn [fst]. split.
  - unfold iter_neqb, iter_eqb. cbn [_node].
    apply negb_true_iff, ptr_eqb_neq. congruence.
  - unfold iter_decr. cbn [_node root].
    rewrite (prev_run _ _ _ _ _ _ Hr Hb Hanc Hin) by lia.
    rewrite (node_below_split _ [] _ _ _ _ Hb Hk). reflexivity.
Qed.

Lemma decrement_begin_is_end_witness :
  wf_set sample_store sample_set sample_shape
  /\ sample_shape <> Nil
  /\ (height sample_shape < 3)%nat
  /\ exists b,
       begin 3 sample_store sample_set = Ok b
       /\ iter_neqb b (end_ sample_set) = true
       /\ iter_decr 3 sample_store b = Ok (end_ sample_set).
Proof.
  split; [exact sample_wf_set|]. split; [discriminate|]. split; [cbn; lia|].
  apply (decrement_begin_is_end sample_store sample_set sample_shape 3
           sample_wf_set (ltac:(discriminate)) (ltac:(cbn; lia))).
Defined.

(** ** erase with an iterator that is not into the current tree *)

Lemma elem_of_nodes_locs_fst a v t : (a, v) ∈ nodes t -> a ∈ locs t.
Proof. intros H. unfold locs. apply list_elem_of_fmap. exists (a, v). auto. Qed.

Lemma erase_impl_foreign fuel h t pos2 :
  repr h t -> (forall p, pos2 = Some p -> p ∉ locs t) ->
  (height t < fuel)%nat ->
  erase_impl fuel h (root_of t) pos2 = Fault.
Proof.
  revert fuel. induction t as [|a l IHl v r IHr]; intros fuel Hr Hp Hf.
  - destruct fuel as [|fuel]; [lia|]. cbn [erase_impl root_of].
    destruct pos2; reflexivity.
  - destruct fuel as [|fuel]; [lia|]. cbn [height] in Hf.
    destruct Hr as (Ha & Hl & Hr). cbn [erase_impl root_of].
    assert (ptr_eqb (Some a) pos2 = false) as ->.
    { apply ptr_eqb_neq. intros <-. apply (Hp a eq_refl).
      rewrite locs_Bin, elem_of_app, elem_of_cons. auto. }
    rewrite (get_value_Some _ _ _ _ Ha eq_refl). cbn [mbind res_bind].
    destruct (get_value_cases h pos2) as [(pv2 & ->)| ->]; [|reflexivity].
    cbn [mbind res_bind]. rewrite (deref_Some _ _ _ Ha).
    cbn [mbind res_bind left right].
    destruct (v <? pv2).
    + rewrite IHr; [reflexivity|exact Hr| |lia].
      intros p E Hin. apply (Hp p E).
      rewrite locs_Bin, elem_of_app, elem_of_cons. auto.
    + rewrite IHl; [reflexivity|exact Hl| |lia].
      intros p E Hin. apply (Hp p E).
      rewrite locs_Bin, elem_of_app, elem_of_cons. auto.
Qed.

Lemma anchor_not_in_locs h t (a : loc) l r :
  repr h t -> h !! a = Some (mkNode l r None) -> a ∉ locs t.
Proof.
  intros Hr Ha Hin. apply elem_of_locs_nodes in Hin as (v & Hin).
  destruct (repr_lookup _ _ _ _ Hr Hin) as (? & ? & E).
  rewrite E in Ha. discriminate.
Qed.

(** X4. [erase] does not check where its iterator comes from.  On a
    non-empty handle, an iterator whose node is not a node of the current
    tree (a null iterator, [end()], a node of another version only) makes
    [erase_impl] run off the tree or read the element of the anchor:
    undefined behaviour.  No amount of fuel makes such a call return. *)
Theorem erase_foreign_iterator (h : heap) (s : persistent_set) (t : shape)
    (it : iterator) (fuel : nat) :
  wf_heap h -> wf_set h s t -> t <> Nil ->
  (forall p, _node it = Some p -> p ∉ locs t) ->
  (forall f out, erase f h s it <> Ok out)
  /\ ((height t < fuel)%nat -> Z.of_nat (length h) < max_nodes ->
      erase fuel h s it = Fault
      /\ erase fuel h s (end_ s) = Fault).
Proof.
  intros Hwfh Hwf Hne Hp. split.
  - intros f [h1 s1] Hrun.
    destruct (erase_sound _ _ _ _ _ _ _ Hwfh Hwf Hne Hrun)
      as (p & pv & _ & Hit & Hin & _).
    apply (Hp p Hit). eapply elem_of_nodes_locs_fst, Hin.
  - intros Hf Hmem. destruct Hwf as [Hm _ _]. unfold models in Hm.
    assert (forall it0, (forall p, _node it0 = Some p -> p ∉ locs t) ->
              erase fuel h s it0 = Fault) as Hgen.
    { intros it0 Hp0. unfold erase.
      destruct (tree s) as [anchor|]; [|congruence].
      destruct Hm as (Hanc & Hr).
      rewrite (deref_Some _ _ _ Hanc). cbn [mbind res_bind left].
      destruct (root_of t) eqn:Eroot; [|destruct t; [congruence|discriminate]].
      rewrite <- Eroot. rewrite alloc_run by lia. cbn [mbind res_bind].
      rewrite erase_impl_foreign; [reflexivity| |exact Hp0|exact Hf].
      eapply repr_prefix; [apply prefix_snoc|exact Hr]. }
    split; [apply Hgen, Hp|]. apply Hgen. unfold end_. cbn [_node].
    destruct (tree s) as [anchor|]; [|discriminate].
    intros p [= <-]. eapply anchor_not_in_locs; [apply Hm|apply Hm].
Qed.

Lemma erase_foreign_iterator_witness :
  wf_heap sample_store
  /\ wf_set sample_store sample_set sample_shape
  /\ sample_shape <> Nil
  /\ (forall p, _node (mkIter None None) = Some p -> p ∉ locs sample_shape)
  /\ (forall f out, erase f sample_store sample_set (mkIter None None) <> Ok out).
Proof.
  assert (forall p, _node (mkIter None None) = Some p -> p ∉ locs sample_shape)
    as Hp by (intros p; discriminate).
  split; [exact sample_wf_heap|]. split; [exact sample_wf_set|].
  split; [discriminate|]. split; [exact Hp|].
  apply (erase_foreign_iterator sample_store sample_set sample_shape
           (mkIter None None) 0 sample_wf_heap sample_wf_set
           (ltac:(discriminate)) Hp).
Defined.

(** ** Walking backwards *)

Lemma nodes_loc_lt h t k1 n k2 m k3 :
  repr h t -> bst t -> nodes t = k1 ++ n :: k2 ++ m :: k3 -> n.1 <> m.1.
Proof.
  intros Hr Hb E Heq. pose proof (nodes_sorted _ Hb) as Hs. rewrite E in Hs.
  apply StronglySorted_app_1_r in Hs. apply StronglySorted_inv in Hs as (_ & Hs).
  rewrite Forall_forall in Hs.
  assert (n.2 < m.2) as Hlt by (apply Hs, elem_of_app; right; apply elem_of_cons; auto).
  destruct n as [a x], m as [b y]. cbn in *. subst b.
  assert ((a, x) ∈ nodes t) as H1 by (rewrite E, elem_of_app, elem_of_cons; auto).
  assert ((a, y) ∈ nodes t) as H2.
  { rewrite E, elem_of_app, elem_of_cons, elem_of_app, elem_of_cons. auto. }
  destruct (repr_lookup _ _ _ _ Hr H1) as (? & ? & E1).
  destruct (repr_lookup _ _ _ _ Hr H2) as (? & ? & E2).
  rewrite E1 in E2. injection E2 as _ _ ->. lia.
Qed.

Lemma rev_walk_run h t anchor k1 k2 fuel :
  repr h t -> bst t -> h !! anchor = Some (mkNode (root_of t) None None) ->
  nodes t = k1 ++ k2 -> (length k1 + height t < fuel)%nat ->
  rev_walk fuel h
    (mkRev (mkIter (match k2 with [] => Some anchor | n :: _ => Some n.1 end)
              (Some anchor)))
    (mkRev (mkIter (match nodes t with [] => Some anchor | n :: _ => Some n.1 end)
              (Some anchor)))
  = Ok (reverse k1.*2).
Proof.
  intros Hr Hb Hanc. revert k2 fuel.
  induction k1 as [|[a x] k1 IH] using rev_ind; intros k2 fuel E Hf.
  - destruct fuel as [|fuel]; [lia|]. cbn [rev_walk]. cbn in E. rewrite E.
    unfold rev_neqb. cbn [current]. rewrite iter_neqb_refl. reflexivity.
  - rewrite length_app in Hf. cbn [length] in Hf.
    destruct fuel as [|fuel]; [lia|].
    rewrite <- app_assoc in E. cbn [app] in E.
    assert ((a, x) ∈ nodes t) as Hin
      by (rewrite E, elem_of_app, elem_of_cons; auto).
    destruct (repr_lookup _ _ _ _ Hr Hin) as (pl & pr & Ea).
    pose proof (IH ((a, x) :: k2) fuel E (ltac:(lia))) as IHk. cbn [fst] in IHk.
    match goal with
    | |- rev_walk _ _ (mkRev (mkIter ?c _)) (mkRev (mkIter ?f _)) = _ =>
        remember c as cur eqn:Ecur; remember f as first eqn:Efirst
    end.
    cbn [rev_walk].
    assert (cur <> first) as Hne.
    { subst cur first. rewrite E. destruct k2 as [|[b y] k2].
      - destruct k1 as [|[c z] k1]; cbn; intros [= <-]; [|].
        + rewrite Ea in Hanc. discriminate.
        + assert ((anchor, z) ∈ nodes t) as Hc by (rewrite E; apply elem_of_cons; auto).
          destruct (repr_lookup _ _ _ _ Hr Hc) as (? & ? & Ec).
          rewrite Ec in Hanc. discriminate.
      - destruct k1 as [|[c z] k1]; cbn; intros [= Heq].
        + apply (nodes_loc_lt h t [] (a, x) [] (b, y) k2 Hr Hb E). cbn. auto.
        + apply (nodes_loc_lt h t [] (c, z) (k1 ++ [(a, x)]) (b, y) k2 Hr Hb).
          * rewrite E. cbn. rewrite <- app_assoc. reflexivity.
          * cbn. auto. }
    assert (prev (S fuel) h cur (Some anchor) = Ok (Some a)) as Hprev.
    { subst cur. destruct k2 as [|[b y] k2].
      - apply (prev_end_run h t anchor (a, x)); auto; [|lia].
        rewrite rightmost_last, E. apply last_snoc.
      - assert ((b, y) ∈ nodes t) as Hinb.
        { rewrite E, elem_of_app, !elem_of_cons. auto. }
        rewrite (prev_run _ _ _ _ _ _ Hr Hb Hanc Hinb) by lia.
        rewrite (node_below_split t (k1 ++ [(a, x)]) b y k2 _ Hb).
        + rewrite last_snoc. reflexivity.
        + rewrite <- app_assoc. exact E. }
    unfold rev_neqb, rev_get, rev_incr, iter_decr, iter_get.
    cbn [current _node root].
    assert (iter_neqb (mkIter cur (Some anchor)) (mkIter first (Some anchor)) = true)
      as -> by (unfold iter_neqb, iter_eqb; cbn [_node];
                apply negb_true_iff, ptr_eqb_neq, Hne).
    rewrite Hprev. cbn [mbind res_bind _node].
    rewrite (get_value_Some _ _ _ _ Ea eq_refl). cbn [mbind res_bind].
    rewrite IHk. cbn [mbind res_bind].
    rewrite fmap_app. cbn [fmap list_fmap snd]. rewrite reverse_snoc. reflexivity.
Qed.

(** X5. Reverse iteration.  The loop from [rbegin()] to [rend()] yields the
    elements of the forward walk in reverse, that is, in strictly descending
    order. *)
Theorem reverse_walk (h : heap) (s : persistent_set) (t : shape)
    (fuel : nat) :
  wf_set h s t -> (length (elements t) + height t < fuel)%nat ->
  traverse fuel h s = Ok (elements t)
  /\ rev_traverse fuel h s = Ok (reverse (elements t))
  /\ StronglySorted (fun x y => y < x) (reverse (elements t)).
Proof.
  intros Hwf Hf. pose proof Hwf as [Hm Hb _]. split_and!.
  - apply traverse_run; auto.
  - unfold rev_traverse, rend, rbegin.
    rewrite (begin_run _ _ _ _ Hm) by lia. cbn [mbind res_bind].
    unfold models in Hm. destruct (tree s) as [anchor|] eqn:Et.
    + destruct Hm as (Hanc & Hr).
      pose proof (rev_walk_run h t anchor (nodes t) [] fuel Hr Hb Hanc) as Hw.
      rewrite app_nil_r in Hw. unfold elements in *. rewrite length_fmap in Hf.
      specialize (Hw eq_refl Hf). rewrite leftmost_head. unfold end_. rewrite Et.
      destruct (nodes t) as [|n k]; exact Hw.
    + subst t. unfold end_. rewrite Et. destruct fuel; [lia|]. reflexivity.
  - pose proof (bst_sorted _ Hb) as Hs. clear -Hs.
    induction Hs as [|x l Hl IH Hx]; [constructor|].
    rewrite reverse_cons. apply StronglySorted_app_2; [|exact IH|repeat constructor].
    intros y z Hy Hz. apply list_elem_of_singleton in Hz as ->.
    rewrite elem_of_reverse in Hy. rewrite Forall_forall in Hx. auto.
Qed.

Lemma reverse_walk_witness :
  wf_set sample_store sample_set sample_shape
  /\ (length (elements sample_shape) + height sample_shape < 6)%nat
  /\ rev_traverse 6 sample_store sample_set = Ok [5; 3; 1].
Proof.
  split; [exact sample_wf_set|]. split; [cbn; lia|].
  apply (reverse_walk sample_store sample_set sample_shape 6
           sample_wf_set (ltac:(cbn; lia))).
Defined.

(** ** Looking up and walking on *)

Lemma find_end_iff fuel h s t y :
  wf_set h s t -> (height t < fuel)%nat ->
  (find fuel h s y = Ok (end_ s) <-> y ∉ elements t).
Proof.
  intros [Hm Hb _] Hf. rewrite (find_run _ _ _ y _ Hm Hf). split.
  - intros E Hy. pose proof (found_neq_end _ _ _ _ Hm Hb Hy) as Hne.
    injection E as E. rewrite E, iter_neqb_refl in Hne. discriminate.
  - intros Hy. rewrite (found_absent _ _ _ Hy). reflexivity.
Qed.

Lemma sorted_split_filter (k1 k2 : list (loc * Z)) a x :
  StronglySorted (fun n m : loc * Z => n.2 < m.2) (k1 ++ (a, x) :: k2) ->
  filter (fun y => x <= y) (k1 ++ (a, x) :: k2).*2 = x :: k2.*2.
Proof.
  intros Hs. apply StronglySorted_app in Hs as (H12 & _ & H2).
  apply StronglySorted_inv in H2 as (_ & H2).
  rewrite fmap_app, fmap_cons, filter_app, filter_cons_True by (cbn; lia).
  rewrite filter_none, filter_all; [reflexivity| |].
  - rewrite Forall_fmap. eapply Forall_impl; [exact H2|]. cbn. intros; lia.
  - rewrite Forall_fmap. apply Forall_forall. intros n Hn.
    specialize (H12 n (a, x) Hn). cbn in *.
    assert (n.2 < x) by (apply H12, elem_of_cons; auto). lia.
Qed.

(** X6. A walk can start anywhere: from the iterator [find(x)] returns for
    an element [x], incrementing up to [end()] yields exactly the elements
    that are not smaller than [x], in ascending order. *)
Theorem walk_from_find (h : heap) (s : persistent_set) (t : shape) (x : Z)
    (fuel : nat) :
  wf_set h s t -> x ∈ elements t ->
  (length (elements t) + height t < fuel)%nat ->
  exists it,
    find fuel h s x = Ok it
    /\ walk fuel h it (end_ s) = Ok (filter (fun y => x <= y) (elements t)).
Proof.
  intros [Hm Hb _] Hx Hf. apply elem_of_elements_nodes in Hx as (a & Hin).
  destruct (subtree_of_present _ _ _ Hb Hin) as (l & r & Hs).
  rewrite (find_run _ _ _ x _ Hm) by lia. rewrite Hs. cbn [root_of found].
  eexists. split; [reflexivity|].
  apply list_elem_of_split in Hin as (k1 & k2 & E).
  unfold models in Hm. destruct (tree s) as [anchor|] eqn:Et.
  - destruct Hm as (Hanc & Hr). unfold end_. rewrite Et.
    pose proof (walk_run h t anchor k1 ((a, x) :: k2) fuel Hr Hb Hanc E) as Hw.
    cbn [fst] in Hw. rewrite Hw.
    + unfold elements. rewrite E. rewrite sorted_split_filter; [reflexivity|].
      rewrite <- E. apply nodes_sorted, Hb.
    + unfold elements in Hf. rewrite E, length_fmap, length_app in Hf. lia.
  - subst t. destruct k1; discriminate.
Qed.

Lemma walk_from_find_witness :
  wf_set sample_store sample_set sample_shape
  /\ (3 ∈ elements sample_shape)
  /\ (length (elements sample_shape) + height sample_shape < 6)%nat
  /\ exists it,
       find 6 sample_store sample_set 3 = Ok it
       /\ walk 6 sample_store it (end_ sample_set)
          = Ok (filter (fun y => 3 <= y) (elements sample_shape)).
Proof.
  assert (3 ∈ elements sample_shape) as Hx.
  { cbn. rewrite !elem_of_cons. auto. }
  split; [exact sample_wf_set|]. split; [exact Hx|]. split; [cbn; lia|].
  apply (walk_from_find sample_store sample_set sample_shape 3 6
           sample_wf_set Hx (ltac:(cbn; lia))).
Defined.

(** X7. [find] after [insert].  Whether or not [x] was an element, the
    iterator [insert(x)] returns is the one a [find(x)] on the resulting
    handle returns, and it points at [x]; for every other value, [find]
    misses afterwards exactly when it missed before. *)
Theorem find_after_insert (h : heap) (s : persistent_set) (t : shape)
    (x y : Z) (fuel : nat) :
  wf_set h s t -> (S (height t) < fuel)%nat ->
  Z.of_nat (length h) + Z.of_nat (height t) + 3 <= max_nodes ->
  exists it b h1 s1,
    insert fuel h s x = Ok (it, b, h1, s1)
    /\ find fuel h1 s1 x = Ok it
    /\ iter_get h1 it = Ok x
    /\ (y <> x ->
        (find fuel h1 s1 y = Ok (end_ s1) <-> find fuel h s y = Ok (end_ s))).
Proof.
  intros Hwf Hf Hmem. pose proof Hwf as [Hm Hb _].
  destruct (decide (x ∈ elements t)) as [Hx|Hx].
  - rewrite (insert_present_run _ _ _ _ _ Hwf Hx) by lia.
    apply elem_of_elements_nodes in Hx as (a & Hin).
    destruct (subtree_of_present _ _ _ Hb Hin) as (l & r & Hs).
    eexists _, _, _, _. split; [reflexivity|]. rewrite Hs. cbn [root_of].
    split_and!.
    + rewrite (find_run _ _ _ x _ Hm) by lia. rewrite Hs. reflexivity.
    + unfold models in Hm. destruct (tree s); [|subst t; inversion Hin].
      destruct (repr_lookup _ _ _ _ (proj2 Hm) Hin) as (pl & pr & E).
      apply (get_value_Some _ _ _ _ E eq_refl).
    + tauto.
  - destruct (insert_run fuel h s t x Hwf) as ([[[it b] h1] s1] & Hrun); [lia|lia|].
    destruct (insert_absent_sound _ _ _ _ _ _ _ _ _ Hwf Hx Hrun)
      as (-> & -> & Es1 & Hwf1 & Hp & _ & _).
    set (n := S (length (anchored h s))) in *.
    pose proof (shape_insert_leaf x n t Hx) as Hleaf.
    pose proof (shape_insert_elements x n t Hb Hx) as Hel.
    pose proof (shape_insert_height x n t) as Hh.
    set (t1 := (shape_insert x n t).1) in *.
    pose proof Hwf1 as [Hm1 Hb1 _].
    exists (mkIter (Some n) (tree s1)), true, h1, s1. split_and!.
    + exact Hrun.
    + rewrite (find_run _ _ _ x _ Hm1) by lia. rewrite Hleaf. reflexivity.
    + assert (repr h1 t1) as Hr1.
      { unfold models in Hm1. rewrite Es1 in Hm1. apply Hm1. }
      destruct (repr_subtree_node _ _ _ _ _ _ Hr1 Hleaf) as (E & _).
      apply (get_value_Some _ _ _ _ E eq_refl).
    + intros Hy. rewrite (find_end_iff _ _ _ _ _ Hwf1) by lia.
      rewrite (find_end_iff _ _ _ _ _ Hwf) by lia.
      fold t1 in Hel. rewrite Hel, sorted_insert_elem. tauto.
Qed.

Lemma find_after_insert_witness :
  wf_set sample_store sample_set sample_shape
  /\ (S (height sample_shape) < 4)%nat
  /\ Z.of_nat (length sample_store) + Z.of_nat (height sample_shape) + 3
     <= max_nodes
  /\ exists it b h1 s1,
       insert 4 sample_store sample_set 4 = Ok (it, b, h1, s1)
       /\ find 4 h1 s1 4 = Ok it
       /\ iter_get h1 it = Ok 4.
Proof.
  assert (Z.of_nat (length sample_store) + Z.of_nat (height sample_shape) + 3
          <= max_nodes) as Hmem by (unfold max_nodes; cbn; lia).
  split; [exact sample_wf_set|]. split; [cbn; lia|]. split; [exact Hmem|].
  destruct (find_after_insert sample_store sample_set sample_shape 4 0 4
              sample_wf_set (ltac:(cbn; lia)) Hmem)
    as (it & b & h1 & s1 & H1 & H2 & H3 & _).
  exists it, b, h1, s1. auto.
Defined.

(** ** erase next to insert and to copies *)

Lemma shape_erase_height p pv n t t1 n1 :
  shape_erase p pv n t = Some (t1, n1) -> (height t1 <= height t)%nat.
Proof.
  revert p pv t1 n1. induction t as [|a l IHl v r IHr]; intros p pv t1 n1 E.
  - discriminate.
  - cbn [height].
    apply shape_erase_Bin in E
      as [(-> & -> & -> & ->)|[(-> & Hr & -> & -> & ->)|[(-> & Hr & Hl & m & mv & r1 & k & Hm & E & -> & ->)
         |[(Hne & Hlt & r1 & k & E & -> & ->)|(Hne & Hlt & l1 & k & E & -> & ->)]]]].
    + lia.
    + lia.
    + apply IHr in E. cbn [height]. lia.
    + apply IHr in E. cbn [height]. lia.
    + apply IHl in E. cbn [height]. lia.
Qed.

Lemma filter_sorted_insert x (k : list Z) :
  x ∉ k -> filter (fun y => y <> x) (sorted_insert x k) = k.
Proof.
  induction k as [|z k IH]; intros Hx.
  - cbn [sorted_insert]. rewrite filter_cons_False by congruence. reflexivity.
  - apply not_elem_of_cons in Hx as (Hne & Hx). cbn [sorted_insert].
    destruct (x <? z).
    + rewrite filter_cons_False by congruence.
      apply filter_ne_absent. rewrite not_elem_of_cons. auto.
    + rewrite filter_cons_True by congruence. rewrite IH by exact Hx. reflexivity.
Qed.

(** What a completed [erase] of a node of the tree gives, in one place. *)
Lemma erase_node_run fuel h s t it p v :
  wf_heap h -> wf_set h s t -> _node it = Some p -> (p, v) ∈ nodes t ->
  (height t < fuel)%nat ->
  Z.of_nat (length h) + Z.of_nat (height t) + 1 <= max_nodes ->
  exists h1 s1 t1,
    erase fuel h s it = Ok (h1, s1)
    /\ shape_erase p v (S (length h)) t = Some (t1, length h1)
    /\ s1 = mkSet (Some (length h)) (_size s - 1)
    /\ wf_set h1 s1 t1 /\ h `prefix_of` h1 /\ wf_heap h1
    /\ elements t1 = filter (fun y => y <> v) (elements t)
    /\ repr h t.
Proof.
  intros Hwfh Hwf Hp Hin Hf Hmem. pose proof Hwf as [Hm Hb Hsz].
  destruct (erase_run fuel h s t it p v Hwfh Hwf Hp Hin Hf Hmem)
    as ([h1 s1] & Hrun).
  assert (t <> Nil) as Hne by (intros ->; inversion Hin).
  destruct (erase_sound _ _ _ _ _ _ _ Hwfh Hwf Hne Hrun)
    as (p1 & v1 & t1 & Hp1 & Hin1 & Hse & Es1 & Hwf1 & Hpre & Hwfh1).
  assert (p1 = p) as -> by congruence.
  assert (repr h t) as Hr.
  { unfold models in Hm. destruct (tree s); [apply Hm|congruence]. }
  assert (v1 = v) as ->.
  { destruct (repr_lookup _ _ _ _ Hr Hin) as (? & ? & E1).
    destruct (repr_lookup _ _ _ _ Hr Hin1) as (? & ? & E2).
    rewrite E1 in E2. injection E2 as _ _ ->. reflexivity. }
  destruct (shape_erase_elements _ _ _ _ _ _ _ Hr Hb Hin Hse) as (Hel & _).
  exists h1, s1, t1. split_and!; auto.
Qed.

(** X8. Round trip.  Inserting a new value and erasing it through the
    iterator [insert] returned gives a handle with the elements and the
    counter it had before, on which [find] misses the value again. *)
Theorem insert_erase_round_trip (h : heap) (s : persistent_set) (t : shape)
    (x : Z) (fuel : nat) :
  wf_set h s t -> x ∉ elements t -> (S (height t) < fuel)%nat ->
  Z.of_nat (length h) + 2 * Z.of_nat (height t) + 5 <= max_nodes ->
  exists it h1 s1 h2 s2 t2,
    insert fuel h s x = Ok (it, true, h1, s1)
    /\ erase fuel h1 s1 it = Ok (h2, s2)
    /\ wf_set h2 s2 t2
    /\ elements t2 = elements t
    /\ _size s2 = _size s
    /\ find fuel h2 s2 x = Ok (end_ s2).
Proof.
  intros Hwf Hx Hf Hmem. pose proof Hwf as [Hm Hb Hsz].
  destruct (insert_run fuel h s t x Hwf) as ([[[it b] h1] s1] & Hrun); [lia|lia|].
  destruct (insert_absent_sound _ _ _ _ _ _ _ _ _ Hwf Hx Hrun)
    as (-> & -> & Es1 & Hwf1 & Hp & Hwfh1 & Hlen).
  set (n := S (length (anchored h s))) in *.
  pose proof (shape_insert_leaf x n t Hx) as Hleaf.
  pose proof (shape_insert_elements x n t Hb Hx) as Hel.
  pose proof (shape_insert_height x n t) as Hh.
  pose proof (shape_insert_next x n t) as Hnext.
  set (t1 := (shape_insert x n t).1) in *.
  assert (length (anchored h s) <= S (length h))%nat as Hanch.
  { unfold anchored. destruct (tree s); [lia|]. rewrite length_app. cbn. lia. }
  destruct (erase_node_run fuel h1 s1 t1 (mkIter (Some n) (tree s1)) n x
              Hwfh1 Hwf1 eq_refl (subtree_of_elem _ _ _ _ _ Hleaf))
    as (h2 & s2 & t2 & Hrun2 & Hse2 & Es2 & Hwf2 & _ & _ & Hel2 & _); [lia|lia|].
  apply shape_erase_height in Hse2.
  assert (elements t2 = elements t) as Heq.
  { rewrite Hel2, Hel. apply filter_sorted_insert, Hx. }
  exists (mkIter (Some n) (tree s1)), h1, s1, h2, s2, t2. split_and!; auto.
  - rewrite Es2, Es1. cbn [_size]. lia.
  - apply (find_end_iff _ _ _ _ _ Hwf2); [lia|rewrite Heq; exact Hx].
Qed.

Lemma insert_erase_round_trip_witness :
  wf_set sample_store sample_set sample_shape
  /\ (4 ∉ elements sample_shape)
  /\ (S (height sample_shape) < 4)%nat
  /\ Z.of_nat (length sample_store) + 2 * Z.of_nat (height sample_shape) + 5
     <= max_nodes
  /\ exists it h1 s1 h2 s2 t2,
       insert 4 sample_store sample_set 4 = Ok (it, true, h1, s1)
       /\ erase 4 h1 s1 it = Ok (h2, s2)
       /\ wf_set h2 s2 t2
       /\ elements t2 = elements sample_shape
       /\ _size s2 = _size sample_set
       /\ find 4 h2 s2 4 = Ok (end_ s2).
Proof.
  assert (4 ∉ elements sample_shape) as Hx.
  { cbn. intros H. repeat (apply elem_of_cons in H as [H|H]; [discriminate|]).
    inversion H. }
  assert (Z.of_nat (length sample_store) + 2 * Z.of_nat (height sample_shape) + 5
          <= max_nodes) as Hmem by (unfold max_nodes; cbn; lia).
  split; [exact sample_wf_set|]. split; [exact Hx|]. split; [cbn; lia|].
  split; [exact Hmem|].
  apply (insert_erase_round_trip sample_store sample_set sample_shape 4 4
           sample_wf_set Hx (ltac:(cbn; lia)) Hmem).
Defined.

Lemma sorted_insert_filter x (k : list Z) :
  StronglySorted Z.lt k -> x ∈ k ->
  sorted_insert x (filter (fun y => y <> x) k) = k.
Proof.
  induction 1 as [|z k Hk IH Hz]; intros Hx; [inversion Hx|].
  rewrite Forall_forall in Hz.
  destruct (decide (z = x)) as [->|Hne].
  - rewrite filter_cons_False by congruence.
    rewrite filter_ne_absent.
    + destruct k as [|w k]; [reflexivity|]. cbn [sorted_insert].
      assert (x < w) by (apply Hz, elem_of_cons; auto).
      destruct (Z.ltb_spec x w); [reflexivity|lia].
    + intros Hin. specialize (Hz _ Hin). lia.
  - apply elem_of_cons in Hx as [->|Hx]; [congruence|].
    rewrite filter_cons_True by congruence. cbn [sorted_insert].
    specialize (Hz _ Hx). destruct (Z.ltb_spec x z); [lia|].
    rewrite IH by exact Hx. reflexivity.
Qed.

(** X9. The other round trip.  Erasing the node an iterator points at and
    inserting its element again gives a handle with the elements and the
    counter it had before; the element then sits in a node that did not exist
    before. *)
Theorem erase_insert_round_trip (h : heap) (s : persistent_set) (t : shape)
    (it : iterator) (p : loc) (v : Z) (fuel : nat) :
  wf_heap h -> wf_set h s t -> _node it = Some p -> (p, v) ∈ nodes t ->
  (S (height t) < fuel)%nat ->
  Z.of_nat (length h) + 2 * Z.of_nat (height t) + 4 <= max_nodes ->
  exists h1 s1 it2 h2 s2 t2,
    erase fuel h s it = Ok (h1, s1)
    /\ insert fuel h1 s1 v = Ok (it2, true, h2, s2)
    /\ wf_set h2 s2 t2
    /\ elements t2 = elements t
    /\ _size s2 = _size s
    /\ (exists q, _node it2 = Some q /\ (length h < q)%nat /\ (q, v) ∈ nodes t2).
Proof.
  intros Hwfh Hwf Hp Hin Hf Hmem. pose proof Hwf as [Hm Hb Hsz].
  destruct (erase_node_run fuel h s t it p v Hwfh Hwf Hp Hin)
    as (h1 & s1 & t1 & Hrun & Hse & Es1 & Hwf1 & Hpre & Hwfh1 & Hel & Hr);
    [lia|lia|].
  pose proof (shape_erase_height _ _ _ _ _ _ Hse) as Hh.
  pose proof (shape_erase_next _ _ _ _ _ _ Hse) as Hnext.
  assert (v ∉ elements t1) as Hv.
  { rewrite Hel, list_elem_of_filter. tauto. }
  destruct (insert_run fuel h1 s1 t1 v Hwf1) as ([[[it2 b] h2] s2] & Hrun2);
    [lia|lia|].
  destruct (insert_absent_sound _ _ _ _ _ _ _ _ _ Hwf1 Hv Hrun2)
    as (-> & -> & Es2 & Hwf2 & _ & _ & _).
  assert (anchored h1 s1 = h1) as Ea by (rewrite Es1; reflexivity).
  rewrite Ea in *.
  pose proof (shape_insert_leaf v (S (length h1)) t1 Hv) as Hleaf.
  pose proof (shape_insert_elements v (S (length h1)) t1 (wf_bst _ _ _ Hwf1) Hv)
    as Hel2.
  exists h1, s1, (mkIter (Some (S (length h1))) (tree s2)), h2, s2,
    (shape_insert v (S (length h1)) t1).1.
  split_and!; auto.
  - rewrite Hel2, Hel. apply sorted_insert_filter.
    + apply bst_sorted, Hb.
    + eapply elem_of_nodes_elements, Hin.
  - rewrite Es2, Es1. cbn [_size]. lia.
  - exists (S (length h1)). split_and!; [reflexivity|lia|].
    eapply subtree_of_elem, Hleaf.
Qed.

Lemma erase_insert_round_trip_witness :
  wf_heap sample_store
  /\ wf_set sample_store sample_set sample_shape
  /\ (2%nat, 3) ∈ nodes sample_shape
  /\ (S (height sample_shape) < 4)%nat
  /\ Z.of_nat (length sample_store) + 2 * Z.of_nat (height sample_shape) + 4
     <= max_nodes
  /\ exists h1 s1 it2 h2 s2 t2,
       erase 4 sample_store sample_set (mkIter (Some 2%nat) (Some 3%nat))
       = Ok (h1, s1)
       /\ insert 4 h1 s1 3 = Ok (it2, true, h2, s2)
       /\ wf_set h2 s2 t2
       /\ elements t2 = elements sample_shape.
Proof.
  assert ((2%nat, 3) ∈ nodes sample_shape) as Hin.
  { cbn. rewrite !elem_of_cons. auto. }
  assert (Z.of_nat (length sample_store) + 2 * Z.of_nat (height sample_shape) + 4
          <= max_nodes) as Hmem by (unfold max_nodes; cbn; lia).
  split; [exact sample_wf_heap|]. split; [exact sample_wf_set|].
  split; [exact Hin|]. split; [cbn; lia|]. split; [exact Hmem|].
  destruct (erase_insert_round_trip sample_store sample_set sample_shape
              (mkIter (Some 2%nat) (Some 3%nat)) 2%nat 3 4
              sample_wf_heap sample_wf_set eq_refl Hin (ltac:(cbn; lia)) Hmem)
    as (h1 & s1 & it2 & h2 & s2 & t2 & H1 & H2 & H3 & H4 & _).
  exists h1, s1, it2, h2, s2, t2. auto.
Defined.

(** X10. Persistence under [erase].  Let [B] be a copy of [A].  After
    [A.erase(it)] for an iterator to the node [p] holding [v], [B.find(v)]
    still returns the iterator to [p] and walking [B] still gives all the old
    elements, while [A.find(v)] is [A.end()] and walking [A] gives the old
    elements without [v]. *)
Theorem erase_persistence (h : heap) (A : persistent_set) (t : shape)
    (it : iterator) (p : loc) (v : Z) (fuel : nat) :
  wf_heap h -> wf_set h A t -> _node it = Some p -> (p, v) ∈ nodes t ->
  (length (elements t) + height t < fuel)%nat ->
  Z.of_nat (length h) + Z.of_nat (height t) + 1 <= max_nodes ->
  exists h1 A1,
    erase fuel h A it = Ok (h1, A1)
    /\ find fuel h1 (copy_set A) v = Ok (mkIter (Some p) (tree (copy_set A)))
    /\ iter_get h1 (mkIter (Some p) (tree (copy_set A))) = Ok v
    /\ traverse fuel h1 (copy_set A) = Ok (elements t)
    /\ find fuel h1 A1 v = Ok (end_ A1)
    /\ traverse fuel h1 A1 = Ok (filter (fun y => y <> v) (elements t)).
Proof.
  intros Hwfh Hwf Hp Hin Hf Hmem. pose proof Hwf as [Hm Hb Hsz].
  destruct (erase_node_run fuel h A t it p v Hwfh Hwf Hp Hin)
    as (h1 & A1 & t1 & Hrun & Hse & Es1 & Hwf1 & Hpre & Hwfh1 & Hel & Hr);
    [lia|lia|].
  pose proof (shape_erase_height _ _ _ _ _ _ Hse) as Hh.
  pose proof (shape_erase_length _ _ _ _ _ _ Hse) as Hlen.
  pose proof (wf_set_prefix _ _ _ _ Hpre (wf_set_copy _ _ _ Hwf)) as HwfB.
  destruct (subtree_of_present _ _ _ Hb Hin) as (l & r & Hs).
  destruct (repr_lookup _ _ _ _ Hr Hin) as (pl & pr & Ep).
  exists h1, A1. split_and!.
  - exact Hrun.
  - rewrite (find_run _ _ _ v _ (wf_models _ _ _ HwfB)) by lia.
    rewrite Hs. reflexivity.
  - apply (get_value_Some _ _ _ _ (prefix_lookup_Some _ _ _ _ Ep Hpre) eq_refl).
  - apply traverse_run; [exact HwfB|lia].
  - apply (find_end_iff _ _ _ _ _ Hwf1); [lia|].
    rewrite Hel, list_elem_of_filter. tauto.
  - rewrite <- Hel. apply traverse_run; [exact Hwf1|lia].
Qed.

Lemma erase_persistence_witness :
  wf_heap sample_store
  /\ wf_set sample_store sample_set sample_shape
  /\ (2%nat, 3) ∈ nodes sample_shape
  /\ (length (elements sample_shape) + height sample_shape < 6)%nat
  /\ Z.of_nat (length sample_store) + Z.of_nat (height sample_shape) + 1
     <= max_nodes
  /\ exists h1 A1,
       erase 6 sample_store sample_set (mkIter (Some 2%nat) (Some 3%nat))
       = Ok (h1, A1)
       /\ find 6 h1 (copy_set sample_set) 3
          = Ok (mkIter (Some 2%nat) (tree (copy_set sample_set)))
       /\ traverse 6 h1 (copy_set sample_set) = Ok (elements sample_shape)
       /\ find 6 h1 A1 3 = Ok (end_ A1).
Proof.
  assert ((2%nat, 3) ∈ nodes sample_shape) as Hin.
  { cbn. rewrite !elem_of_cons. auto. }
  assert (Z.of_nat (length sample_store) + Z.of_nat (height sample_shape) + 1
          <= max_nodes) as Hmem by (unfold max_nodes; cbn; lia).
  split; [exact sample_wf_heap|]. split; [exact sample_wf_set|].
  split; [exact Hin|]. split; [cbn; lia|]. split; [exact Hmem|].
  destruct (erase_persistence sample_store sample_set sample_shape
              (mkIter (Some 2%nat) (Some 3%nat)) 2%nat 3 6
              sample_wf_heap sample_wf_set eq_refl Hin (ltac:(cbn; lia)) Hmem)
    as (h1 & A1 & H1 & H2 & _ & H3 & H4 & _).
  exists h1, A1. auto.
Defined.

(** X11. What [erase] allocates and what it shares.  Erasing a node of a tree
    of height [k] allocates at most [k] nodes, the new anchor included.  Every
    node of the new tree is either one of these or a node of the old tree at
    the same address with unchanged contents; the erased node is not a node
    of the new tree. *)
Theorem erase_sharing (h : heap) (s : persistent_set) (t : shape)
    (it : iterator) (p : loc) (v : Z) (fuel : nat) :
  wf_heap h -> wf_set h s t -> _node it = Some p -> (p, v) ∈ nodes t ->
  (height t < fuel)%nat ->
  Z.of_nat (length h) + Z.of_nat (height t) + 1 <= max_nodes ->
  exists h1 s1 t1,
    erase fuel h s it = Ok (h1, s1)
    /\ wf_set h1 s1 t1
    /\ h `prefix_of` h1
    /\ (length h < length h1 <= length h + height t)%nat
    /\ tree s1 = Some (length h)
    /\ (forall a, a ∈ locs t1 ->
          (a ∈ locs t /\ h1 !! a = h !! a) \/ (length h < a < length h1)%nat)
    /\ p ∉ locs t1.
Proof.
  intros Hwfh Hwf Hp Hin Hf Hmem. pose proof Hwf as [Hm Hb Hsz].
  destruct (erase_node_run fuel h s t it p v Hwfh Hwf Hp Hin Hf Hmem)
    as (h1 & s1 & t1 & Hrun & Hse & Es1 & Hwf1 & Hpre & Hwfh1 & Hel & Hr).
  pose proof (shape_erase_next _ _ _ _ _ _ Hse) as Hnext.
  assert (repr h1 t1) as Hr1.
  { destruct Hwf1 as [Hm1 _ _]. unfold models in Hm1. rewrite Es1 in Hm1.
    apply Hm1. }
  exists h1, s1, t1. split_and!; auto.
  - lia.
  - lia.
  - rewrite Es1. reflexivity.
  - intros a Ha.
    destruct (shape_erase_locs _ _ _ _ _ _ a Hse Ha) as [Hold|Hnew]; [left|right; lia].
    split; [exact Hold|]. symmetry. apply prefix_lookup_lt; [|exact Hpre].
    eapply repr_locs_lt; eauto.
  - intros Hp1. apply elem_of_locs_nodes in Hp1 as (w & Hp1).
    destruct (repr_lookup _ _ _ _ Hr Hin) as (pl & pr & E).
    destruct (repr_lookup _ _ _ _ Hr1 Hp1) as (pl1 & pr1 & E1).
    pose proof (eq_trans (eq_sym E1) (prefix_lookup_Some _ _ _ _ E Hpre)) as E2.
    injection E2 as _ _ ->.
    apply elem_of_nodes_elements in Hp1. rewrite Hel, list_elem_of_filter in Hp1.
    tauto.
Qed.

Lemma erase_sharing_witness :
  wf_heap sample_store
  /\ wf_set sample_store sample_set sample_shape
  /\ (2%nat, 3) ∈ nodes sample_shape
  /\ (height sample_shape < 3)%nat
  /\ Z.of_nat (length sample_store) + Z.of_nat (height sample_shape) + 1
     <= max_nodes
  /\ exists h1 s1 t1,
       erase 3 sample_store sample_set (mkIter (Some 2%nat) (Some 3%nat))
       = Ok (h1, s1)
       /\ wf_set h1 s1 t1
       /\ sample_store `prefix_of` h1
       /\ (length sample_store < length h1
           <= length sample_store + height sample_shape)%nat.
Proof.
  assert ((2%nat, 3) ∈ nodes sample_shape) as Hin.
  { cbn. rewrite !elem_of_cons. auto. }
  assert (Z.of_nat (length sample_store) + Z.of_nat (height sample_shape) + 1
          <= max_nodes) as Hmem by (unfold max_nodes; cbn; lia).
  split; [exact sample_wf_heap|]. split; [exact sample_wf_set|].
  split; [exact Hin|]. split; [cbn; lia|]. split; [exact Hmem|].
  destruct (erase_sharing sample_store sample_set sample_shape
              (mkIter (Some 2%nat) (Some 3%nat)) 2%nat 3 3
              sample_wf_heap sample_wf_set eq_refl Hin (ltac:(cbn; lia)) Hmem)
    as (h1 & s1 & t1 & H1 & H2 & H3 & H4 & _).
  exists h1, s1, t1. auto.
Defined.

(** ** Iterators into a handle that is then mutated *)

Lemma path_locs t x a : a ∈ path t x -> a ∈ locs t.
Proof.
  induction t as [|b l IHl v r IHr]; simpl; [auto|].
  rewrite locs_Bin, elem_of_app, elem_of_cons.
  destruct (v >? x); [|destruct (v <? x)].
  - rewrite elem_of_cons. intros [->|H]; auto.
  - rewrite elem_of_cons. intros [->|H]; auto.
  - rewrite list_elem_of_singleton. auto.
Qed.

Lemma shape_insert_keeps x n t a :
  NoDup (locs t) -> (forall b, b ∈ locs t -> (b < n)%nat) -> x ∉ elements t ->
  a ∈ locs t -> (a ∈ locs (shape_insert x n t).1 <-> a ∉ path t x).
Proof.
  induction t as [|b l IHl v r IHr]; intros Hnd Hlt Hx Ha; [inversion Ha|].
  rewrite locs_Bin in Hnd, Hlt, Ha.
  apply NoDup_app in Hnd as (Hndl & Hlr & Hndr).
  apply NoDup_cons in Hndr as (Hbr & Hndr).
  rewrite elements_Bin, not_elem_of_app, not_elem_of_cons in Hx.
  destruct Hx as (Hxl & Hne & Hxr).
  assert (b ∉ locs l) as Hbl.
  { intros H. apply (Hlr _ H). apply elem_of_cons. auto. }
  assert (forall c, c ∈ locs l -> c ∈ locs r -> False) as Hdis.
  { intros c H1 H2. apply (Hlr _ H1). apply elem_of_cons. auto. }
  assert (a < n)%nat as Han by (apply Hlt, Ha).
  assert (a ∈ path l x -> a ∈ locs l) as Hpl by apply path_locs.
  assert (a ∈ path r x -> a ∈ locs r) as Hpr by apply path_locs.
  cbn [shape_insert path].
  destruct (Z.ltb_spec v x) as [Hvx|Hvx].
  - destruct (Z.gtb_spec v x); [lia|].
    pose proof (shape_insert_next x n r) as Hnext.
    pose proof (shape_insert_locs x n r a) as Hlocs.
    specialize (IHr Hndr (fun c H => Hlt c ltac:(rewrite elem_of_app, elem_of_cons; auto)) Hxr).
    destruct (shape_insert x n r) as [r1 n1]. cbn [fst snd] in *.
    assert (a <> n1) as Hn1 by lia.
    assert (a ∈ locs r1 -> a ∈ locs r) as Hr1.
    { intros Hin. destruct (Hlocs Hin); [auto|lia]. }
    rewrite locs_Bin, elem_of_app, !elem_of_cons.
    apply elem_of_app in Ha as [Ha|Ha]; [|apply elem_of_cons in Ha as [->|Ha]].
    + specialize (Hdis a Ha). assert (a <> b) by congruence. tauto.
    + tauto.
    + specialize (Hdis a). assert (a <> b) by congruence.
      specialize (IHr Ha). tauto.
  - destruct (Z.gtb_spec v x); [|lia].
    pose proof (shape_insert_next x n l) as Hnext.
    pose proof (shape_insert_locs x n l a) as Hlocs.
    specialize (IHl Hndl (fun c H => Hlt c ltac:(rewrite elem_of_app; auto)) Hxl).
    destruct (shape_insert x n l) as [l1 n1]. cbn [fst snd] in *.
    assert (a <> n1) as Hn1 by lia.
    assert (a ∈ locs l1 -> a ∈ locs l) as Hl1.
    { intros Hin. destruct (Hlocs Hin); [auto|lia]. }
    rewrite locs_Bin, elem_of_app, !elem_of_cons.
    apply elem_of_app in Ha as [Ha|Ha]; [|apply elem_of_cons in Ha as [->|Ha]].
    + specialize (Hdis a Ha). assert (a <> b) by congruence.
      specialize (IHl Ha). tauto.
    + tauto.
    + specialize (Hdis a). assert (a <> b) by congruence. tauto.
Qed.

(** X12. [insert] detaches the nodes it copies.  After the insertion of a new
    value [x], a node of the old tree is a node of the new tree exactly when
    it is not on the old search path of [x].  An iterator obtained earlier
    that points at a node on that path therefore no longer points into the
    handle: [erase] called with it never returns. *)
Theorem insert_detaches_path (h : heap) (s : persistent_set) (t : shape)
    (x : Z) (fuel : nat) :
  wf_set h s t -> x ∉ elements t -> (height t < fuel)%nat ->
  Z.of_nat (length h) + Z.of_nat (height t) + 3 <= max_nodes ->
  exists it h1 s1 t1,
    insert fuel h s x = Ok (it, true, h1, s1)
    /\ wf_set h1 s1 t1
    /\ (forall a, a ∈ locs t -> (a ∈ locs t1 <-> a ∉ path t x))
    /\ (forall a r f out,
          a ∈ path t x -> erase f h1 s1 (mkIter (Some a) r) <> Ok out).
Proof.
  intros Hwf Hx Hf Hmem. pose proof Hwf as [Hm Hb Hsz].
  destruct (insert_run fuel h s t x Hwf Hf Hmem) as ([[[it b] h1] s1] & Hrun).
  destruct (insert_absent_sound _ _ _ _ _ _ _ _ _ Hwf Hx Hrun)
    as (-> & -> & Es1 & Hwf1 & Hp & Hwfh1 & _).
  set (n := S (length (anchored h s))) in *.
  assert (NoDup (locs t) /\ forall b, b ∈ locs t -> (b < n)%nat) as (Hnd & Hlt).
  { unfold models in Hm. unfold n, anchored. destruct (tree s) as [anchor|].
    - destruct Hm as (_ & Hr). split; [eapply repr_NoDup_locs; eauto|].
      intros b Hin. pose proof (repr_locs_lt _ _ _ Hr Hin). lia.
    - subst t. split; [constructor|]. intros b Hin. inversion Hin. }
  pose proof (fun a => shape_insert_keeps x n t a Hnd Hlt Hx) as Hkeep.
  pose proof (shape_insert_leaf x n t Hx) as Hleaf.
  set (t1 := (shape_insert x n t).1) in *.
  exists (mkIter (Some n) (tree s1)), h1, s1, t1. split_and!; auto.
  intros a r f [h2 s2] Ha Hrun2.
  assert (t1 <> Nil) as Hne by (intros E; rewrite E in Hleaf; discriminate).
  destruct (erase_sound _ _ _ _ _ _ _ Hwfh1 Hwf1 Hne Hrun2)
    as (p & pv & _ & [= <-] & Hin & _).
  apply (Hkeep a (path_locs _ _ _ Ha)); [|exact Ha].
  eapply elem_of_nodes_locs_fst, Hin.
Qed.

Lemma insert_detaches_path_witness :
  wf_set sample_store sample_set sample_shape
  /\ (4 ∉ elements sample_shape)
  /\ (height sample_shape < 3)%nat
  /\ Z.of_nat (length sample_store) + Z.of_nat (height sample_shape) + 3
     <= max_nodes
  /\ exists it h1 s1 t1,
       insert 3 sample_store sample_set 4 = Ok (it, true, h1, s1)
       /\ wf_set h1 s1 t1
       /\ (forall a, a ∈ locs sample_shape ->
             (a ∈ locs t1 <-> a ∉ path sample_shape 4)).
Proof.
  assert (4 ∉ elements sample_shape) as Hx.
  { cbn. intros H. repeat (apply elem_of_cons in H as [H|H]; [discriminate|]).
    inversion H. }
  assert (Z.of_nat (length sample_store) + Z.of_nat (height sample_shape) + 3
          <= max_nodes) as Hmem by (unfold max_nodes; cbn; lia).
  split; [exact sample_wf_set|]. split; [exact Hx|]. split; [cbn; lia|].
  split; [exact Hmem|].
  destruct (insert_detaches_path sample_store sample_set sample_shape 4 3
              sample_wf_set Hx (ltac:(cbn; lia)) Hmem)
    as (it & h1 & s1 & t1 & H1 & H2 & H3 & _).
  exists it, h1, s1, t1. auto.
Defined.

(** ** Sequences of insertions *)

Lemma height_le_length t : (height t <= length (elements t))%nat.
Proof.
  induction t as [|a l IHl v r IHr]; [cbn; lia|].
  rewrite elements_Bin, length_app. cbn [height length]. lia.
Qed.

Lemma insert_all_cons fuel v vs h s out :
  insert fuel h s v = Ok out ->
  insert_all fuel (v :: vs) (h, s) = insert_all fuel vs (out.1.2, out.2).
Proof.
  intros E. unfold insert_all. cbn [foldl mbind res_bind]. rewrite E.
  destruct out as [[[it b] h1] s1]. reflexivity.
Qed.

Lemma set_add_length acc v : (length (set_add acc v) <= S (length acc))%nat.
Proof.
  unfold set_add. destruct (decide (v ∈ acc)); [lia|].
  rewrite sorted_insert_length. lia.
Qed.

(** Running [insert] over a list: the invariant [Q] relates the tree built
    so far to the values still to come. *)
Lemma insert_all_run (Q : shape -> list Z -> Prop) fuel :
  (forall t v vs n, Q t (v :: vs) -> bst t -> v ∉ elements t ->
     Q (shape_insert v n t).1 vs) ->
  (forall t v vs, Q t (v :: vs) -> v ∈ elements t -> Q t vs) ->
  forall vs h s t k,
    wf_set h s t -> Q t vs ->
    (length (elements t) <= k)%nat -> (length h <= k * (k + 3))%nat ->
    (k + length vs + 1 < fuel)%nat ->
    Z.of_nat ((k + length vs) * (k + length vs + 3)) + 3 <= max_nodes ->
    exists h1 s1 t1,
      insert_all fuel vs (h, s) = Ok (h1, s1)
      /\ wf_set h1 s1 t1
      /\ elements t1 = foldl set_add (elements t) vs
      /\ Q t1 [] /\ h `prefix_of` h1.
Proof.
  intros Hnew Hold. induction vs as [|v vs IH]; intros h s t k Hwf HQ Hk Hh Hf Hmem.
  - exists h, s, t. split_and!; auto.
  - cbn [length] in Hf, Hmem. pose proof Hwf as [Hm Hb Hsz].
    pose proof (height_le_length t) as Hht.
    destruct (decide (v ∈ elements t)) as [Hv|Hv].
    + rewrite (insert_all_cons _ _ _ _ _ _
                 (insert_present_run fuel h s t v Hwf Hv (ltac:(lia)))).
      cbn [fst snd foldl]. unfold set_add at 2.
      destruct (decide (v ∈ elements t)); [|tauto].
      apply (IH h s t k); auto; [eapply Hold; eauto|lia|nia].
    + destruct (insert_run fuel h s t v Hwf) as ([[[it b] h1] s1] & Hrun);
        [lia|nia|].
      rewrite (insert_all_cons _ _ _ _ _ _ Hrun). cbn [fst snd foldl].
      destruct (insert_absent_sound _ _ _ _ _ _ _ _ _ Hwf Hv Hrun)
        as (_ & _ & _ & Hwf1 & Hp & _ & Hlen).
      pose proof (shape_insert_next v (S (length (anchored h s))) t) as Hnext.
      pose proof (shape_insert_elements v (S (length (anchored h s))) t Hb Hv)
        as Hel.
      assert (length (anchored h s) <= S (length h))%nat as Hanch.
      { unfold anchored. destruct (tree s); [lia|]. rewrite length_app. cbn. lia. }
      unfold set_add at 2. destruct (decide (v ∈ elements t)); [tauto|].
      rewrite <- Hel.
      destruct (IH h1 s1 _ (S k) Hwf1) as (h2 & s2 & t2 & H1 & H2 & H3 & H4 & H5).
      * apply Hnew; auto.
      * rewrite Hel, sorted_insert_length. lia.
      * nia.
      * lia.
      * replace (S k + length vs)%nat with (k + S (length vs))%nat by lia.
        exact Hmem.
      * exists h2, s2, t2. split_and!; auto. etransitivity; eauto.
Qed.

Lemma foldl_set_add_elem y vs acc :
  y ∈ foldl set_add acc vs <-> y ∈ acc \/ y ∈ vs.
Proof.
  revert acc. induction vs as [|v vs IH]; intros acc; cbn [foldl].
  - rewrite elem_of_nil. tauto.
  - rewrite IH, elem_of_cons. unfold set_add.
    destruct (decide (v ∈ acc)) as [Hv|Hv].
    + split; [tauto|]. intros [H|[->|H]]; auto.
    + rewrite sorted_insert_elem. tauto.
Qed.

Lemma foldl_set_add_length vs acc :
  (length (foldl set_add acc vs) <= length acc + length vs)%nat.
Proof.
  revert acc. induction vs as [|v vs IH]; intros acc; cbn [foldl length]; [lia|].
  specialize (IH (set_add acc v)). pose proof (set_add_length acc v). lia.
Qed.

(** X13. A sequence of insertions builds the set of its values.  Starting
    from a new handle and inserting the values of any list in turn gives a
    handle whose walk is the ascending, duplicate-free list of those values,
    whose counter is its length, and on which [find] hits exactly the values
    of the list. *)
Theorem insert_all_builds_set (vs : list Z) (fuel : nat) :
  (2 * length vs + 1 < fuel)%nat ->
  Z.of_nat (length vs * (length vs + 3)) + 3 <= max_nodes ->
  exists h s,
    insert_all fuel vs ([], new_set) = Ok (h, s)
    /\ traverse fuel h s = Ok (set_of vs)
    /\ StronglySorted Z.lt (set_of vs)
    /\ (forall y, y ∈ set_of vs <-> y ∈ vs)
    /\ _size s = Z.of_nat (length (set_of vs))
    /\ (forall y, find fuel h s y = Ok (end_ s) <-> y ∉ vs).
Proof.
  intros Hf Hmem.
  destruct (insert_all_run (fun _ _ => True) fuel (fun _ _ _ _ _ _ _ => I)
              (fun _ _ _ _ _ => I) vs [] new_set Nil 0%nat (wf_set_new [])
              I) as (h & s & t & Hrun & Hwf & Hel & _ & _);
    [cbn; lia|cbn; lia|cbn; lia|exact Hmem|].
  cbn [elements nodes fmap list_fmap] in Hel. fold (set_of vs) in Hel.
  pose proof (foldl_set_add_length vs []) as Hlen. fold (set_of vs) in Hlen.
  cbn [length] in Hlen. pose proof (height_le_length t) as Hht.
  pose proof Hwf as [Hm Hb Hsz].
  assert (forall y, y ∈ set_of vs <-> y ∈ vs) as Hmem_iff.
  { intros y. unfold set_of. rewrite foldl_set_add_elem, elem_of_nil. tauto. }
  assert (length (elements t) + height t < fuel)%nat as Hfuel
    by (rewrite Hel in *; lia).
  exists h, s. rewrite <- Hel. split_and!.
  - exact Hrun.
  - apply traverse_run; [exact Hwf|exact Hfuel].
  - apply bst_sorted, Hb.
  - intros y. rewrite Hel. apply Hmem_iff.
  - exact Hsz.
  - intros y. rewrite (find_end_iff _ _ _ _ _ Hwf) by lia.
    rewrite Hel, Hmem_iff. tauto.
Qed.

Lemma insert_all_builds_set_witness :
  (2 * length [5; 3; 8; 3; 1] + 1 < 12)%nat
  /\ Z.of_nat (length [5; 3; 8; 3; 1] * (length [5; 3; 8; 3; 1] + 3)) + 3
     <= max_nodes
  /\ exists h s,
       insert_all 12 [5; 3; 8; 3; 1] ([], new_set) = Ok (h, s)
       /\ traverse 12 h s = Ok (set_of [5; 3; 8; 3; 1])
       /\ StronglySorted Z.lt (set_of [5; 3; 8; 3; 1]).
Proof.
  assert (Z.of_nat (length [5; 3; 8; 3; 1] * (length [5; 3; 8; 3; 1] + 3)) + 3
          <= max_nodes) as Hmem by (unfold max_nodes; cbn; lia).
  split; [cbn; lia|]. split; [exact Hmem|].
  destruct (insert_all_builds_set [5; 3; 8; 3; 1] 12 (ltac:(cbn; lia)) Hmem)
    as (h & s & H1 & H2 & H3 & _).
  exists h, s. auto.
Defined.

Lemma shape_insert_chain x n t :
  right_chain t -> Forall (fun y => y < x) (elements t) ->
  right_chain (shape_insert x n t).1
  /\ height (shape_insert x n t).1 = S (height t)
  /\ elements (shape_insert x n t).1 = elements t ++ [x].
Proof.
  induction t as [|a l IHl v r IHr]; intros Hc Hx.
  - cbn. auto.
  - destruct Hc as (-> & Hc). rewrite elements_Bin in Hx. cbn [elements nodes fmap list_fmap app] in Hx.
    apply Forall_cons in Hx as (Hv & Hx). cbn [shape_insert].
    destruct (Z.ltb_spec v x); [|lia].
    destruct (IHr Hc Hx) as (H1 & H2 & H3).
    destruct (shape_insert x n r) as [r1 n1]. cbn [fst snd] in *.
    split_and!.
    + cbn. auto.
    + cbn [height]. rewrite H2. cbn. lia.
    + rewrite !elements_Bin, H3. cbn. reflexivity.
Qed.

Lemma foldl_set_add_sorted vs acc :
  StronglySorted Z.lt (acc ++ vs) -> foldl set_add acc vs = acc ++ vs.
Proof.
  revert acc. induction vs as [|v vs IH]; intros acc Hs; cbn [foldl].
  - rewrite app_nil_r. reflexivity.
  - assert (Forall (fun y => y < v) acc) as Hacc.
    { apply StronglySorted_app in Hs as (H12 & _ & _).
      apply Forall_forall. intros y Hy. apply H12; [exact Hy|].
      apply elem_of_cons. auto. }
    assert (set_add acc v = acc ++ [v]) as ->.
    { unfold set_add. destruct (decide (v ∈ acc)) as [Hv|Hv].
      - rewrite Forall_forall in Hacc. specialize (Hacc _ Hv). lia.
      - rewrite <- (app_nil_r acc) at 1. rewrite sorted_insert_above by exact Hacc.
        reflexivity. }
    rewrite IH; rewrite <- app_assoc; [reflexivity|exact Hs].
Qed.

(** X14. Nothing rebalances the tree.  Inserting values in strictly
    ascending order into a new handle builds a chain of right children: no
    node has a left child and the height of the tree is the number of
    elements. *)
Theorem ascending_inserts_build_a_chain (vs : list Z) (fuel : nat) :
  StronglySorted Z.lt vs ->
  (length vs + 1 < fuel)%nat ->
  Z.of_nat (length vs * (length vs + 3)) + 3 <= max_nodes ->
  exists h s t,
    insert_all fuel vs ([], new_set) = Ok (h, s)
    /\ wf_set h s t
    /\ elements t = vs
    /\ right_chain t
    /\ height t = length vs.
Proof.
  intros Hs Hf Hmem.
  pose (Q := fun (t : shape) (ws : list Z) =>
               right_chain t /\ height t = length (elements t)
               /\ StronglySorted Z.lt (elements t ++ ws)).
  destruct (insert_all_run Q fuel) with (vs := vs) (h := @nil bNode)
    (s := new_set) (t := Nil) (k := 0%nat)
    as (h & s & t & Hrun & Hwf & Hel & (Hc & Hh & _) & _).
  - intros t v ws n (Hc & Hh & Hsorted) _ _.
    assert (Forall (fun y => y < v) (elements t)) as Hlt.
    { apply StronglySorted_app in Hsorted as (H12 & _ & _).
      apply Forall_forall. intros y Hy. apply H12; [exact Hy|].
      apply elem_of_cons. auto. }
    destruct (shape_insert_chain v n t Hc Hlt) as (H1 & H2 & H3).
    unfold Q. rewrite H3, H2, Hh, length_app. cbn [length].
    split_and!; [exact H1|lia|]. rewrite <- app_assoc. exact Hsorted.
  - intros t v ws (Hc & Hh & Hsorted) Hv. exfalso.
    apply StronglySorted_app in Hsorted as (H12 & _ & _).
    specialize (H12 v v Hv). assert (v < v); [|lia].
    apply H12, elem_of_cons. auto.
  - apply wf_set_new.
  - unfold Q. cbn. auto.
  - cbn. lia.
  - cbn. lia.
  - cbn. lia.
  - exact Hmem.
  - cbn [elements nodes fmap list_fmap] in Hel.
    rewrite foldl_set_add_sorted in Hel by exact Hs. cbn [app] in Hel.
    exists h, s, t. split_and!; auto. rewrite Hh, Hel. reflexivity.
Qed.

Lemma ascending_inserts_build_a_chain_witness :
  StronglySorted Z.lt [1; 2; 3; 4]
  /\ (length [1; 2; 3; 4] + 1 < 6)%nat
  /\ Z.of_nat (length [1; 2; 3; 4] * (length [1; 2; 3; 4] + 3)) + 3 <= max_nodes
  /\ exists h s t,
       insert_all 6 [1; 2; 3; 4] ([], new_set) = Ok (h, s)
       /\ wf_set h s t /\ right_chain t /\ height t = 4%nat.
Proof.
  assert (StronglySorted Z.lt [1; 2; 3; 4]) as Hs.
  { repeat constructor. }
  assert (Z.of_nat (length [1; 2; 3; 4] * (length [1; 2; 3; 4] + 3)) + 3
          <= max_nodes) as Hmem by (unfold max_nodes; cbn; lia).
  split; [exact Hs|]. split; [cbn; lia|]. split; [exact Hmem|].
  destruct (ascending_inserts_build_a_chain [1; 2; 3; 4] 6 Hs
              (ltac:(cbn; lia)) Hmem)
    as (h & s & t & H1 & H2 & _ & H3 & H4).
  exists h, s, t. auto.
Defined.
